(** * Forge: session and continuation supervisor, router and memory search

    A shallow embedding of the parts of the Forge main process that the
    specification makes claims about:

    - [electron/agents/router.ts]: [RULES], [routeTask]
    - the continuation engine ([src/unnamed/part_007], imported by the main
      process as [./agents/continuation]): [startContinuation],
      [stopContinuation], [onPtyData], [scheduleCheck], [checkAndContinue],
      [runIteration]
    - [electron/database/db.ts]: [escapeLike], [searchMemory]
    - the main process ([src/unnamed/part_006]): [getSanitizedEnv],
      [cleanupPtySession], [runHiddenClaudeOnce], and the [shell:kill],
      [continuation:start] and [ensemble:synthesis] handlers

    and of what these call or are called by: [quoteForCurrentShell],
    [getOneShotCommand], [buildCliString] and [getCliCommand] of the router;
    the mode selection of [shell:spawn] with [getOneShotRunnerCommand],
    [getPersistentInteractiveShellCommand] and [getClaudeResumeCommand];
    the [shell:resize] handler and the window's [closed] handler.

    Conventions.  A JavaScript string whose contents are inspected (regex
    tests, [length], [slice], [replace]) is a list of UTF-16 code units
    ([list N]).  A string that is only stored, compared and passed on
    (identifiers, goals, environment names and values) is a [string].  A
    JavaScript number that takes part in rounding arithmetic (the router's
    weights) is an IEEE-754 binary64 [float]. *)

From Stdlib Require Import ZArith NArith QArith Qround List String Ascii Bool Lia Floats.
From Stdlib Require Import DecimalString Permutation.
From stdpp Require Import base gmap strings list fin_maps.
Import ListNotations.

(* Decimal literals denote the nearest binary64 value, as in JavaScript. *)
Set Warnings "-inexact-float".

Local Open Scope nat_scope.

(** ** JavaScript strings as code units *)

Module Js.

Abbreviation jstring := (list N).

(** The code units of an ASCII literal. *)
Definition js (s : string) : jstring :=
  List.map N_of_ascii (list_ascii_of_string s).

Definition LF : N := 10%N.

(** [String.prototype.split('\n')]: always at least one piece. *)
Fixpoint split_lines (s : jstring) : list jstring :=
  match s with
  | [] => [[]]
  | c :: s' =>
      if N.eqb c LF then [] :: split_lines s'
      else match split_lines s' with
           | [] => [[c]]
           | l :: ls => (c :: l) :: ls
           end
  end.

(** [Array.prototype.join('\n')]. *)
Fixpoint join_lines (ls : list jstring) : jstring :=
  match ls with
  | [] => []
  | [l] => l
  | l :: ls' => l ++ LF :: join_lines ls'
  end.

(** [x.slice(-k)] on an array or a string: the last [k] elements, or all
    of them when there are fewer. *)
Definition slice_last {A} (k : nat) (l : list A) : list A :=
  skipn (List.length l - k) l.

(** [String.prototype.includes]. *)
Fixpoint starts_with (p s : jstring) : bool :=
  match p, s with
  | [], _ => true
  | _ :: _, [] => false
  | a :: p', b :: s' => N.eqb a b && starts_with p' s'
  end.

Fixpoint includes (s p : jstring) : bool :=
  starts_with p s ||
  match s with
  | [] => false
  | _ :: s' => includes s' p
  end.

End Js.
Import Js.

(** ** Regular expressions

    The fragment of ECMAScript regular expressions the sources use: character
    classes, sequence, alternation, the star, [^] and [$] without the
    multiline flag, and the word boundary.  [ends r s i] lists the positions
    at which a match of [r] that starts at position [i] of [s] can end;
    [test] is [RegExp.prototype.test] for a pattern without the [g] flag. *)

Module Regex.

Inductive regex : Type :=
| Eps
| Chr (p : N -> bool)
| Seq (r1 r2 : regex)
| Alt (r1 r2 : regex)
| Star (r : regex)
| Bol
| Eol
| WordB.

Definition in_range (lo hi c : N) : bool := N.leb lo c && N.leb c hi.

(** [\w] without the unicode flag: [A-Za-z0-9_]. *)
Definition is_word (c : N) : bool :=
  in_range 65 90 c || in_range 97 122 c || in_range 48 57 c || N.eqb c 95.

(** [\s]: WhiteSpace and LineTerminator code units. *)
Definition is_space (c : N) : bool :=
  in_range 9 13 c || N.eqb c 32 || N.eqb c 160 || N.eqb c 5760 ||
  in_range 8192 8202 c || N.eqb c 8232 || N.eqb c 8233 || N.eqb c 8239 ||
  N.eqb c 8287 || N.eqb c 12288 || N.eqb c 65279.

(** Canonicalize of the [i] flag, restricted to what an ASCII pattern
    character can match: a code unit above 127 never canonicalizes to an
    ASCII one. *)
Definition upcase (c : N) : N :=
  if in_range 97 122 c then (c - 32)%N else c.

Definition word_at (s : jstring) (i : nat) : bool :=
  match nth_error s i with
  | Some c => is_word c
  | None => false
  end.

Definition boundary_at (s : jstring) (i : nat) : bool :=
  xorb (match i with 0 => false | S j => word_at s j end) (word_at s i).

Fixpoint ends (r : regex) (s : jstring) (i : nat) {struct r} : list nat :=
  match r with
  | Eps => [i]
  | Chr p =>
      match nth_error s i with
      | Some c => if p c then [S i] else []
      | None => []
      end
  | Seq r1 r2 => flat_map (ends r2 s) (ends r1 s i)
  | Alt r1 r2 => ends r1 s i ++ ends r2 s i
  | Star r' =>
      (fix star (fuel : nat) (i : nat) {struct fuel} : list nat :=
         match fuel with
         | 0 => [i]
         | S fuel' =>
             i :: flat_map (fun j => if Nat.ltb i j then star fuel' j else [])
                           (ends r' s i)
         end) (S (List.length s)) i
  | Bol => match i with 0 => [i] | S _ => [] end
  | Eol => if Nat.eqb i (List.length s) then [i] else []
  | WordB => if boundary_at s i then [i] else []
  end.

Definition matches_at (r : regex) (s : jstring) (i : nat) : bool :=
  match ends r s i with
  | [] => false
  | _ :: _ => true
  end.

Definition test (r : regex) (s : jstring) : bool :=
  existsb (matches_at r s) (seq 0 (S (List.length s))).

(** Pattern builders. *)
Definition chr (c : N) : regex := Chr (N.eqb c).
Definition chr_i (c : N) : regex := Chr (fun x => N.eqb (upcase x) (upcase c)).

Fixpoint seq_of (rs : list regex) : regex :=
  match rs with
  | [] => Eps
  | [r] => r
  | r :: rs' => Seq r (seq_of rs')
  end.

(** A literal run of characters, case-sensitive and under the [i] flag. *)
Definition lit (s : string) : regex := seq_of (List.map chr (js s)).
Definition lit_i (s : string) : regex := seq_of (List.map chr_i (js s)).

(** [/\bword/i] and [/\bword\b/i]. *)
Definition b_ (w : string) : regex := Seq WordB (lit_i w).
Definition b_b (w : string) : regex := Seq WordB (Seq (lit_i w) WordB).

(** [Array.prototype.some(p => p.test(s))]. *)
Definition some_test (ps : list regex) (s : jstring) : bool :=
  existsb (fun p => test p s) ps.

End Regex.
Import Regex.


(** ** The order of binary64 values

    [key] sends a value that is not NaN to a triple of integers whose
    lexicographic order is the order of the floats: comparisons on floats
    become linear arithmetic. *)

Module FloatOrder.

Definition key (x : spec_float) : option (Z * Z * Z) :=
  match x with
  | S754_nan => None
  | S754_infinity true => Some (-2, 0, 0)%Z
  | S754_infinity false => Some (2, 0, 0)%Z
  | S754_zero _ => Some (0, 0, 0)%Z
  | S754_finite true m e => Some (-1, - e, Zneg m)%Z
  | S754_finite false m e => Some (1, e, Zpos m)%Z
  end.

Definition lex3 (a b : Z * Z * Z) : comparison :=
  match (fst (fst a) ?= fst (fst b))%Z with
  | Eq => match (snd (fst a) ?= snd (fst b))%Z with
          | Eq => (snd a ?= snd b)%Z
          | c => c
          end
  | c => c
  end.

Definition lex_lt (a b : Z * Z * Z) : Prop :=
  (fst (fst a) < fst (fst b) \/
   (fst (fst a) = fst (fst b) /\
    (snd (fst a) < snd (fst b) \/
     (snd (fst a) = snd (fst b) /\ snd a < snd b))))%Z.

End FloatOrder.

(** ** JavaScript numbers as binary64 floats *)

Module Num.

Local Open Scope float_scope.

(** [Math.min] on two arguments: NaN if either is NaN, and [-0] below [+0]. *)
Definition Math_min (a b : float) : float :=
  if is_nan a || is_nan b then nan
  else if a <? b then a
  else if b <? a then b
  else if get_sign a then a else b.

End Num.

(** ** The task router ([electron/agents/router.ts]) *)

Module Router.

Local Open Scope float_scope.

Inductive CLIType := claude | gemini | codex | copilot | qwen | llm.

Inductive TaskCategory := deep | code | visual | research | quick | git | local.

Record RouteResult := {
  cli : CLIType;
  category : TaskCategory;
  rationale : string;
  confidence : float
}.

Definition cli_name (c : CLIType) : string :=
  match c with
  | claude => "claude" | gemini => "gemini" | codex => "codex"
  | copilot => "copilot" | qwen => "qwen" | llm => "llm"
  end.

Definition defaultCategoryForCli (c : CLIType) : TaskCategory :=
  match c with
  | gemini => visual
  | codex => code
  | copilot => git
  | llm => local
  | qwen => quick
  | claude => deep
  end.

Record Keyword := { pattern : regex; weight : float }.

Record WeightedRule := {
  keywords : list Keyword;
  rule_cli : CLIType;
  rule_category : TaskCategory;
  rule_rationale : string
}.

Definition kw (p : regex) (w : float) : Keyword := {| pattern := p; weight := w |}.

Definition RULES : list WeightedRule :=
  [ {| keywords :=
         [ kw (b_ "architect") 1.0; kw (b_b "plan") 0.8; kw (b_b "review") 0.6;
           kw (b_ "analyze") 0.8; kw (b_ "complex") 0.7; kw (b_ "refactor") 0.9;
           kw (b_b "why") 0.5; kw (b_b "how does") 0.5;
           kw (b_ "design system") 0.7; kw (b_ "system design") 0.9 ];
       rule_cli := claude; rule_category := deep;
       rule_rationale := "Claude for deep planning and architecture analysis" |};
    {| keywords :=
         [ kw (b_ "frontend") 1.0; kw (b_b "ui") 0.9; kw (b_b "ux") 0.9;
           kw (b_b "css") 1.0; kw (b_b "html") 0.7; kw (b_ "component") 0.8;
           kw (b_b "react") 0.7; kw (b_b "vue") 0.7; kw (b_b "angular") 0.7;
           kw (b_ "tailwind") 0.9; kw (b_ "visual") 0.8; kw (b_b "design") 0.4;
           kw (b_ "layout") 0.9; kw (b_ "style") 0.8 ];
       rule_cli := gemini; rule_category := visual;
       rule_rationale := "Gemini for visual/frontend specialization" |};
    {| keywords :=
         [ kw (b_ "complete") 0.7; kw (b_ "autocomplete") 0.9;
           kw (b_ "boilerplate") 0.9; kw (b_ "scaffold") 0.8;
           kw (b_b "generate") 0.6; kw (b_ "snippet") 0.8;
           kw (b_ "quick fix") 0.7 ];
       rule_cli := codex; rule_category := code;
       rule_rationale := "Codex for rapid code generation and completion" |};
    {| keywords :=
         [ kw (b_ "commit") 1.0; kw (b_b "pr") 0.9; kw (b_ "pull request") 1.0;
           kw (b_ "github") 0.9; kw (b_ "branch") 0.8; kw (b_ "merge") 0.8;
           kw (b_b "git") 1.0; kw (b_ "review pr") 1.0 ];
       rule_cli := copilot; rule_category := git;
       rule_rationale := "Copilot for GitHub-integrated workflows" |};
    {| keywords :=
         [ kw (b_ "private") 0.9; kw (b_b "local") 0.8; kw (b_ "offline") 1.0;
           kw (b_ "confidential") 1.0; kw (b_ "sensitive") 0.9;
           kw (b_ "no cloud") 1.0 ];
       rule_cli := llm; rule_category := local;
       rule_rationale := "Local LLM for private/offline work" |};
    {| keywords :=
         [ kw (b_b "docs") 0.8; kw (b_ "documentation") 0.9;
           kw (b_b "search") 0.5; kw (b_ "look up") 0.7; kw (b_ "explain") 0.8;
           kw (b_ "what is") 0.7 ];
       rule_cli := claude; rule_category := research;
       rule_rationale := "Claude for research and documentation lookup" |};
    {| keywords :=
         [ kw (b_ "fix bug") 1.0; kw (b_ "debug") 1.0; kw (b_b "error") 0.7;
           kw (b_ "crash") 0.9; kw (b_ "traceback") 0.9; kw (b_ "exception") 0.8 ];
       rule_cli := claude; rule_category := deep;
       rule_rationale := "Claude for debugging with extended reasoning" |};
    {| keywords :=
         [ kw (b_b "test") 0.7; kw (b_ "unit test") 1.0;
           kw (b_ "integration test") 1.0; kw (b_b "spec") 0.6;
           kw (b_b "jest") 0.9; kw (b_b "vitest") 0.9; kw (b_b "pytest") 0.9 ];
       rule_cli := codex; rule_category := code;
       rule_rationale := "Codex for test generation" |} ].

(** The inner loop over a rule's keywords: [(totalWeight, matchedWeight)]. *)
Definition scoreStep (description : jstring) (acc : float * float) (k : Keyword)
  : float * float :=
  let totalWeight := fst acc + weight k in
  let matchedWeight :=
    if test (pattern k) description then snd acc + weight k else snd acc in
  (totalWeight, matchedWeight).

Definition score (description : jstring) (rule : WeightedRule) : float * float :=
  fold_left (scoreStep description) (keywords rule) (0, 0).

Definition totalWeight (rule : WeightedRule) : float :=
  fold_left (fun t k => t + weight k) (keywords rule) 0.

Definition matchedWeight (description : jstring) (rule : WeightedRule) : float :=
  snd (score description rule).

(** The candidate a rule stands for when it is selected. *)
Definition candidate (description : jstring) (rule : WeightedRule) : RouteResult :=
  let '(total, matched) := score description rule in
  {| cli := rule_cli rule;
     category := rule_category rule;
     rationale := rule_rationale rule;
     confidence := Num.Math_min (matched / total) 1.0 |}.

(** The outer loop: [(bestMatch, bestScore)]. *)
Definition routeStep (description : jstring)
  (acc : option RouteResult * float) (rule : WeightedRule)
  : option RouteResult * float :=
  let matched := snd (score description rule) in
  if 0 <? matched then
    if snd acc <? matched then (Some (candidate description rule), matched)
    else acc
  else acc.

Definition routeLoop (description : jstring) (rules : list WeightedRule)
  : option RouteResult * float :=
  fold_left (routeStep description) rules (None, 0).

Definition defaultRoute : RouteResult :=
  {| cli := claude; category := deep;
     rationale := "Claude as default general-purpose agent";
     confidence := 0.5 |}.

Definition routeTask (description : jstring) (preferredCli : option CLIType)
  : RouteResult :=
  match preferredCli with
  | Some c =>
      {| cli := c;
         category := defaultCategoryForCli c;
         rationale := String.append "Manual override: using " (cli_name c);
         confidence := 1.0 |}
  | None =>
      match fst (routeLoop description RULES) with
      | Some r => r
      | None => defaultRoute
      end
  end.

(** Every way a rule's keywords can match: the matched weight depends on
    the description through these bits alone. *)
Fixpoint bit_vectors (n : nat) : list (list bool) :=
  match n with
  | 0 => [[]]
  | S n' => List.map (cons true) (bit_vectors n') ++ List.map (cons false) (bit_vectors n')
  end.

Fixpoint matched_of_bits (ks : list Keyword) (bits : list bool) (acc : float) : float :=
  match ks, bits with
  | k :: ks', b :: bits' => matched_of_bits ks' bits' (if b then acc + weight k else acc)
  | _, _ => acc
  end.

(** What the outer loop of [routeTask] holds after a prefix [rules] of the
    rule list: either nothing matched so far, or the best match is the
    candidate of the earliest rule whose matched weight no other rule of the
    prefix exceeds. *)
Definition loop_inv (description : jstring) (rules : list WeightedRule)
  (acc : option RouteResult * float) : Prop :=
  let mw := matchedWeight description in
  match fst acc with
  | None =>
      snd acc = 0 /\
      forall j r, nth_error rules j = Some r -> (0 <? mw r) = false
  | Some c =>
      exists i r,
        nth_error rules i = Some r /\
        c = candidate description r /\
        snd acc = mw r /\
        (0 <? mw r) = true /\
        (forall j r', nth_error rules j = Some r' -> (mw r <? mw r') = false) /\
        (forall j r', (j < i)%nat -> nth_error rules j = Some r' ->
                      (mw r <=? mw r') = false)
  end.

End Router.

(** ** Numbers that cross the command boundary

    The arguments [maxIterations], [n] and [quietDelayMs] only meet
    [typeof], [isFinite], comparisons, [Math.min], [Math.max] and
    [Math.floor].  Each of these is exact on binary64 values, so a finite
    number is given by its rational value ([-0] and [+0] are both [Fin 0]:
    none of the operations below tells them apart in its result's value). *)

Module Number.

Inductive number :=
| NaN
| Inf (negative : bool)
| Fin (q : Q).

Definition of_Z (z : Z) : number := Fin (inject_Z z).
Definition of_nat (n : nat) : number := of_Z (Z.of_nat n).

Definition isFinite (x : number) : bool :=
  match x with
  | Fin _ => true
  | _ => false
  end.

Definition Qlt_b (a b : Q) : bool := negb (Qle_bool b a).

(** [x < y]; every comparison with NaN is false. *)
Definition lt (x y : number) : bool :=
  match x, y with
  | NaN, _ | _, NaN => false
  | Inf true, Inf true => false
  | Inf true, _ => true
  | _, Inf true => false
  | Inf false, _ => false
  | _, Inf false => true
  | Fin a, Fin b => Qlt_b a b
  end.

(** [x <= y]. *)
Definition le (x y : number) : bool :=
  match x, y with
  | NaN, _ | _, NaN => false
  | Inf true, _ => true
  | _, Inf true => false
  | _, Inf false => true
  | Inf false, _ => false
  | Fin a, Fin b => Qle_bool a b
  end.

Definition gt (x y : number) : bool := lt y x.
Definition ge (x y : number) : bool := le y x.

Definition Math_min (x y : number) : number :=
  match x, y with
  | NaN, _ | _, NaN => NaN
  | _, _ => if le x y then x else y
  end.

Definition Math_max (x y : number) : number :=
  match x, y with
  | NaN, _ | _, NaN => NaN
  | _, _ => if le y x then x else y
  end.

Definition Math_floor (x : number) : number :=
  match x with
  | Fin q => of_Z (Qfloor q)
  | _ => x
  end.

(** The number is the integer [z]. *)
Definition is_int (x : number) (z : Z) : Prop :=
  match x with
  | Fin q => q == inject_Z z
  | _ => False
  end.

(** A value received through IPC ([unknown] in the handlers' signatures). *)
Inductive JsValue :=
| JUndefined
| JNull
| JBoolean (b : bool)
| JNumber (x : number)
| JString (s : string)
| JObject.

End Number.

(** ** The continuation engine

    The module keeps a [Map] from ptyId to a mutable state object, and the
    timer callbacks hold on to the state object they were created for.  The
    embedding therefore has a heap of state objects, the [states] map into
    it, and the pending timeouts, each with the object its callback
    captured.  [win.isDestroyed()] is an input of each step.  The callbacks
    the caller passes in ([onContinue] and the hooks) are recorded in the
    trace when they are invoked; the ones wired by the main process do not
    call back into the engine.  [Became s] records an assignment to
    [state.status]. *)

Module Continuation.

Import Number.

Definition ONE_SHOT_DONE_MARKER : string := "__FORGE_ONE_SHOT_DONE__".

Definition not_lf (c : N) : bool := negb (N.eqb c LF).
Definition is_letter (c : N) : bool := in_range 65 90 c || in_range 97 122 c.

(** [(?:^|\n)], [[^\n]*] and [\s*$]. *)
Definition line_start : regex := Alt Bol (chr LF).
Definition rest_of_line : regex := Star (Chr not_lf).
Definition spaces_to_end : regex := Seq (Star (Chr is_space)) Eol.

Definition IDLE_PROMPT_PATTERNS : list regex :=
  [ seq_of [line_start; rest_of_line; chr 10095; spaces_to_end];
    seq_of [line_start; rest_of_line; chr 36; spaces_to_end];
    seq_of [line_start; Chr is_letter; chr 58; rest_of_line; chr 62; spaces_to_end];
    seq_of [line_start; Alt (lit_i "claude") (Alt (lit_i "gemini") (lit_i "codex"));
            chr_i 62; spaces_to_end];
    seq_of [line_start; lit ONE_SHOT_DONE_MARKER; spaces_to_end];
    seq_of [line_start; chr 62; spaces_to_end] ].

Definition DONE_PATTERNS : list regex :=
  [ lit_i "<promise>DONE</promise>";
    b_b "all tasks completed";
    b_b "task complete";
    b_b "finished successfully";
    b_b "completed successfully" ].

Definition QUIET_DELAY_MS : number := of_Z 12000.
Definition MAX_BUFFER_SIZE : Z := 50000.
Definition BUFFER_TRIM_TO : Z := 20000.

Inductive Status := running | paused | done | max_reached | cancelled.

(** Which of the optional hooks the caller supplied. *)
Record ContinuationHooks := {
  onIteration : bool;
  onDone : bool;
  onMaxReached : bool;
  onCancelled : bool
}.

Record ContinuationStartOptions := {
  kickOff : option bool;
  opt_requirePrompt : option bool;
  opt_quietDelayMs : option number
}.

Record ContinuationState := {
  ptyId : string;
  goal : string;
  maxIterations : number;
  currentIteration : nat;
  status : Status;
  requirePrompt : bool;
  quietDelayMs : number;
  timer : option nat;
  outputBuffer : jstring;
  hooks : ContinuationHooks
}.

Inductive Event :=
| HookIteration (pid : string) (iteration : nat) (max : number)
| SendIteration (pid : string) (iteration : nat) (max : number)
| CallOnContinue (pid : string)
| HookDone (pid : string) (iterations : nat)
| SendDone (pid : string) (iterations : nat)
| HookMaxReached (pid : string) (iterations : nat) (goal : string)
| SendMaxReached (pid : string) (iterations : nat) (goal : string)
| HookCancelled (pid : string)
| Became (s : Status).

Record Engine := {
  heap : gmap nat ContinuationState;
  states : gmap string nat;
  timers : gmap nat (nat * number);
  trace : list (nat * Event);
  next_obj : nat;
  next_timer : nat
}.

Definition empty : Engine :=
  {| heap := ∅; states := ∅; timers := ∅; trace := []; next_obj := 0; next_timer := 0 |}.

(** Field updates. *)
Definition set_status (s : Status) (st : ContinuationState) : ContinuationState :=
  {| ptyId := ptyId st; goal := goal st; maxIterations := maxIterations st;
     currentIteration := currentIteration st; status := s;
     requirePrompt := requirePrompt st; quietDelayMs := quietDelayMs st;
     timer := timer st; outputBuffer := outputBuffer st; hooks := hooks st |}.

Definition set_currentIteration (i : nat) (st : ContinuationState) : ContinuationState :=
  {| ptyId := ptyId st; goal := goal st; maxIterations := maxIterations st;
     currentIteration := i; status := status st;
     requirePrompt := requirePrompt st; quietDelayMs := quietDelayMs st;
     timer := timer st; outputBuffer := outputBuffer st; hooks := hooks st |}.

Definition set_timer (t : option nat) (st : ContinuationState) : ContinuationState :=
  {| ptyId := ptyId st; goal := goal st; maxIterations := maxIterations st;
     currentIteration := currentIteration st; status := status st;
     requirePrompt := requirePrompt st; quietDelayMs := quietDelayMs st;
     timer := t; outputBuffer := outputBuffer st; hooks := hooks st |}.

Definition set_outputBuffer (b : jstring) (st : ContinuationState) : ContinuationState :=
  {| ptyId := ptyId st; goal := goal st; maxIterations := maxIterations st;
     currentIteration := currentIteration st; status := status st;
     requirePrompt := requirePrompt st; quietDelayMs := quietDelayMs st;
     timer := timer st; outputBuffer := b; hooks := hooks st |}.

Definition with_heap (h : gmap nat ContinuationState) (e : Engine) : Engine :=
  {| heap := h; states := states e; timers := timers e; trace := trace e;
     next_obj := next_obj e; next_timer := next_timer e |}.

Definition with_states (m : gmap string nat) (e : Engine) : Engine :=
  {| heap := heap e; states := m; timers := timers e; trace := trace e;
     next_obj := next_obj e; next_timer := next_timer e |}.

Definition with_timers (ts : gmap nat (nat * number)) (e : Engine) : Engine :=
  {| heap := heap e; states := states e; timers := ts; trace := trace e;
     next_obj := next_obj e; next_timer := next_timer e |}.

(** An assignment to a field of the state object [o]. *)
Definition update (o : nat) (f : ContinuationState -> ContinuationState) (e : Engine) : Engine :=
  with_heap (alter f o (heap e)) e.

Definition emit (o : nat) (ev : Event) (e : Engine) : Engine :=
  {| heap := heap e; states := states e; timers := timers e;
     trace := trace e ++ [(o, ev)];
     next_obj := next_obj e; next_timer := next_timer e |}.

(** [hooks.h?.(...)]. *)
Definition emit_if (present : bool) (o : nat) (ev : Event) (e : Engine) : Engine :=
  if present then emit o ev e else e.

Definition clearTimeout (t : nat) (e : Engine) : Engine :=
  with_timers (delete t (timers e)) e.

(** [setTimeout(callback-for-o, delay)]; the new handle is [next_timer e]. *)
Definition setTimeout (o : nat) (delay : number) (e : Engine) : Engine :=
  {| heap := heap e; states := states e;
     timers := <[next_timer e := (o, delay)]> (timers e);
     trace := trace e;
     next_obj := next_obj e; next_timer := S (next_timer e) |}.

Definition scheduleCheck (o : nat) (e : Engine) : Engine :=
  match heap e !! o with
  | Some st =>
      match status st with
      | running =>
          update o (set_timer (Some (next_timer e))) (setTimeout o (quietDelayMs st) e)
      | _ => e
      end
  | None => e
  end.

Definition stopContinuation (pid : string) (e : Engine) : Engine :=
  match states e !! pid with
  | Some o =>
      match heap e !! o with
      | Some st =>
          let e := match timer st with
                   | Some t => clearTimeout t e
                   | None => e
                   end in
          let e := emit o (Became cancelled) (update o (set_status cancelled) e) in
          let e := emit_if (onCancelled (hooks st)) o (HookCancelled pid) e in
          with_states (delete pid (states e)) e
      | None => e
      end
  | None => e
  end.

Definition onPtyData (pid : string) (data : jstring) (e : Engine) : Engine :=
  match states e !! pid with
  | Some o =>
      match heap e !! o with
      | Some st =>
          match status st with
          | running =>
              let buf := outputBuffer st ++ data in
              let buf := if Z.ltb MAX_BUFFER_SIZE (Z.of_nat (List.length buf))
                         then slice_last (Z.to_nat BUFFER_TRIM_TO) buf else buf in
              let e := update o (set_outputBuffer buf) e in
              let e := match timer st with
                       | Some t => update o (set_timer None) (clearTimeout t e)
                       | None => e
                       end in
              scheduleCheck o e
          | _ => e
          end
      | None => e
      end
  | None => e
  end.

Definition runIteration (o : nat) (destroyed : bool) (e : Engine) : Engine :=
  match heap e !! o with
  | Some st =>
      match status st with
      | running =>
          if destroyed then stopContinuation (ptyId st) e
          else if ge (of_nat (currentIteration st)) (maxIterations st) then
            let e := emit o (Became max_reached) (update o (set_status max_reached) e) in
            let e := with_states (delete (ptyId st) (states e)) e in
            let e := emit_if (onMaxReached (hooks st)) o
                       (HookMaxReached (ptyId st) (currentIteration st) (goal st)) e in
            emit o (SendMaxReached (ptyId st) (currentIteration st) (goal st)) e
          else
            let i := S (currentIteration st) in
            let e := update o (set_currentIteration i) e in
            let e := update o (set_outputBuffer []) e in
            let e := emit_if (onIteration (hooks st)) o
                       (HookIteration (ptyId st) i (maxIterations st)) e in
            let e := emit o (SendIteration (ptyId st) i (maxIterations st)) e in
            let e := emit o (CallOnContinue (ptyId st)) e in
            scheduleCheck o e
      | _ => e
      end
  | None => e
  end.

(** [state.outputBuffer.split('\n').slice(-5).join('\n')] tested against the
    idle prompts. *)
Definition lastLines (buf : jstring) : jstring :=
  join_lines (slice_last 5 (split_lines buf)).

Definition isAtPrompt (buf : jstring) : bool :=
  some_test IDLE_PROMPT_PATTERNS (lastLines buf).

Definition checkAndContinue (o : nat) (destroyed : bool) (e : Engine) : Engine :=
  match heap e !! o with
  | Some st =>
      match status st with
      | running =>
          if destroyed then stopContinuation (ptyId st) e
          else if some_test DONE_PATTERNS (outputBuffer st) then
            let e := emit o (Became done) (update o (set_status done) e) in
            let e := with_states (delete (ptyId st) (states e)) e in
            let e := emit_if (onDone (hooks st)) o
                       (HookDone (ptyId st) (currentIteration st)) e in
            emit o (SendDone (ptyId st) (currentIteration st)) e
          else if requirePrompt st && negb (isAtPrompt (outputBuffer st)) then
            scheduleCheck o e
          else runIteration o destroyed e
      | _ => e
      end
  | None => e
  end.

(** The callback [scheduleCheck] hands to [setTimeout], run when the pending
    timeout [t] expires. *)
Definition timerFires (t : nat) (destroyed : bool) (e : Engine) : Engine :=
  match timers e !! t with
  | Some (o, _) =>
      let e := with_timers (delete t (timers e)) e in
      let e := update o (set_timer None) e in
      checkAndContinue o destroyed e
  | None => e
  end.

Definition truthy (b : option bool) : bool :=
  match b with
  | Some true => true
  | _ => false
  end.

Definition startContinuation (pid goal : string) (maxIter : number)
  (hks : ContinuationHooks) (options : ContinuationStartOptions)
  (destroyed : bool) (e : Engine) : Engine :=
  let e := stopContinuation pid e in
  let o := next_obj e in
  let st :=
    {| ptyId := pid; goal := goal; maxIterations := maxIter;
       currentIteration := 0; status := running;
       requirePrompt := match opt_requirePrompt options with
                        | Some b => b
                        | None => true
                        end;
       quietDelayMs := match opt_quietDelayMs options with
                       | Some d => if ge d (of_Z 250) then d else QUIET_DELAY_MS
                       | None => QUIET_DELAY_MS
                       end;
       timer := None; outputBuffer := []; hooks := hks |} in
  let e := {| heap := <[o := st]> (heap e); states := <[pid := o]> (states e);
              timers := timers e; trace := trace e;
              next_obj := S o; next_timer := next_timer e |} in
  if truthy (kickOff options) then runIteration o destroyed e
  else scheduleCheck o e.

Definition getContinuationState (pid : string) (e : Engine) : option ContinuationState :=
  match states e !! pid with
  | Some o => heap e !! o
  | None => None
  end.

(** What can happen to the engine: the three exported entry points and the
    expiry of a pending timeout. *)
Inductive Input :=
| Start (pid goal : string) (maxIter : number) (hks : ContinuationHooks)
    (options : ContinuationStartOptions)
| Stop (pid : string)
| PtyData (pid : string) (data : jstring)
| TimerFires (t : nat).

Definition step (e : Engine) (i : Input * bool) : Engine :=
  match fst i with
  | Start pid goal maxIter hks options =>
      startContinuation pid goal maxIter hks options (snd i) e
  | Stop pid => stopContinuation pid e
  | PtyData pid data => onPtyData pid data e
  | TimerFires t => timerFires t (snd i) e
  end.

Definition run (inputs : list (Input * bool)) : Engine :=
  fold_left step inputs empty.

(** The events of one state object, in the order they were emitted. *)
Definition events_of (o : nat) (tr : list (nat * Event)) : list Event :=
  List.map snd (List.filter (fun x => Nat.eqb (fst x) o) tr).

(** *** What a reachable engine state satisfies *)

Definition opt_ev (present : bool) (ev : Event) : list Event :=
  if present then [ev] else [].

(** The events of iteration [i] of a run, in emission order. *)
Definition block (st : ContinuationState) (i : nat) : list Event :=
  opt_ev (onIteration (hooks st)) (HookIteration (ptyId st) i (maxIterations st)) ++
  [SendIteration (ptyId st) i (maxIterations st); CallOnContinue (ptyId st)].

Definition blocks (st : ContinuationState) (k : nat) : list Event :=
  flat_map (block st) (seq 1 k).

(** The events that end a run, by the status it ended in. *)
Definition ending (st : ContinuationState) : list Event :=
  match status st with
  | running | paused => []
  | done =>
      Became done ::
      opt_ev (onDone (hooks st)) (HookDone (ptyId st) (currentIteration st)) ++
      [SendDone (ptyId st) (currentIteration st)]
  | max_reached =>
      Became max_reached ::
      opt_ev (onMaxReached (hooks st))
        (HookMaxReached (ptyId st) (currentIteration st) (goal st)) ++
      [SendMaxReached (ptyId st) (currentIteration st) (goal st)]
  | cancelled =>
      Became cancelled :: opt_ev (onCancelled (hooks st)) (HookCancelled (ptyId st))
  end.

(** The iteration that was started last passed the cap check. *)
Definition within_cap (st : ContinuationState) : Prop :=
  match currentIteration st with
  | 0 => True
  | S k => ge (of_nat k) (maxIterations st) = false
  end.

(** The [iteration] values of the [continuation:iteration] events. *)
Definition sent_iterations (evs : list Event) : list nat :=
  flat_map (fun ev => match ev with
                      | SendIteration _ i _ => [i]
                      | _ => []
                      end) evs.

Definition is_onContinue (ev : Event) : bool :=
  match ev with
  | CallOnContinue _ => true
  | _ => false
  end.

(** The messages sent to the window ([win.webContents.send]). *)
Definition is_send (ev : Event) : bool :=
  match ev with
  | SendIteration _ _ _ | SendDone _ _ | SendMaxReached _ _ _ => true
  | _ => false
  end.

Definition sends (tr : list (nat * Event)) : list (nat * Event) :=
  List.filter (fun x => is_send (snd x)) tr.

(** Two state objects that differ at most in [timer] and [outputBuffer]. *)
Definition same_core (a b : ContinuationState) : Prop :=
  ptyId a = ptyId b /\ goal a = goal b /\ maxIterations a = maxIterations b /\
  currentIteration a = currentIteration b /\ status a = status b /\
  hooks a = hooks b /\ quietDelayMs a = quietDelayMs b /\ requirePrompt a = requirePrompt b.

Record wf (e : Engine) : Prop := {
  wf_registered : forall pid o, states e !! pid = Some o ->
    exists st, heap e !! o = Some st /\ status st = running /\ ptyId st = pid;
  wf_running : forall o st, heap e !! o = Some st -> status st = running ->
    states e !! ptyId st = Some o;
  wf_alloc : forall o st, heap e !! o = Some st -> o < next_obj e;
  wf_trace : forall o ev, In (o, ev) (trace e) -> o < next_obj e;
  wf_shape : forall o st, heap e !! o = Some st ->
    events_of o (trace e) = blocks st (currentIteration st) ++ ending st;
  wf_cap : forall o st, heap e !! o = Some st -> within_cap st;
  wf_timers : forall t o d, timers e !! t = Some (o, d) ->
    exists st, heap e !! o = Some st /\ status st = running /\
               timer st = Some t /\ d = quietDelayMs st;
  wf_handles : forall t x, timers e !! t = Some x -> t < next_timer e;
  wf_handle_fields : forall o st t, heap e !! o = Some st -> timer st = Some t ->
    t < next_timer e
}.

(** Scenario C of the specification: a prompt, three continuations, then the
    cap. *)
Definition scenario_C : list (Input * bool) :=
  let hks := {| onIteration := true; onDone := true; onMaxReached := true;
                onCancelled := false |} in
  let options := {| kickOff := None; opt_requirePrompt := None;
                    opt_quietDelayMs := Some (of_Z 250) |} in
  [ (Start "p" "x" (of_Z 3) hks options, false);
    (PtyData "p" (js "hello" ++ [10; 10095; 32]%N), false);
    (TimerFires 1, false);
    (PtyData "p" (js "still working" ++ [10; 10095; 32]%N), false);
    (TimerFires 3, false);
    (PtyData "p" [10095; 32]%N, false);
    (TimerFires 5, false);
    (PtyData "p" [10095; 32]%N, false);
    (TimerFires 7, false) ].

End Continuation.

(** ** The earlier revision of [onPtyData]

    The tree also holds an earlier revision of the engine (under
    [electron/agents/continuation.ts]; the engine above is
    [src/unnamed/part_007], the one [main.ts] imports
    [ONE_SHOT_DONE_MARKER] from).  Its [onPtyData] appends and trims in the
    same way and clears the quiet timer, but does not arm a new one. *)

Module Legacy.

Import Continuation.

Definition onPtyData (pid : string) (data : jstring) (e : Engine) : Engine :=
  match states e !! pid with
  | Some o =>
      match heap e !! o with
      | Some st =>
          match status st with
          | running =>
              let buf := outputBuffer st ++ data in
              let buf := if Z.ltb 50000 (Z.of_nat (List.length buf))
                         then slice_last (Z.to_nat 20000) buf else buf in
              let e := update o (set_outputBuffer buf) e in
              match timer st with
              | Some t => update o (set_timer None) (clearTimeout t e)
              | None => e
              end
          | _ => e
          end
      | None => e
      end
  | None => e
  end.

End Legacy.

(** ** The command boundary (main process) *)

Module Boundary.

Import Number.

(** [continuation:start]:
    [typeof maxIterations === 'number' && isFinite(maxIterations) &&
     maxIterations > 0 ? Math.min(maxIterations, 100) : 20]. *)
Definition continuationMax (maxIterations : JsValue) : number :=
  match maxIterations with
  | JNumber x =>
      if isFinite x && gt x (of_Z 0) then Math_min x (of_Z 100) else of_Z 20
  | _ => of_Z 20
  end.

(** [ensemble:synthesis]:
    [(typeof n === 'number' && isFinite(n))
       ? Math.max(1, Math.min(12, Math.floor(n))) : 5]. *)
Definition synthesisCount (n : JsValue) : number :=
  match n with
  | JNumber x =>
      if isFinite x then Math_max (of_Z 1) (Math_min (of_Z 12) (Math_floor x))
      else of_Z 5
  | _ => of_Z 5
  end.

(** [shell:resize]: the guard before [pty.resize]. *)
Definition resizeAccepted (cols rows : JsValue) : bool :=
  match cols, rows with
  | JNumber c, JNumber r =>
      negb (lt c (of_Z 1) || gt c (of_Z 500) || lt r (of_Z 1) || gt r (of_Z 200))
  | _, _ => false
  end.

End Boundary.

(** ** The sanitized environment of PTY children (main process) *)

Module Env.

Definition ENV_ALLOWLIST : list string :=
  [ "PATH"; "HOME"; "USER"; "LOGNAME"; "SHELL"; "LANG"; "LC_ALL"; "LC_CTYPE";
    "TERM"; "COLORTERM"; "DISPLAY"; "WAYLAND_DISPLAY"; "XDG_RUNTIME_DIR";
    "XDG_DATA_HOME"; "XDG_CONFIG_HOME"; "XDG_CACHE_HOME";
    "WSLENV"; "WSL_DISTRO_NAME"; "WSL_INTEROP";
    "SYSTEMROOT"; "SYSTEMDRIVE"; "WINDIR"; "APPDATA"; "LOCALAPPDATA";
    "PROGRAMFILES"; "PROGRAMFILES(X86)"; "COMMONPROGRAMFILES";
    "TEMP"; "TMP"; "USERPROFILE"; "HOMEDRIVE"; "HOMEPATH";
    "NUMBER_OF_PROCESSORS"; "PROCESSOR_ARCHITECTURE"; "OS";
    "COMSPEC"; "PSModulePath" ].

(** The keys [getSanitizedEnv] assigns whatever the parent holds. *)
Definition FORCED_KEYS : list string := [ "TERM"; "COLORTERM"; "LANG" ].

(** A string is truthy when it is not empty. *)
Definition truthy (s : string) : bool :=
  match s with
  | EmptyString => false
  | String _ _ => true
  end.

(** [process.env] is read through [process.env[key]] only: [None] is
    [undefined]. *)
Definition copyAllowed (penv : string -> option string)
  (env : gmap string string) (key : string) : gmap string string :=
  match penv key with
  | Some v => if truthy v then <[key := v]> env else env
  | None => env
  end.

(** What the copy loop leaves under [key]. *)
Definition copied (penv : string -> option string) (key : string) : option string :=
  match penv key with
  | Some v => if truthy v then Some v else None
  | None => None
  end.

Definition getSanitizedEnv (penv : string -> option string) : gmap string string :=
  let env := fold_left (copyAllowed penv) ENV_ALLOWLIST ∅ in
  let env := <["TERM" := "xterm-256color"]> env in
  let env := <["COLORTERM" := "truecolor"]> env in
  <["LANG" := match env !! "LANG" with
              | Some v => if truthy v then v else "en_US.UTF-8"
              | None => "en_US.UTF-8"
              end]> env.

Record SpawnSpec := { cmd : string; args : list string; spec_cwd : string }.

(** The options [shell:spawn] passes to [nodePty.spawn], whichever spawn
    spec the mode selects. *)
Record PtyOptions := {
  name : string;
  cols : Z;
  rows : Z;
  cwd : string;
  env : gmap string string
}.

Definition ptyOptions (spawnSpec : SpawnSpec) (penv : string -> option string)
  : PtyOptions :=
  {| name := "xterm-256color"; cols := 120; rows := 30;
     cwd := spec_cwd spawnSpec; env := getSanitizedEnv penv |}.

End Env.

(** ** Memory search ([electron/database/db.ts])

    The two prepared statements run inside SQLite; they are taken as given:
    a statement's [all] either returns rows or throws.  [searchMemory] is
    instrumented with the list of statements it ran. *)

Module Db.

Record MemoryRow := {
  id : Z;
  key : jstring;
  content : jstring;
  category : jstring;
  createdAt : jstring
}.

(** A thrown value: an [Error] with its [message], or anything else. *)
Inductive Thrown :=
| ErrorObject (message : jstring)
| NotAnError.

Inductive Outcome (A : Type) :=
| Returned (a : A)
| Threw (t : Thrown).
Arguments Returned {A} a.
Arguments Threw {A} t.

(** [stmts.searchMemoryFts] ([... WHERE m.workspace_id = ? AND memories_fts
    MATCH ? ORDER BY rank LIMIT 10]) and [stmts.searchMemoryLike]
    ([... WHERE workspace_id = ? AND (key LIKE ? ESCAPE '\' OR content LIKE ?
    ESCAPE '\') ORDER BY updated_at DESC LIMIT 10]). *)
Record Statements := {
  searchMemoryFts : string -> jstring -> Outcome (list MemoryRow);
  searchMemoryLike : string -> jstring -> jstring -> Outcome (list MemoryRow)
}.

Inductive DbCall :=
| RanFts (workspaceId : string) (query : jstring)
| RanLike (workspaceId : string) (keyPattern contentPattern : jstring).

Definition BACKSLASH : N := 92.
Definition PERCENT : N := 37.
Definition UNDERSCORE : N := 95.

(** [s.replace(/c/g, r)] for a one-character pattern and a replacement
    without [$]. *)
Definition replace_all (c : N) (r : jstring) (s : jstring) : jstring :=
  flat_map (fun x => if N.eqb x c then r else [x]) s.

Definition escapeLike (s : jstring) : jstring :=
  replace_all UNDERSCORE [BACKSLASH; UNDERSCORE]
    (replace_all PERCENT [BACKSLASH; PERCENT]
       (replace_all BACKSLASH [BACKSLASH; BACKSLASH] s)).

Definition searchMemory (stmts : Statements) (workspaceId : string) (query : jstring)
  : Outcome (list MemoryRow) * list DbCall :=
  let fallback :=
    let escaped := escapeLike query in
    let pattern := [PERCENT] ++ escaped ++ [PERCENT] in
    (searchMemoryLike stmts workspaceId pattern pattern,
     [RanFts workspaceId query; RanLike workspaceId pattern pattern]) in
  match searchMemoryFts stmts workspaceId query with
  | Returned ftsResults =>
      if Nat.ltb 0 (List.length ftsResults)
      then (Returned ftsResults, [RanFts workspaceId query])
      else fallback
  | Threw err =>
      let message := match err with
                     | ErrorObject m => m
                     | NotAnError => []
                     end in
      if negb (includes message (js "fts5: syntax error"))
      then (Threw err, [RanFts workspaceId query])
      else fallback
  end.

(** How SQLite reads a [LIKE] pattern under [ESCAPE '\']: the escape
    character makes the next character literal, [%] stands for any string
    and [_] for any one character. *)
Inductive LikeToken :=
| AnyString
| AnyChar
| Literal (c : N)
| DanglingEscape.

Fixpoint like_tokens (p : jstring) : list LikeToken :=
  match p with
  | [] => []
  | c :: p' =>
      if N.eqb c BACKSLASH then
        match p' with
        | [] => [DanglingEscape]
        | c' :: p'' => Literal c' :: like_tokens p''
        end
      else if N.eqb c PERCENT then AnyString :: like_tokens p'
      else if N.eqb c UNDERSCORE then AnyChar :: like_tokens p'
      else Literal c :: like_tokens p'
  end.

(** The reading of the claim under test: [LIKE] runs only after an FTS
    syntax error. *)
Definition like_only_after_syntax_error : Prop :=
  forall stmts workspaceId query keyPattern contentPattern,
    In (RanLike workspaceId keyPattern contentPattern)
       (snd (searchMemory stmts workspaceId query)) ->
    exists message,
      searchMemoryFts stmts workspaceId query = Threw (ErrorObject message) /\
      includes message (js "fts5: syntax error") = true.

(** A store whose full-text query finds nothing and whose [LIKE] query finds
    one row. *)
Definition row1 : MemoryRow :=
  {| id := 1; key := js "k1"; content := js "hello world";
     category := js "core"; createdAt := js "2026-01-01 00:00:00" |}.

Definition fts_finds_nothing : Statements :=
  {| searchMemoryFts := fun _ _ => Returned [];
     searchMemoryLike := fun _ _ _ => Returned [row1] |}.

End Db.

(** ** The session map and [cleanupPtySession] (main process)

    The supervisor's mutable state: the three module-level collections, the
    two database tables [cleanupPtySession] writes to ([continuation_state]
    by the ptyIds that have a row), the continuation engine, and the PTY
    handles whose [kill()] was called.  [log] records the statements of
    [cleanupPtySession] in the order they run. *)

Module Supervisor.

Record PtySession := {
  pty : nat;
  ptyId : string;
  workspaceId : string;
  workspacePath : string;
  cliType : Router.CLIType;
  sessionId : string;
  oneShotCommand : option string
}.

Inductive SessionStatus := active | ended.

(** A row of [agent_sessions]. *)
Record AgentSessionRow := {
  row_workspaceId : string;
  row_cliType : string;
  row_goal : option string;
  row_status : SessionStatus;
  iterationCount : Z;
  endedAt : option nat
}.

Inductive Effect :=
| Removed (ptyId : string)
| KillAttempted (pty : nat)
| SessionEnded (sessionId : string)
| CheckpointDeleted (ptyId : string)
| TimeoutCleared (t : nat)
| ContinuationStopped (ptyId : string).

Record State := {
  ptySessions : gmap string PtySession;
  idleNotifTimers : gmap string nat;
  pendingTimeouts : gset nat;
  sessionHadActivity : gset string;
  agent_sessions : gmap string AgentSessionRow;
  continuation_state : gset string;
  engine : Continuation.Engine;
  killed : gset nat;
  log : list Effect
}.

(** [UPDATE agent_sessions SET status = 'ended', ended_at = datetime('now')
    WHERE id = ?]. *)
Definition end_row (now : nat) (r : AgentSessionRow) : AgentSessionRow :=
  {| row_workspaceId := row_workspaceId r; row_cliType := row_cliType r;
     row_goal := row_goal r; row_status := ended;
     iterationCount := iterationCount r; endedAt := Some now |}.

Definition cleanupPtySession (pid : string) (now : nat) (s : State) : State :=
  match ptySessions s !! pid with
  | None => s
  | Some ptySession =>
      {| ptySessions := delete pid (ptySessions s);
         idleNotifTimers := delete pid (idleNotifTimers s);
         pendingTimeouts :=
           match idleNotifTimers s !! pid with
           | Some existingTimer => pendingTimeouts s ∖ {[existingTimer]}
           | None => pendingTimeouts s
           end;
         sessionHadActivity := sessionHadActivity s ∖ {[pid]};
         agent_sessions := alter (end_row now) (sessionId ptySession) (agent_sessions s);
         continuation_state := continuation_state s ∖ {[pid]};
         engine := Continuation.stopContinuation pid (engine s);
         killed := killed s ∪ {[pty ptySession]};
         log := log s ++
                [Removed pid; KillAttempted (pty ptySession);
                 SessionEnded (sessionId ptySession); CheckpointDeleted pid] ++
                match idleNotifTimers s !! pid with
                | Some existingTimer => [TimeoutCleared existingTimer]
                | None => []
                end ++
                [ContinuationStopped pid] |}
  end.

Inductive Reply :=
| Ok
| Error (message : string).

(** The [shell:kill] handler. *)
Definition shell_kill (ptyId : Number.JsValue) (now : nat) (s : State) : Reply * State :=
  match ptyId with
  | Number.JString pid => (Ok, cleanupPtySession pid now s)
  | _ => (Error "ptyId must be a string", s)
  end.

End Supervisor.

(** ** Hidden runs and synthesis (main process)

    A hidden run is a child process and four callbacks: the 10-minute
    watchdog and the handlers of the child's [data], [error] and [close]
    events.  The embedding is the state these callbacks share and a step per
    callback; the watchdog fires after every other event that reaches the
    run in time.  [sanitizeHiddenClaudeOutput], a text filter applied to what
    a child printed, is a parameter: nothing below depends on what it
    removes. *)

Module Synthesis.

Import Number.

Record HiddenOptions := {
  sessionId : option string;
  isolatedHomeDir : option string;
  noSessionPersistence : option bool
}.

Definition nonempty (s : string) : bool :=
  match s with
  | EmptyString => false
  | String _ _ => true
  end.

(** The [args] array of [runHiddenClaudeOnce]. *)
Definition hiddenArgs (options : option HiddenOptions) : list string :=
  ["-p"] ++
  match options with
  | Some o =>
      (match noSessionPersistence o with
       | Some true => ["--no-session-persistence"]
       | _ => []
       end) ++
      (match sessionId o with
       | Some sid => if nonempty sid then ["--session-id"; sid] else []
       | None => []
       end)
  | None => []
  end.

Record SpawnCall := {
  command : string;
  argv : list string;
  spawn_cwd : string;
  home : option string;
  stdio : list string
}.

Record Child := {
  call : SpawnCall;
  stdin_end : option jstring
}.

Inductive ChildEvent :=
| StdoutData (d : jstring)
| StderrData (d : jstring)
| ErrorEvent (message : jstring)
| CloseEvent (code : option Z) (signal : option string)
| TimeoutFires.

(** [watchdogMs] is the delay the watchdog was armed with, in
    milliseconds, if [setTimeout] was reached. *)
Record Run := {
  child : option Child;
  output : jstring;
  finished : bool;
  timeoutArmed : bool;
  watchdogMs : option Z;
  kills : nat;
  resolved : option jstring
}.

Definition WATCHDOG_MS : Z := 600000.

Definition decimal (z : Z) : jstring := js (NilZero.string_of_int (Z.to_int z)).

Fixpoint drop_spaces (s : jstring) : jstring :=
  match s with
  | [] => []
  | c :: s' => if is_space c then drop_spaces s' else s
  end.

(** [String.prototype.trim]. *)
Definition trim (s : jstring) : jstring :=
  rev (drop_spaces (rev (drop_spaces s))).

Definition is_empty (s : jstring) : bool :=
  match s with
  | [] => true
  | _ :: _ => false
  end.

(** [resolve(v)]: a promise keeps its first value. *)
Definition resolve (v : jstring) (r : Run) : Run :=
  {| child := child r; output := output r; finished := finished r;
     timeoutArmed := timeoutArmed r; watchdogMs := watchdogMs r; kills := kills r;
     resolved := match resolved r with
                 | Some v0 => Some v0
                 | None => Some v
                 end |}.

(** [finished = true], with [clearTimeout(timeout)] when [clear] is set and
    [child.kill()] when [kill] is set. *)
Definition finish (clear kill : bool) (r : Run) : Run :=
  {| child := child r; output := output r; finished := true;
     timeoutArmed := if clear then false else timeoutArmed r;
     watchdogMs := watchdogMs r;
     kills := if kill then S (kills r) else kills r;
     resolved := resolved r |}.

Definition append_output (d : jstring) (r : Run) : Run :=
  {| child := child r; output := output r ++ d; finished := finished r;
     timeoutArmed := timeoutArmed r; watchdogMs := watchdogMs r;
     kills := kills r; resolved := resolved r |}.

Definition disarm (r : Run) : Run :=
  {| child := child r; output := output r; finished := finished r;
     timeoutArmed := false; watchdogMs := watchdogMs r;
     kills := kills r; resolved := resolved r |}.

Section HiddenRun.

Variable sanitizeHiddenClaudeOutput : jstring -> jstring.

(** The synchronous part: build [args], spawn, write the prompt to stdin and
    close it, arm the watchdog.  [spawnError] is the message of what
    [spawnChild] threw, if it threw. *)
Definition start (goal : jstring) (cwd : string) (options : option HiddenOptions)
  (spawnError : option jstring) : Run :=
  match spawnError with
  | Some msg =>
      {| child := None; output := []; finished := false; timeoutArmed := false;
         watchdogMs := None; kills := 0;
         resolved := Some (js "(runner error: " ++ msg ++ js ")") |}
  | None =>
      {| child :=
           Some {| call := {| command := "claude";
                              argv := hiddenArgs options;
                              spawn_cwd := cwd;
                              home := match options with
                                      | Some o =>
                                          match isolatedHomeDir o with
                                          | Some d => if nonempty d then Some d else None
                                          | None => None
                                          end
                                      | None => None
                                      end;
                              stdio := ["pipe"; "pipe"; "pipe"] |};
                   stdin_end := Some goal |};
         output := []; finished := false; timeoutArmed := true;
         watchdogMs := Some WATCHDOG_MS; kills := 0;
         resolved := None |}
  end.

(** What the [close] handler resolves with. *)
Definition closeText (out : jstring) (code : option Z) (signal : option string)
  : jstring :=
  let trimmed := trim out in
  if negb (is_empty trimmed) then
    let cleaned := sanitizeHiddenClaudeOutput trimmed in
    if is_empty cleaned then js "(empty)" else cleaned
  else
    match signal with
    | Some sig =>
        if nonempty sig then js "(terminated: " ++ js sig ++ js ")"
        else match code with
             | Some 0%Z => js "(empty)"
             | Some c => js "(exit code " ++ decimal c ++ js ")"
             | None => js "(exit code unknown)"
             end
    | None =>
        match code with
        | Some 0%Z => js "(empty)"
        | Some c => js "(exit code " ++ decimal c ++ js ")"
        | None => js "(exit code unknown)"
        end
    end.

Definition onEvent (r : Run) (ev : ChildEvent) : Run :=
  match child r with
  | None => r
  | Some _ =>
      match ev with
      | StdoutData d | StderrData d => append_output d r
      | ErrorEvent message =>
          if finished r then r
          else resolve (js "(runner error: " ++ message ++ js ")") (finish true false r)
      | CloseEvent code signal =>
          if finished r then r
          else resolve (closeText (output r) code signal) (finish true false r)
      | TimeoutFires =>
          if timeoutArmed r then
            if finished r then disarm r
            else resolve (js "(timed out)") (disarm (finish false true r))
          else r
      end
  end.

(** A hidden run from its start to the expiry of the watchdog. *)
Definition runHiddenClaudeOnce (goal : jstring) (cwd : string)
  (options : option HiddenOptions) (spawnError : option jstring)
  (events : list ChildEvent) : Run :=
  fold_left onEvent (events ++ [TimeoutFires]) (start goal cwd options spawnError).

(** The value the promise of a run resolves with. *)
Definition text (r : Run) : jstring :=
  match resolved r with
  | Some v => v
  | None => []
  end.

(** *** The [ensemble:synthesis] handler *)

Inductive EnsembleEvent :=
| Progress (jobId workspaceId : string) (goal : jstring) (completed total : nat)
| Done (jobId workspaceId : string) (goal : jstring) (sessionId : string) (total : nat).

(** The run count as an array length. *)
Definition countOf (n : JsValue) : nat :=
  match Boundary.synthesisCount n with
  | Fin q => Z.to_nat (Qfloor q)
  | _ => 0
  end.

(** What [crypto.randomUUID()] returns: the text of a UUID, 36 characters
    long (8-4-4-4-12 hexadecimal digits and four hyphens). *)
Record UUID := {
  uuid_text : string;
  uuid_length : String.length uuid_text = 36
}.

(** What the environment decides during one job: the identifiers drawn, the
    temporary homes created, what each child did, the order in which the
    fan-out runs completed, and whether the window exists at each of the
    job's sends ([mainWindow] is read anew at every
    [mainWindow?.webContents.send]; the sends are numbered in program order:
    [completed] for a progress event, [total + 1] for the done event). *)
Record World := {
  jobId : string;
  randomUUID : UUID;
  homeDir : nat -> string;
  spawnErrors : nat -> option jstring;
  childEvents : nat -> list ChildEvent;
  completionOrder : list nat;
  finalSpawnError : option jstring;
  finalEvents : list ChildEvent;
  mainWindow : nat -> bool
}.

Record Job := {
  results : gmap nat jstring;
  completed : nat;
  events : list EnsembleEvent
}.

(** The number of the send that carries [ev]. *)
Definition send_index (ev : EnsembleEvent) : nat :=
  match ev with
  | Progress _ _ _ completed _ => completed
  | Done _ _ _ _ total => S total
  end.

(** [mainWindow?.webContents.send(...)]. *)
Definition send (w : World) (ev : EnsembleEvent) (j : Job) : Job :=
  {| results := results j; completed := completed j;
     events := if mainWindow w (send_index ev) then events j ++ [ev] else events j |}.

(** The events among [evs] at whose send the window exists. *)
Definition visible (w : World) (evs : list EnsembleEvent) : list EnsembleEvent :=
  List.filter (fun ev => mainWindow w (send_index ev)) evs.

Definition header (index count : nat) : jstring :=
  js "=== Claude " ++ decimal (Z.of_nat (index + 1)) ++ js "/" ++
  decimal (Z.of_nat count) ++ js " ===" ++ [LF].

Definition fanOutOptions (w : World) (index : nat) : option HiddenOptions :=
  Some {| sessionId := None;
          isolatedHomeDir := Some (homeDir w index);
          noSessionPersistence := Some true |}.

Definition fanOutRun (w : World) (goal : jstring) (workspacePath : string)
  (index : nat) : Run :=
  runHiddenClaudeOnce goal workspacePath (fanOutOptions w index)
    (spawnErrors w index) (childEvents w index).

(** The continuation of one fan-out run after its [await]. *)
Definition complete (w : World) (workspaceId : string) (goal : jstring)
  (workspacePath : string) (count : nat) (j : Job) (index : nat) : Job :=
  let t := text (fanOutRun w goal workspacePath index) in
  let j := {| results := <[index := header index count ++ t]> (results j);
              completed := S (completed j);
              events := events j |} in
  send w (Progress (jobId w) workspaceId goal (completed j) count) j.

(** [results.join('\n\n')] over an array of [count] slots. *)
Fixpoint join_results (slots : list (option jstring)) : jstring :=
  match slots with
  | [] => []
  | [s] => match s with Some x => x | None => [] end
  | s :: rest =>
      match s with Some x => x | None => [] end ++ [LF; LF] ++ join_results rest
  end.

Definition combined (count : nat) (j : Job) : jstring :=
  join_results (List.map (fun i => results j !! i) (seq 0 count)).

Definition synthPrompt (count : nat) (j : Job) : jstring :=
  js "You are a world-class synthesizer. Here are " ++ decimal (Z.of_nat count) ++
  js " independent answers to the same task:" ++ [LF; LF] ++
  combined count j ++ [LF; LF] ++
  js "Produce one final, concise, high-quality answer that is better than any individual response.".

Record Reply := {
  ok : bool;
  count : nat;
  reply_sessionId : string;
  reply_jobId : string
}.

Record Outcome := {
  reply : Reply;
  emitted : list EnsembleEvent;
  slots : gmap nat jstring;
  fanOut : list Run;
  final : Run
}.

Definition synthesis (w : World) (workspaceId workspacePath : string)
  (goal : jstring) (n : JsValue) : Outcome :=
  let count := countOf n in
  let j := send w (Progress (jobId w) workspaceId goal 0 count)
             {| results := ∅; completed := 0; events := [] |} in
  let j := fold_left (complete w workspaceId goal workspacePath count)
             (completionOrder w) j in
  let finalSessionId := uuid_text (randomUUID w) in
  let finalRun :=
    runHiddenClaudeOnce (synthPrompt count j) workspacePath
      (Some {| sessionId := Some finalSessionId; isolatedHomeDir := None;
               noSessionPersistence := None |})
      (finalSpawnError w) (finalEvents w) in
  let j := send w (Done (jobId w) workspaceId goal finalSessionId count) j in
  {| reply := {| ok := true; count := count; reply_sessionId := finalSessionId;
                 reply_jobId := jobId w |};
     emitted := events j;
     slots := results j;
     fanOut := List.map (fanOutRun w goal workspacePath) (seq 0 count);
     final := finalRun |}.

(** The [completed] values of the progress events, and the done events. *)
Definition progress_values (evs : list EnsembleEvent) : list nat :=
  flat_map (fun ev => match ev with
                      | Progress _ _ _ c _ => [c]
                      | Done _ _ _ _ _ => []
                      end) evs.

Definition done_events (evs : list EnsembleEvent) : list EnsembleEvent :=
  List.filter (fun ev => match ev with
                         | Done _ _ _ _ _ => true
                         | Progress _ _ _ _ _ => false
                         end) evs.

(** The child neither closed nor failed among [evs]. *)
Definition still_running (evs : list ChildEvent) : bool :=
  forallb (fun ev => match ev with
                     | StdoutData _ | StderrData _ => true
                     | _ => false
                     end) evs.

End HiddenRun.

(** Scenario F of the specification: two fan-out runs that print [A1] and
    [A2] and exit with code 0, the second completing first. *)
Definition scenario_F : World :=
  {| jobId := "J";
     randomUUID := {| uuid_text := "123e4567-e89b-42d3-a456-426614174000";
                      uuid_length := eq_refl |};
     homeDir := fun _ => "/tmp/forge-claude/home";
     spawnErrors := fun _ => None;
     childEvents := fun i =>
       [StdoutData (js "A" ++ decimal (Z.of_nat (i + 1))); CloseEvent (Some 0%Z) None];
     completionOrder := [1; 0];
     finalSpawnError := None;
     finalEvents := [StdoutData (js "final"); CloseEvent (Some 0%Z) None];
     mainWindow := fun _ => true |}.

(** A job of one run whose child has printed part of an answer and is still
    running when the watchdog fires. *)
Definition scenario_timeout : World :=
  {| jobId := "J";
     randomUUID := {| uuid_text := "123e4567-e89b-42d3-a456-426614174000";
                      uuid_length := eq_refl |};
     homeDir := fun _ => "/tmp/forge-claude/home";
     spawnErrors := fun _ => None;
     childEvents := fun _ => [StdoutData (js "thinking")];
     completionOrder := [0];
     finalSpawnError := None;
     finalEvents := [StdoutData (js "final"); CloseEvent (Some 0%Z) None];
     mainWindow := fun _ => true |}.

(** While the watchdog is armed the run is unfinished and unresolved, and
    once it is disarmed the run is resolved. *)
Definition run_ok (r : Run) : Prop :=
  (timeoutArmed r = true -> finished r = false /\ resolved r = None /\ child r <> None) /\
  (timeoutArmed r = false -> resolved r <> None).

End Synthesis.


(** ** Further invariants of the continuation engine

    Facts about the state objects themselves and about what an entry point
    leaves alone, used for the properties of the engine that are not about
    the order of its events. *)

Module ContinuationInv.

Import Js Continuation Number.

(** What the engine keeps true of every state object: the buffer holds at
    most [MAX_BUFFER_SIZE] code units, the quiet delay is at least 250 ms,
    and [max_reached] is only assigned at or above the cap. *)
Definition state_ok (st : ContinuationState) : Prop :=
  (Z.of_nat (List.length (outputBuffer st)) <= MAX_BUFFER_SIZE)%Z /\
  ge (quietDelayMs st) (of_Z 250) = true /\
  (status st = max_reached ->
   ge (of_nat (currentIteration st)) (maxIterations st) = true).

Definition heap_ok (h : gmap nat ContinuationState) : Prop :=
  forall o st, h !! o = Some st -> state_ok st.

(** [e'] differs from [e] at most in the state object [o] and in the events
    of [o]. *)
Definition only (o : nat) (e e' : Engine) : Prop :=
  forall o', o' <> o ->
    heap e' !! o' = heap e !! o' /\
    events_of o' (trace e') = events_of o' (trace e).

(** Every state object of [e] that has left [running] is the same in [e']
    and has the same events. *)
Definition frozen (e e' : Engine) : Prop :=
  forall o st, heap e !! o = Some st -> status st <> running ->
    heap e' !! o = Some st /\
    events_of o (trace e') = events_of o (trace e).

(** A run started by [continuation:start] with the cap 2.5 for an
    interactive session (no one-shot command, so no kick-off and the default
    quiet delay), after which the PTY shows an idle prompt four times and
    stays quiet each time. *)
Definition scenario_fractional_cap : list (Input * bool) :=
  let hks := {| onIteration := true; onDone := true; onMaxReached := true;
                onCancelled := false |} in
  let options := {| kickOff := Some false; opt_requirePrompt := None;
                    opt_quietDelayMs := None |} in
  [ (Start "p" "x" (Boundary.continuationMax (JNumber (Fin (5 # 2)))) hks options, false);
    (PtyData "p" (js "hello" ++ [10; 10095; 32]%N), false);
    (TimerFires 1, false);
    (PtyData "p" (js "still working" ++ [10; 10095; 32]%N), false);
    (TimerFires 3, false);
    (PtyData "p" [10095; 32]%N, false);
    (TimerFires 5, false);
    (PtyData "p" [10095; 32]%N, false);
    (TimerFires 7, false) ].

(** A running object is the one registered under its [ptyId]. *)
Definition registered_if_running (o : nat) (e : Engine) : Prop :=
  forall st, heap e !! o = Some st -> status st = running ->
    states e !! ptyId st = Some o.

End ContinuationInv.

(** ** Patterns under the [i] flag *)

Module RegexCase.

(** Every character test of the pattern gives the same answer on a code
    unit and on its canonical form: what the [i] flag makes of a pattern. *)
Fixpoint case_blind (r : regex) : Prop :=
  match r with
  | Chr p => forall c, p (upcase c) = p c
  | Seq r1 r2 | Alt r1 r2 => case_blind r1 /\ case_blind r2
  | Star r' => case_blind r'
  | Eps | Bol | Eol | WordB => True
  end.

End RegexCase.

(** ** Command lines ([electron/agents/router.ts]) *)

Module RouterCommands.

Import Router.

(** [process.platform]; [linux] stands for every value other than
    ['win32'] and ['darwin'], which the code treats alike. *)
Inductive Platform := win32 | darwin | linux.

Definition CR : N := 13.
Definition SPACE : N := 32.
Definition QUOTE : N := 39.
Definition DQUOTE : N := 34.

(** [raw.replace(/\r?\n/g, ' ')]: a line feed, with the carriage return
    before it if there is one, becomes a space; a carriage return that no
    line feed follows stays. *)
Fixpoint replace_newlines (s : jstring) : jstring :=
  match s with
  | [] => []
  | c :: s' =>
      if N.eqb c LF then SPACE :: replace_newlines s'
      else if N.eqb c CR then
        match s' with
        | d :: s'' =>
            if N.eqb d LF then SPACE :: replace_newlines s''
            else c :: replace_newlines s'
        | [] => [c]
        end
      else c :: replace_newlines s'
  end.

(** [input.replace(/'/g, by)]. *)
Definition replace_quotes (by_ : jstring) (input : jstring) : jstring :=
  flat_map (fun c => if N.eqb c QUOTE then by_ else [c]) input.

(** The code units of [s] other than the two quote characters, in order. *)
Definition without_quotes (s : jstring) : jstring :=
  List.filter (fun c => negb (N.eqb c QUOTE || N.eqb c DQUOTE)) s.

Definition quoteForCurrentShell (platform : Platform) (raw : jstring) : jstring :=
  let input := Synthesis.trim (replace_newlines raw) in
  match platform with
  | win32 => QUOTE :: replace_quotes [QUOTE; QUOTE] input ++ [QUOTE]
  | _ => QUOTE :: replace_quotes [QUOTE; DQUOTE; QUOTE; DQUOTE; QUOTE] input ++ [QUOTE]
  end.

Definition getOneShotCommand (platform : Platform) (cliType : CLIType) (goal : jstring)
  : jstring :=
  let quotedGoal := quoteForCurrentShell platform goal in
  match cliType with
  | claude => js "claude -p " ++ quotedGoal
  | gemini => js "gemini -p " ++ quotedGoal
  | codex => js "codex -p " ++ quotedGoal
  | copilot => js "copilot " ++ quotedGoal
  | qwen => js "qwen " ++ quotedGoal
  | llm => js "ollama run llama3 " ++ quotedGoal
  end.

Definition buildCliString (cliType : CLIType) : jstring :=
  match cliType with
  | claude => js "claude"
  | gemini => js "gemini"
  | codex => js "codex"
  | copilot => js "copilot"
  | qwen => js "qwen"
  | llm => js "ollama run llama3"
  end.

Record Command := { cmd : jstring; args : list jstring; cwd : string }.

Definition getCliCommand (platform : Platform) (cliType : CLIType) (workingDir : string)
  : Command :=
  let cliCmd := buildCliString cliType in
  match platform with
  | win32 => {| cmd := js "cmd.exe"; args := [js "/c"; cliCmd]; cwd := workingDir |}
  | darwin => {| cmd := js "zsh"; args := [js "-lic"; cliCmd]; cwd := workingDir |}
  | linux => {| cmd := js "bash"; args := [js "-lic"; cliCmd]; cwd := workingDir |}
  end.

End RouterCommands.

(** ** Spawning a session ([shell:spawn] in [electron/main.ts])

    The part of the handler that decides what to spawn and what to type,
    on arguments that passed the [assert...] checks: an absent optional
    argument ([undefined] or [null]) is [None]. *)

Module Spawn.

Import Router RouterCommands.

Definition ENTER_KEY : jstring := [CR].

(** [process.env.SHELL || (process.platform === 'darwin' ? '/bin/zsh' : '/bin/bash')]. *)
Definition shellPath (platform : Platform) (SHELL : option jstring) : jstring :=
  match SHELL with
  | Some (c :: s) => c :: s
  | _ => match platform with
         | darwin => js "/bin/zsh"
         | _ => js "/bin/bash"
         end
  end.

Definition getOneShotRunnerCommand (platform : Platform) (SHELL : option jstring)
  (workingDir : string) : Command :=
  match platform with
  | win32 =>
      {| cmd := js "powershell.exe";
         args := [js "-NoLogo"; js "-NoProfile"; js "-NonInteractive"; js "-Command"; js "-"];
         cwd := workingDir |}
  | _ => {| cmd := shellPath platform SHELL; args := [js "-s"]; cwd := workingDir |}
  end.

Definition getPersistentInteractiveShellCommand (platform : Platform)
  (SHELL : option jstring) (workingDir : string) : Command :=
  match platform with
  | win32 =>
      {| cmd := js "powershell.exe"; args := [js "-NoLogo"; js "-NoProfile"];
         cwd := workingDir |}
  | _ => {| cmd := shellPath platform SHELL; args := [js "-i"]; cwd := workingDir |}
  end.

Definition getClaudeResumeCommand (platform : Platform) (sessionId : jstring)
  (workingDir : string) : Command :=
  match platform with
  | win32 =>
      {| cmd := js "cmd.exe"; args := [js "/c"; js "claude"; js "--resume"; sessionId];
         cwd := workingDir |}
  | _ =>
      {| cmd := match platform with darwin => js "zsh" | _ => js "bash" end;
         args := [js "-lic"; js "claude --resume " ++ sessionId];
         cwd := workingDir |}
  end.

Definition is_claude (cliType : CLIType) : bool :=
  match cliType with
  | claude => true
  | _ => false
  end.

(** [Boolean(b)] of an optional boolean. *)
Definition Boolean (b : option bool) : bool :=
  match b with
  | Some true => true
  | _ => false
  end.

(** What the handler settles before and after [nodePty.spawn]: the mode
    flags, the command line of a one-shot session, what is spawned, and
    what is typed into the PTY 1500 ms after a spawn that succeeded (if
    anything). *)
Record SpawnPlan := {
  goalStr : option jstring;
  useShellSession : bool;
  useResumeSession : bool;
  useOneShotLoop : bool;
  oneShotCommand : option jstring;
  spawnSpec : Command;
  typedAfterStart : option jstring
}.

(** [(resumeSessionId as string).trim()] is evaluated only when
    [useResumeSession] holds, hence on a string. *)
Definition shell_spawn (platform : Platform) (SHELL : option jstring)
  (cliType : CLIType) (workspacePath : string) (goal : option jstring)
  (oneShotLoop shellSession : option bool) (resumeSessionId : option jstring)
  : SpawnPlan :=
  let goalStr :=
    match goal with
    | Some g => match Synthesis.trim g with
                | [] => None
                | t => Some t
                end
    | None => None
    end in
  let useShellSession := Boolean shellSession in
  let useResumeSession :=
    is_claude cliType &&
    match resumeSessionId with
    | Some r => negb (Synthesis.is_empty (Synthesis.trim r))
    | None => false
    end in
  let useOneShotLoop :=
    Boolean oneShotLoop &&
    match goalStr with Some _ => true | None => false end &&
    is_claude cliType in
  let oneShotCommand :=
    match useOneShotLoop, goalStr with
    | true, Some g =>
        Some (getOneShotCommand platform cliType g ++ js "; echo " ++
              js Continuation.ONE_SHOT_DONE_MARKER)
    | _, _ => None
    end in
  let spawnSpec :=
    if useOneShotLoop then getOneShotRunnerCommand platform SHELL workspacePath
    else if useShellSession
         then getPersistentInteractiveShellCommand platform SHELL workspacePath
    else if useResumeSession
         then getClaudeResumeCommand platform
                (Synthesis.trim (match resumeSessionId with Some r => r | None => [] end))
                workspacePath
    else getCliCommand platform cliType workspacePath in
  {| goalStr := goalStr;
     useShellSession := useShellSession;
     useResumeSession := useResumeSession;
     useOneShotLoop := useOneShotLoop;
     oneShotCommand := oneShotCommand;
     spawnSpec := spawnSpec;
     typedAfterStart :=
       match goalStr with
       | Some g =>
           if negb useOneShotLoop && negb useShellSession && negb useResumeSession
           then Some (g ++ ENTER_KEY) else None
       | None => None
       end |}.

End Spawn.

(** ** More of the main process: the remaining PTY handlers *)

Module Handlers.

Import Number Supervisor.

(** [shell:resize]: the call [pty.resize(cols, rows)] it makes, if any. *)
Definition shell_resize (ptyId cols rows : JsValue) (s : State)
  : option (nat * number * number) :=
  match ptyId, cols, rows with
  | JString pid, JNumber c, JNumber r =>
      if lt c (of_Z 1) || gt c (of_Z 500) || lt r (of_Z 1) || gt r (of_Z 200)
      then None
      else match ptySessions s !! pid with
           | Some session => Some (pty session, c, r)
           | None => None
           end
  | _, _, _ => None
  end.

(** The window's [closed] handler: [cleanupPtySession] for every key of
    [ptySessions], in the map's iteration order [order].  (The handler then
    sets [mainWindow] to [null], which is not part of [State].) *)
Definition window_closed (order : list string) (now : nat) (s : State) : State :=
  fold_left (fun s pid => cleanupPtySession pid now s) order s.

(** Nothing is left of the session [ps] that ran under [pid]. *)
Definition cleaned (pid : string) (ps : PtySession) (s : State) : Prop :=
  ptySessions s !! pid = None /\
  idleNotifTimers s !! pid = None /\
  (pid ∉ continuation_state s) /\
  (pid ∉ sessionHadActivity s) /\
  Continuation.getContinuationState pid (engine s) = None /\
  pty ps ∈ killed s /\
  (forall row, agent_sessions s !! sessionId ps = Some row -> row_status row = ended).

(** One live session with a running continuation, an idle timer and an
    active row. *)
Definition one_session : State :=
  {| ptySessions :=
       {[ "p" := {| pty := 4; ptyId := "p"; workspaceId := "w"; workspacePath := "/w";
                    cliType := Router.claude; sessionId := "sess"; oneShotCommand := None |} ]};
     idleNotifTimers := {[ "p" := 9 ]};
     pendingTimeouts := {[ 9 ]};
     sessionHadActivity := {[ "p" ]};
     agent_sessions :=
       {[ "sess" := {| row_workspaceId := "w"; row_cliType := "claude"; row_goal := None;
                       row_status := active; iterationCount := 0; endedAt := None |} ]};
     continuation_state := {[ "p" ]};
     engine := Continuation.run (firstn 2 Continuation.scenario_C);
     killed := ∅;
     log := [] |}.

End Handlers.

(** ** Hidden runs: what a run collected, and jobs that differ in timing *)

Module SynthesisRuns.

Import Synthesis.

(** The text of the [data] events, stdout and stderr interleaved as they
    arrived. *)
Definition collected (evs : list ChildEvent) : jstring :=
  flat_map (fun ev => match ev with
                      | StdoutData d | StderrData d => d
                      | _ => []
                      end) evs.

(** The same job with its fan-out runs completing in another order. *)
Definition with_order (order : list nat) (w : World) : World :=
  {| jobId := jobId w; randomUUID := randomUUID w; homeDir := homeDir w;
     spawnErrors := spawnErrors w; childEvents := childEvents w;
     completionOrder := order;
     finalSpawnError := finalSpawnError w; finalEvents := finalEvents w;
     mainWindow := mainWindow w |}.

(** The same job with or without a window. *)
Definition with_window (present : bool) (w : World) : World :=
  {| jobId := jobId w; randomUUID := randomUUID w; homeDir := homeDir w;
     spawnErrors := spawnErrors w; childEvents := childEvents w;
     completionOrder := completionOrder w;
     finalSpawnError := finalSpawnError w; finalEvents := finalEvents w;
     mainWindow := fun _ => present |}.

(** The same job with a window that is closed just before send number
    [k]. *)
Definition with_window_until (k : nat) (w : World) : World :=
  {| jobId := jobId w; randomUUID := randomUUID w; homeDir := homeDir w;
     spawnErrors := spawnErrors w; childEvents := childEvents w;
     completionOrder := completionOrder w;
     finalSpawnError := finalSpawnError w; finalEvents := finalEvents w;
     mainWindow := fun i => Nat.ltb i k |}.

End SynthesisRuns.

(** * Lemmas and theorems *)

(** ** Order of binary64 values *)

Section FloatOrderFacts.

Import FloatOrder.

Lemma lex3_Lt a b : lex3 a b = Lt <-> lex_lt a b.
Proof.
  unfold lex3, lex_lt.
  destruct (Z.compare_spec (fst (fst a)) (fst (fst b)));
  destruct (Z.compare_spec (snd (fst a)) (snd (fst b)));
  destruct (Z.compare_spec (snd a) (snd b)); split; intros; try discriminate; try lia; reflexivity.
Qed.

Lemma lex3_Eq a b : lex3 a b = Eq <-> a = b.
Proof.
  unfold lex3. destruct a as [[a1 a2] a3], b as [[b1 b2] b3]. simpl.
  destruct (Z.compare_spec a1 b1); destruct (Z.compare_spec a2 b2);
  destruct (Z.compare_spec a3 b3); split; intros E; try discriminate; try reflexivity;
  try (injection E; intros; lia); subst; reflexivity.
Qed.

Lemma SFcompare_key x y kx ky :
  key x = Some kx -> key y = Some ky -> SFcompare x y = Some (lex3 kx ky).
Proof.
  destruct x as [sx|[]| |[] mx ex]; destruct y as [sy|[]| |[] my ey]; simpl;
    intros Hx Hy; inversion Hx; inversion Hy; subst; clear Hx Hy;
    unfold lex3; simpl; try reflexivity.
  rewrite Z.compare_opp, (Z.compare_antisym ex ey).
  destruct (ex ?= ey)%Z; reflexivity.
Qed.

Lemma SFcompare_None x y : key x = None \/ key y = None -> SFcompare x y = None.
Proof. destruct x as [?|[]| |[] ? ?]; destruct y as [?|[]| |[] ? ?]; simpl; intros [H|H]; try discriminate; reflexivity. Qed.

Local Open Scope float_scope.

Lemma ltb_key a b :
  (a <? b) = true <->
  exists ka kb, key (Prim2SF a) = Some ka /\ key (Prim2SF b) = Some kb /\ lex_lt ka kb.
Proof.
  rewrite ltb_spec. unfold SFltb.
  destruct (key (Prim2SF a)) as [ka|] eqn:Ha; destruct (key (Prim2SF b)) as [kb|] eqn:Hb.
  - rewrite (SFcompare_key _ _ _ _ Ha Hb). split.
    + intros H. exists ka, kb. repeat split; auto. apply lex3_Lt. destruct (lex3 ka kb); congruence.
    + intros (ka' & kb' & E1 & E2 & H). inversion E1; inversion E2; subst.
      apply lex3_Lt in H. rewrite H. reflexivity.
  - rewrite SFcompare_None by auto. split; [discriminate|]. intros (?&?&?&?&?); discriminate.
  - rewrite SFcompare_None by auto. split; [discriminate|]. intros (?&?&?&?&?); discriminate.
  - rewrite SFcompare_None by auto. split; [discriminate|]. intros (?&?&?&?&?); discriminate.
Qed.

Lemma leb_key a b :
  (a <=? b) = true <->
  exists ka kb, key (Prim2SF a) = Some ka /\ key (Prim2SF b) = Some kb /\ (lex_lt ka kb \/ ka = kb).
Proof.
  rewrite leb_spec. unfold SFleb.
  destruct (key (Prim2SF a)) as [ka|] eqn:Ha; destruct (key (Prim2SF b)) as [kb|] eqn:Hb.
  - rewrite (SFcompare_key _ _ _ _ Ha Hb). split.
    + intros H. exists ka, kb. repeat split; auto.
      destruct (lex3 ka kb) eqn:E; try discriminate.
      * right. apply lex3_Eq; auto.
      * left. apply lex3_Lt; auto.
    + intros (ka' & kb' & E1 & E2 & H). inversion E1; inversion E2; subst.
      destruct H as [H|H].
      * apply lex3_Lt in H. rewrite H. reflexivity.
      * apply lex3_Eq in H. rewrite H. reflexivity.
  - rewrite SFcompare_None by auto. split; [discriminate|]. intros (?&?&?&?&?); discriminate.
  - rewrite SFcompare_None by auto. split; [discriminate|]. intros (?&?&?&?&?); discriminate.
  - rewrite SFcompare_None by auto. split; [discriminate|]. intros (?&?&?&?&?); discriminate.
Qed.

Lemma ltb_trans a b c : (a <? b) = true -> (b <? c) = true -> (a <? c) = true.
Proof.
  rewrite !ltb_key. intros (ka & kb & Ha & Hb & H1) (kb' & kc & Hb' & Hc & H2).
  rewrite Hb in Hb'. inversion Hb'; subst. exists ka, kc. repeat split; auto.
  unfold lex_lt in *. lia.
Qed.

Lemma ltb_leb_trans a b c : (a <? b) = true -> (b <=? c) = true -> (a <? c) = true.
Proof.
  rewrite leb_key, !ltb_key. intros (ka & kb & Ha & Hb & H1) (kb' & kc & Hb' & Hc & H2).
  rewrite Hb in Hb'. inversion Hb'; subst. exists ka, kc. repeat split; auto.
  destruct H2 as [H2 | ->]; auto. unfold lex_lt in *. lia.
Qed.

Lemma ltb_irrefl a : (a <? a) = false.
Proof.
  destruct (a <? a) eqn:E; auto. apply ltb_key in E.
  destruct E as (ka & kb & Ha & Hb & H). rewrite Ha in Hb. inversion Hb; subst.
  unfold lex_lt in H. lia.
Qed.

Lemma lex3_refl a : lex3 a a = Eq.
Proof. apply lex3_Eq. reflexivity. Qed.

Lemma is_nan_key a : is_nan a = false <-> key (Prim2SF a) <> None.
Proof.
  unfold is_nan. rewrite FloatAxioms.eqb_spec. unfold SFeqb.
  destruct (key (Prim2SF a)) as [k|] eqn:Hk.
  - rewrite (SFcompare_key _ _ _ _ Hk Hk), lex3_refl. simpl. split; [discriminate|reflexivity].
  - rewrite SFcompare_None by auto. simpl. split; [discriminate|congruence].
Qed.

Lemma lex_total a b : lex_lt a b \/ a = b \/ lex_lt b a.
Proof.
  destruct a as [[a1 a2] a3], b as [[b1 b2] b3]. unfold lex_lt. simpl.
  destruct (Z.lt_total a1 b1) as [H|[H|H]]; [left; lia| |right; right; lia].
  destruct (Z.lt_total a2 b2) as [H2|[H2|H2]]; [left; lia| |right; right; lia].
  destruct (Z.lt_total a3 b3) as [H3|[H3|H3]]; [left; lia| |right; right; lia].
  right. left. congruence.
Qed.

(** On values that are not NaN the order is total. *)
Lemma not_ltb_leb a b :
  is_nan a = false -> is_nan b = false -> (a <? b) = false -> (b <=? a) = true.
Proof.
  intros Ha Hb Hlt. apply is_nan_key in Ha, Hb.
  destruct (key (Prim2SF a)) as [ka|] eqn:Hka; [|congruence].
  destruct (key (Prim2SF b)) as [kb|] eqn:Hkb; [|congruence].
  apply leb_key. exists kb, ka. repeat split; try assumption.
  destruct (lex_total ka kb) as [H|[H|H]]; [|right; congruence|left; exact H].
  exfalso. assert (Ht : (a <? b) = true) by (apply ltb_key; exists ka, kb; auto). congruence.
Qed.

Lemma not_leb_ltb a b :
  is_nan a = false -> is_nan b = false -> (a <=? b) = false -> (b <? a) = true.
Proof.
  intros Ha Hb Hle. apply is_nan_key in Ha, Hb.
  destruct (key (Prim2SF a)) as [ka|] eqn:Hka; [|congruence].
  destruct (key (Prim2SF b)) as [kb|] eqn:Hkb; [|congruence].
  apply ltb_key. exists kb, ka. repeat split; try assumption.
  destruct (lex_total ka kb) as [H|[H|H]]; [| |exact H];
    exfalso; assert (Ht : (a <=? b) = true) by (apply leb_key; exists ka, kb; auto); congruence.
Qed.

End FloatOrderFacts.

(** ** The router *)

Section RouterFacts.

Import Router.
Local Open Scope float_scope.

Variable description : jstring.

Abbreviation mw := (matchedWeight description).
Abbreviation loop_inv := (loop_inv description).

Lemma score_fst_acc ks t m :
  fst (fold_left (scoreStep description) ks (t, m)) =
  fold_left (fun t k => t + weight k) ks t.
Proof.
  revert t m. induction ks as [|k ks IH]; intros t m; simpl; [reflexivity|].
  apply IH.
Qed.

Lemma score_total rule : fst (score description rule) = totalWeight rule.
Proof. apply score_fst_acc. Qed.

Lemma candidate_eq rule :
  candidate description rule =
  {| cli := rule_cli rule; category := rule_category rule;
     rationale := rule_rationale rule;
     confidence := Num.Math_min (mw rule / totalWeight rule) 1.0 |}.
Proof.
  unfold candidate, matchedWeight. rewrite <- score_total.
  destruct (score description rule); reflexivity.
Qed.

Lemma nth_error_snoc {A} (l : list A) (x : A) j y :
  nth_error (l ++ [x]) j = Some y ->
  nth_error l j = Some y \/ (j = List.length l /\ y = x).
Proof.
  intros H. destruct (Nat.lt_ge_cases j (List.length l)) as [Hlt|Hge].
  - rewrite nth_error_app1 in H by assumption. auto.
  - rewrite nth_error_app2 in H by assumption.
    destruct (j - List.length l)%nat as [|n] eqn:E; simpl in H.
    + right. split; [lia | congruence].
    + destruct n; discriminate.
Qed.

Lemma not_ltb_of_gt a b c :
  (a <? b) = true -> (a <? c) = false -> (b <? c) = false.
Proof.
  intros Hab Hac. destruct (b <? c) eqn:E; [|reflexivity].
  rewrite (ltb_trans _ _ _ Hab E) in Hac. discriminate.
Qed.

Lemma not_leb_of_gt a b c :
  (a <? b) = true -> (a <? c) = false -> (b <=? c) = false.
Proof.
  intros Hab Hac. destruct (b <=? c) eqn:E; [|reflexivity].
  rewrite (ltb_leb_trans _ _ _ Hab E) in Hac. discriminate.
Qed.

Lemma routeStep_inv rules acc rule :
  loop_inv rules acc -> loop_inv (rules ++ [rule]) (routeStep description acc rule).
Proof.
  intros Hinv. unfold routeStep. fold (mw rule).
  destruct (0 <? mw rule) eqn:Hpos.
  - destruct (snd acc <? mw rule) eqn:Hbest.
    + (* the rule becomes the best match *)
      unfold loop_inv; simpl.
      exists (List.length rules), rule.
      split; [rewrite nth_error_app2 by lia; rewrite Nat.sub_diag; reflexivity|].
      split; [reflexivity|]. split; [reflexivity|]. split; [assumption|].
      unfold loop_inv in Hinv. destruct (fst acc) as [c|].
      * destruct Hinv as (i & r & Hi & _ & Hs & _ & Hmax & _).
        rewrite Hs in Hbest. split.
        -- intros j r' Hj. apply nth_error_snoc in Hj as [Hj|[_ ->]].
           ++ eapply not_ltb_of_gt; eauto.
           ++ apply ltb_irrefl.
        -- intros j r' Hlt Hj. apply nth_error_snoc in Hj as [Hj|[-> _]]; [|lia].
           eapply not_leb_of_gt; eauto.
      * destruct Hinv as (Hs & Hnone). split.
        -- intros j r' Hj. apply nth_error_snoc in Hj as [Hj|[_ ->]].
           ++ eapply not_ltb_of_gt; [exact Hpos | eauto].
           ++ apply ltb_irrefl.
        -- intros j r' Hlt Hj. apply nth_error_snoc in Hj as [Hj|[-> _]]; [|lia].
           eapply not_leb_of_gt; [exact Hpos | eauto].
    + (* the best match stays *)
      unfold loop_inv in *. destruct (fst acc) as [c|].
      * destruct Hinv as (i & r & Hi & Hc & Hs & Hp & Hmax & Hfirst).
        exists i, r. rewrite Hs in Hbest.
        assert (Hlen : (i < List.length rules)%nat)
          by (apply nth_error_Some; congruence).
        split; [rewrite nth_error_app1 by assumption; assumption|].
        repeat (split; [assumption|]). split.
        -- intros j r' Hj. apply nth_error_snoc in Hj as [Hj|[_ ->]]; eauto.
        -- intros j r' Hlt Hj. apply nth_error_snoc in Hj as [Hj|[-> _]]; [eauto|lia].
      * destruct Hinv as (Hs & _). rewrite Hs in Hbest. congruence.
  - unfold loop_inv in *. destruct (fst acc) as [c|].
    + destruct Hinv as (i & r & Hi & Hc & Hs & Hp & Hmax & Hfirst).
      exists i, r.
      assert (Hlen : (i < List.length rules)%nat)
        by (apply nth_error_Some; congruence).
      split; [rewrite nth_error_app1 by assumption; assumption|].
      repeat (split; [assumption|]). split.
      * intros j r' Hj. apply nth_error_snoc in Hj as [Hj|[_ ->]]; [eauto|].
        destruct (mw r <? mw rule) eqn:E; [|reflexivity].
        rewrite (ltb_trans _ _ _ Hp E) in Hpos. discriminate.
      * intros j r' Hlt Hj. apply nth_error_snoc in Hj as [Hj|[-> _]]; [eauto|lia].
    + destruct Hinv as (Hs & Hnone). split; [assumption|].
      intros j r' Hj. apply nth_error_snoc in Hj as [Hj|[_ ->]]; eauto.
Qed.

Lemma routeLoop_inv rules : loop_inv rules (routeLoop description rules).
Proof.
  unfold routeLoop. induction rules as [|rule rules IH] using rev_ind.
  - simpl. split; [reflexivity|]. intros [|j] r H; discriminate.
  - rewrite fold_left_app. simpl. apply routeStep_inv, IH.
Qed.

End RouterFacts.

Section RouterClaim.

Import Router.
Local Open Scope float_scope.

(** No matched weight is NaN: checked on every combination of matches. *)
Lemma bit_vectors_complete (bits : list bool) :
  In bits (bit_vectors (List.length bits)).
Proof.
  induction bits as [|b bits IH]; simpl; [left; reflexivity|].
  apply in_or_app. destruct b; [left|right]; apply in_map; exact IH.
Qed.

Lemma score_as_bits d ks : forall t m,
  snd (fold_left (scoreStep d) ks (t, m)) =
  matched_of_bits ks (List.map (fun k => test (pattern k) d) ks) m.
Proof.
  induction ks as [|k ks IH]; intros t m; simpl; [reflexivity|].
  unfold scoreStep at 2. simpl. rewrite IH. reflexivity.
Qed.

Lemma matched_weights_not_nan :
  forallb (fun r =>
    forallb (fun bits => negb (is_nan (matched_of_bits (keywords r) bits 0)))
            (bit_vectors (List.length (keywords r)))) RULES = true.
Proof. vm_compute. reflexivity. Qed.

Lemma matchedWeight_not_nan d r :
  In r RULES -> is_nan (matchedWeight d r) = false.
Proof.
  intros Hr. pose proof matched_weights_not_nan as H.
  rewrite forallb_forall in H. specialize (H r Hr).
  rewrite forallb_forall in H.
  unfold matchedWeight, score. rewrite score_as_bits.
  specialize (H (List.map (fun k => test (pattern k) d) (keywords r))).
  apply negb_true_iff. apply H.
  rewrite <- (List.length_map (fun k => test (pattern k) d) (keywords r)) at 1.
  apply bit_vectors_complete.
Qed.

(** C5. With no preferred CLI, [routeTask] answers with the rule of greatest
    matched weight, the earliest one when several share it (the default
    route when no rule matches at all), and its confidence is the matched
    weight divided by the sum of the rule's weights, capped at 1.0.  On
    "design the card layout" the visual rule matches [design] (0.4) and
    [layout] (0.9), every other rule matches nothing, and the answer is
    gemini / visual. *)
Theorem routeTask_picks_heaviest_rule :
  (forall description : jstring,
     let mw := matchedWeight description in
     (routeTask description None = defaultRoute /\
      forall j r, nth_error RULES j = Some r -> (0 <? mw r) = false)
     \/
     (exists i r,
        nth_error RULES i = Some r /\
        (0 <? mw r) = true /\
        (forall j r', nth_error RULES j = Some r' -> (mw r' <=? mw r) = true) /\
        (forall j r', (j < i)%nat -> nth_error RULES j = Some r' ->
                      (mw r' <? mw r) = true) /\
        routeTask description None =
          {| cli := rule_cli r; category := rule_category r;
             rationale := rule_rationale r;
             confidence := Num.Math_min (mw r / totalWeight r) 1.0 |}))
  /\
  (let d := js "design the card layout" in
   cli (routeTask d None) = gemini /\
   category (routeTask d None) = visual /\
   exists r, nth_error RULES 1 = Some r /\
     rule_category r = visual /\
     matchedWeight d r = 0.4 + 0.9 /\
     forall j r', j <> 1%nat -> nth_error RULES j = Some r' ->
                  matchedWeight d r' = 0 /\ (matchedWeight d r' <? matchedWeight d r) = true).
Proof.
  split.
  - intros description mw. unfold routeTask.
    pose proof (routeLoop_inv description RULES) as Hinv.
    unfold Router.loop_inv in Hinv. fold mw in Hinv.
    destruct (fst (routeLoop description RULES)) as [c|].
    + right. destruct Hinv as (i & r & Hi & Hc & _ & Hp & Hmax & Hfirst).
      exists i, r. split; [assumption|]. split; [assumption|].
      assert (Hr : is_nan (mw r) = false)
        by (apply matchedWeight_not_nan; eapply nth_error_In; eassumption).
      split; [|split].
      * intros j r' Hj. apply not_ltb_leb; [assumption| |eauto].
        apply matchedWeight_not_nan. eapply nth_error_In; eassumption.
      * intros j r' Hlt Hj. apply not_leb_ltb; [assumption| |eauto].
        apply matchedWeight_not_nan. eapply nth_error_In; eassumption.
      * rewrite Hc. apply candidate_eq.
    + left. destruct Hinv as (_ & Hnone). split; [reflexivity | assumption].
  - cbv zeta. split; [vm_compute; reflexivity|]. split; [vm_compute; reflexivity|].
    eexists. split; [reflexivity|]. split; [reflexivity|]. split; [vm_compute; reflexivity|].
    intros j r' Hj Hr.
    do 8 (destruct j as [|j]; [first [congruence | injection Hr as <-; split; vm_compute; reflexivity]|]).
    destruct j; discriminate.
Qed.

End RouterClaim.

(** ** The continuation engine: reachable states *)

Section ContinuationFacts.

Import Continuation Number.

Lemma events_of_app o a b :
  events_of o (a ++ b) = events_of o a ++ events_of o b.
Proof. unfold events_of. rewrite List.filter_app, List.map_app. reflexivity. Qed.

Lemma events_of_own o evs :
  events_of o (List.map (pair o) evs) = evs.
Proof.
  unfold events_of. induction evs as [|ev evs IH]; simpl; [reflexivity|].
  rewrite Nat.eqb_refl. simpl. f_equal. exact IH.
Qed.

Lemma events_of_other o o' evs :
  o <> o' -> events_of o' (List.map (pair o) evs) = [].
Proof.
  intros Hne. unfold events_of. induction evs as [|ev evs IH]; simpl; [reflexivity|].
  destruct (Nat.eqb_spec o o'); [contradiction|]. exact IH.
Qed.

Lemma events_of_fresh o tr :
  (forall ev, ~ In (o, ev) tr) -> events_of o tr = [].
Proof.
  unfold events_of. induction tr as [|[o' ev] tr IH]; simpl; intros H; [reflexivity|].
  destruct (Nat.eqb_spec o' o) as [->|Hne].
  - exfalso. apply (H ev). left. reflexivity.
  - apply IH. intros ev' Hin. apply (H ev'). right. exact Hin.
Qed.

Lemma blocks_S st k : blocks st (S k) = blocks st k ++ block st (S k).
Proof.
  unfold blocks. rewrite seq_S, flat_map_app. simpl. rewrite app_nil_r. reflexivity.
Qed.

Lemma same_core_shape a b :
  same_core a b ->
  blocks a (currentIteration a) ++ ending a = blocks b (currentIteration b) ++ ending b.
Proof.
  intros (Hp & Hg & Hm & Hc & Hs & Hh & _).
  unfold blocks, block, ending. rewrite Hp, Hg, Hm, Hc, Hs, Hh. reflexivity.
Qed.

Lemma same_core_cap a b : same_core a b -> within_cap a -> within_cap b.
Proof.
  intros (_ & _ & Hm & Hc & _). unfold within_cap. rewrite Hm, Hc. auto.
Qed.

(** A change of one object's [timer] and [outputBuffer] fields, together with
    a change of the pending timeouts that keeps them in step. *)
Lemma wf_core_update e e' o st st' :
  wf e ->
  heap e !! o = Some st ->
  same_core st st' ->
  heap e' = <[o := st']> (heap e) ->
  states e' = states e ->
  trace e' = trace e ->
  next_obj e' = next_obj e ->
  next_timer e <= next_timer e' ->
  (forall t x, timers e' !! t = Some x ->
     (timers e !! t = Some x /\ fst x <> o) \/
     (x = (o, quietDelayMs st') /\ timer st' = Some t /\ status st' = running)) ->
  (forall t, timers e' !! t <> None -> t < next_timer e') ->
  (forall t, timer st' = Some t -> t < next_timer e') ->
  wf e'.
Proof.
  intros W Ho Hcore Hheap Hstates Htrace Hnobj Hnt Htimers Hhandles Hfield.
  pose proof Hcore as (Hp & Hg & Hm & Hc & Hs & Hh & Hq & Hr).
  split.
  - intros pid o' Hreg. rewrite Hstates in Hreg.
    destruct (wf_registered e W pid o' Hreg) as (s & Hs1 & Hs2 & Hs3).
    rewrite Hheap. destruct (decide (o = o')) as [<-|Hne].
    + rewrite lookup_insert_eq. exists st'. rewrite Ho in Hs1. inversion Hs1; subst s.
      repeat split; congruence.
    + rewrite lookup_insert_ne by assumption. eauto.
  - intros o' s Hl Hrun. rewrite Hheap in Hl. rewrite Hstates.
    destruct (decide (o = o')) as [<-|Hne].
    + rewrite lookup_insert_eq in Hl. inversion Hl; subst s.
      rewrite <- Hp. apply (wf_running e W); [assumption | congruence].
    + rewrite lookup_insert_ne in Hl by assumption. apply (wf_running e W); assumption.
  - intros o' s Hl. rewrite Hheap in Hl. rewrite Hnobj.
    destruct (decide (o = o')) as [<-|Hne].
    + eapply (wf_alloc e W); eauto.
    + rewrite lookup_insert_ne in Hl by assumption. eapply (wf_alloc e W); eauto.
  - intros o' ev Hin. rewrite Htrace in Hin. rewrite Hnobj. eapply (wf_trace e W); eauto.
  - intros o' s Hl. rewrite Hheap in Hl. rewrite Htrace.
    destruct (decide (o = o')) as [<-|Hne].
    + rewrite lookup_insert_eq in Hl. inversion Hl; subst s.
      rewrite <- (same_core_shape _ _ Hcore). apply (wf_shape e W); assumption.
    + rewrite lookup_insert_ne in Hl by assumption. apply (wf_shape e W); assumption.
  - intros o' s Hl. rewrite Hheap in Hl.
    destruct (decide (o = o')) as [<-|Hne].
    + rewrite lookup_insert_eq in Hl. inversion Hl; subst s.
      eapply same_core_cap; [eassumption|]. eapply (wf_cap e W); eauto.
    + rewrite lookup_insert_ne in Hl by assumption. eapply (wf_cap e W); eauto.
  - intros t o' d Ht. rewrite Hheap.
    destruct (Htimers t _ Ht) as [[Hold Hne]|(Hx & Htf & Hrun)].
    + simpl in Hne. rewrite lookup_insert_ne by congruence.
      apply (wf_timers e W); assumption.
    + inversion Hx; subst. rewrite lookup_insert_eq. exists st'. auto.
  - intros t x Ht. apply Hhandles. congruence.
  - intros o' s t Hl Ht. rewrite Hheap in Hl.
    destruct (decide (o = o')) as [<-|Hne].
    + rewrite lookup_insert_eq in Hl. inversion Hl; subst s. auto.
    + rewrite lookup_insert_ne in Hl by assumption.
      pose proof (wf_handle_fields e W _ _ _ Hl Ht). lia.
Qed.

Lemma alter_as_insert {A} (m : gmap nat A) (f : A -> A) o x :
  m !! o = Some x -> alter f o m = <[o := f x]> m.
Proof.
  intros H. apply map_eq. intros i. rewrite lookup_alter, lookup_insert.
  destruct (decide (o = i)) as [<-|Hne]; [rewrite H; reflexivity | reflexivity].
Qed.

Lemma same_core_refl st : same_core st st.
Proof. repeat split. Qed.

Lemma wf_set_buffer e o st b :
  wf e -> heap e !! o = Some st -> wf (update o (set_outputBuffer b) e).
Proof.
  intros W Ho.
  apply (wf_core_update e _ o st (set_outputBuffer b st) W Ho); simpl;
    try reflexivity; try lia.
  - repeat split.
  - apply alter_as_insert; assumption.
  - intros t [o' d] Ht. destruct (decide (o' = o)) as [->|Hne].
    + right. destruct (wf_timers e W _ _ _ Ht) as (s & Hs & Hrun & Htf & Hd).
      rewrite Ho in Hs. inversion Hs; subst s. simpl. repeat split; congruence.
    + left. split; [assumption | exact Hne].
  - intros t Ht. destruct (timers e !! t) as [x|] eqn:E; [|congruence].
    eapply (wf_handles e W); eauto.
  - intros t Ht. eapply (wf_handle_fields e W); eauto.
Qed.

Lemma wf_clear e o st t :
  wf e -> heap e !! o = Some st -> timer st = Some t ->
  wf (update o (set_timer None) (clearTimeout t e)).
Proof.
  intros W Ho Htf.
  apply (wf_core_update e _ o st (set_timer None st) W Ho); simpl;
    try reflexivity; try lia.
  - repeat split.
  - apply alter_as_insert; assumption.
  - intros t' [o' d] Ht. left.
    destruct (decide (t = t')) as [<-|Hne]; [rewrite lookup_delete_eq in Ht; discriminate|].
    rewrite lookup_delete_ne in Ht by assumption. split; [assumption|]. simpl.
    intros ->. destruct (wf_timers e W _ _ _ Ht) as (s & Hs & _ & Htf' & _).
    rewrite Ho in Hs. inversion Hs; subst s. congruence.
  - intros t' Ht. destruct (decide (t = t')) as [<-|Hne];
      [rewrite lookup_delete_eq in Ht; congruence|].
    rewrite lookup_delete_ne in Ht by assumption.
    destruct (timers e !! t') as [x|] eqn:E; [|congruence].
    eapply (wf_handles e W); eauto.
  - discriminate.
Qed.

Lemma wf_scheduleCheck e o st :
  wf e -> heap e !! o = Some st -> timer st = None -> wf (scheduleCheck o e).
Proof.
  intros W Ho Htf. unfold scheduleCheck. rewrite Ho.
  destruct (status st) eqn:Hst; try assumption.
  apply (wf_core_update e _ o st (set_timer (Some (next_timer e)) st) W Ho); simpl;
    try reflexivity; try lia.
  - repeat split.
  - apply alter_as_insert; assumption.
  - intros t [o' d] Ht.
    destruct (decide (next_timer e = t)) as [<-|Hne].
    + rewrite lookup_insert_eq in Ht. inversion Ht; subst. right. auto.
    + rewrite lookup_insert_ne in Ht by assumption. left. split; [assumption|]. simpl.
      intros ->. destruct (wf_timers e W _ _ _ Ht) as (s & Hs & _ & Htf' & _).
      rewrite Ho in Hs. inversion Hs; subst s. congruence.
  - intros t Ht. destruct (decide (next_timer e = t)) as [<-|Hne]; [lia|].
    rewrite lookup_insert_ne in Ht by assumption.
    destruct (timers e !! t) as [x|] eqn:E; [|congruence].
    pose proof (wf_handles e W _ _ E). lia.
  - intros t Ht. inversion Ht. lia.
Qed.

Lemma in_trace_app (o : nat) (ev : Event) tr (o' : nat) (evs : list Event) :
  In (o, ev) (tr ++ List.map (pair o') evs) -> In (o, ev) tr \/ o = o'.
Proof.
  intros H. apply in_app_or in H as [H|H]; [left; exact H|].
  right. apply in_map_iff in H as (x & Hx & _). congruence.
Qed.

(** A running object reaches a terminal status. *)
Lemma wf_finish e e' o st s :
  wf e ->
  heap e !! o = Some st ->
  status st = running ->
  s = done \/ s = max_reached \/ s = cancelled ->
  heap e' = <[o := set_status s st]> (heap e) ->
  states e' = delete (ptyId st) (states e) ->
  trace e' = trace e ++ List.map (pair o) (ending (set_status s st)) ->
  next_obj e' = next_obj e ->
  next_timer e' = next_timer e ->
  (forall t x, timers e' !! t = Some x -> timers e !! t = Some x /\ fst x <> o) ->
  wf e'.
Proof.
  intros W Ho Hrun Hs Hheap Hstates Htrace Hnobj Hnt Htimers.
  pose proof (wf_running e W _ _ Ho Hrun) as Hreg.
  split.
  - intros pid o' Hl. rewrite Hstates in Hl.
    destruct (decide (ptyId st = pid)) as [<-|Hne];
      [rewrite lookup_delete_eq in Hl; discriminate|].
    rewrite lookup_delete_ne in Hl by assumption.
    destruct (wf_registered e W _ _ Hl) as (s' & Hs' & Hrun' & Hp').
    exists s'. rewrite Hheap, lookup_insert_ne; [auto|].
    intros <-. rewrite Ho in Hs'. inversion Hs'; subst s'. congruence.
  - intros o' s' Hl Hrun'. rewrite Hheap in Hl. rewrite Hstates.
    destruct (decide (o = o')) as [<-|Hne].
    + rewrite lookup_insert_eq in Hl. inversion Hl; subst s'. simpl in Hrun'.
      destruct Hs as [->|[->| ->]]; discriminate.
    + rewrite lookup_insert_ne in Hl by assumption.
      pose proof (wf_running e W _ _ Hl Hrun') as Hreg'.
      rewrite lookup_delete_ne; [assumption|].
      intros Heq. rewrite Heq in Hreg. congruence.
  - intros o' s' Hl. rewrite Hheap in Hl. rewrite Hnobj.
    destruct (decide (o = o')) as [<-|Hne].
    + eapply (wf_alloc e W); eauto.
    + rewrite lookup_insert_ne in Hl by assumption. eapply (wf_alloc e W); eauto.
  - intros o' ev Hin. rewrite Htrace in Hin. rewrite Hnobj.
    apply in_trace_app in Hin as [Hin| ->].
    + eapply (wf_trace e W); eauto.
    + eapply (wf_alloc e W); eauto.
  - intros o' s' Hl. rewrite Hheap in Hl. rewrite Htrace, events_of_app.
    destruct (decide (o = o')) as [<-|Hne].
    + rewrite lookup_insert_eq in Hl. inversion Hl; subst s'.
      rewrite events_of_own, (wf_shape e W _ _ Ho).
      unfold ending at 1. rewrite Hrun, app_nil_r. reflexivity.
    + rewrite lookup_insert_ne in Hl by assumption.
      rewrite events_of_other by assumption. rewrite app_nil_r.
      apply (wf_shape e W); assumption.
  - intros o' s' Hl. rewrite Hheap in Hl.
    destruct (decide (o = o')) as [<-|Hne].
    + rewrite lookup_insert_eq in Hl. inversion Hl; subst s'.
      exact (wf_cap e W _ _ Ho).
    + rewrite lookup_insert_ne in Hl by assumption. eapply (wf_cap e W); eauto.
  - intros t o' d Ht. destruct (Htimers _ _ Ht) as [Hold Hne]. simpl in Hne.
    rewrite Hheap, lookup_insert_ne by congruence. apply (wf_timers e W); assumption.
  - intros t x Ht. rewrite Hnt. destruct (Htimers _ _ Ht) as [Hold _].
    eapply (wf_handles e W); eauto.
  - intros o' s' t Hl Ht. rewrite Hheap in Hl. rewrite Hnt.
    destruct (decide (o = o')) as [<-|Hne].
    + rewrite lookup_insert_eq in Hl. inversion Hl; subst s'. simpl in Ht.
      eapply (wf_handle_fields e W); eauto.
    + rewrite lookup_insert_ne in Hl by assumption.
      eapply (wf_handle_fields e W); eauto.
Qed.

(** A running object below the cap starts its next iteration. *)
Lemma wf_iterate e e' o st :
  wf e ->
  heap e !! o = Some st ->
  status st = running ->
  ge (of_nat (currentIteration st)) (maxIterations st) = false ->
  let st' := set_outputBuffer [] (set_currentIteration (S (currentIteration st)) st) in
  heap e' = <[o := st']> (heap e) ->
  states e' = states e ->
  timers e' = timers e ->
  trace e' = trace e ++ List.map (pair o) (block st (S (currentIteration st))) ->
  next_obj e' = next_obj e ->
  next_timer e' = next_timer e ->
  wf e'.
Proof.
  intros W Ho Hrun Hcap st' Hheap Hstates Htimers Htrace Hnobj Hnt.
  split.
  - intros pid o' Hl. rewrite Hstates in Hl.
    destruct (wf_registered e W _ _ Hl) as (s' & Hs' & Hrun' & Hp').
    rewrite Hheap. destruct (decide (o = o')) as [<-|Hne].
    + rewrite lookup_insert_eq. exists st'. rewrite Ho in Hs'. inversion Hs'; subst s'.
      auto.
    + rewrite lookup_insert_ne by assumption. eauto.
  - intros o' s' Hl Hrun'. rewrite Hheap in Hl. rewrite Hstates.
    destruct (decide (o = o')) as [<-|Hne].
    + rewrite lookup_insert_eq in Hl. inversion Hl; subst s'.
      apply (wf_running e W _ _ Ho Hrun).
    + rewrite lookup_insert_ne in Hl by assumption. apply (wf_running e W); assumption.
  - intros o' s' Hl. rewrite Hheap in Hl. rewrite Hnobj.
    destruct (decide (o = o')) as [<-|Hne].
    + eapply (wf_alloc e W); eauto.
    + rewrite lookup_insert_ne in Hl by assumption. eapply (wf_alloc e W); eauto.
  - intros o' ev Hin. rewrite Htrace in Hin. rewrite Hnobj.
    apply in_trace_app in Hin as [Hin| ->].
    + eapply (wf_trace e W); eauto.
    + eapply (wf_alloc e W); eauto.
  - intros o' s' Hl. rewrite Hheap in Hl. rewrite Htrace, events_of_app.
    destruct (decide (o = o')) as [<-|Hne].
    + rewrite lookup_insert_eq in Hl. inversion Hl; subst s'.
      rewrite events_of_own, (wf_shape e W _ _ Ho).
      unfold ending. simpl. rewrite Hrun, !app_nil_r.
      change (blocks st' (S (currentIteration st)))
        with (blocks st (S (currentIteration st))).
      rewrite blocks_S. reflexivity.
    + rewrite lookup_insert_ne in Hl by assumption.
      rewrite events_of_other by assumption. rewrite app_nil_r.
      apply (wf_shape e W); assumption.
  - intros o' s' Hl. rewrite Hheap in Hl.
    destruct (decide (o = o')) as [<-|Hne].
    + rewrite lookup_insert_eq in Hl. inversion Hl; subst s'. exact Hcap.
    + rewrite lookup_insert_ne in Hl by assumption. eapply (wf_cap e W); eauto.
  - intros t o' d Ht. rewrite Htimers in Ht.
    destruct (wf_timers e W _ _ _ Ht) as (s' & Hs' & Hrun' & Htf & Hd).
    rewrite Hheap. destruct (decide (o = o')) as [<-|Hne].
    + rewrite lookup_insert_eq. exists st'. rewrite Ho in Hs'. inversion Hs'; subst s'.
      auto.
    + rewrite lookup_insert_ne by assumption. eauto.
  - intros t x Ht. rewrite Htimers in Ht. rewrite Hnt. eapply (wf_handles e W); eauto.
  - intros o' s' t Hl Ht. rewrite Hheap in Hl. rewrite Hnt.
    destruct (decide (o = o')) as [<-|Hne].
    + rewrite lookup_insert_eq in Hl. inversion Hl; subst s'. simpl in Ht.
      eapply (wf_handle_fields e W); eauto.
    + rewrite lookup_insert_ne in Hl by assumption.
      eapply (wf_handle_fields e W); eauto.
Qed.

Lemma wf_stopContinuation e pid : wf e -> wf (stopContinuation pid e).
Proof.
  intros W. unfold stopContinuation.
  destruct (states e !! pid) as [o|] eqn:Hreg; [|assumption].
  destruct (wf_registered e W _ _ Hreg) as (st & Ho & Hrun & Hp).
  rewrite Ho.
  apply (wf_finish e _ o st cancelled W Ho Hrun); auto.
  - simpl. destruct (timer st); destruct (onCancelled (hooks st)); simpl;
      apply alter_as_insert; assumption.
  - simpl. rewrite Hp.
    destruct (timer st); destruct (onCancelled (hooks st)); reflexivity.
  - unfold ending. simpl. rewrite Hp.
    destruct (timer st); destruct (onCancelled (hooks st)); simpl;
      rewrite <- ?app_assoc; reflexivity.
  - destruct (timer st); destruct (onCancelled (hooks st)); reflexivity.
  - destruct (timer st); destruct (onCancelled (hooks st)); reflexivity.
  - intros t [o' d] Ht.
    assert (Hin : timers e !! t = Some (o', d) /\ timer st <> Some t).
    { destruct (timer st) as [t0|] eqn:Htf; destruct (onCancelled (hooks st));
        simpl in Ht;
        try (destruct (decide (t0 = t)) as [<-|Hne];
             [rewrite lookup_delete_eq in Ht; discriminate
             |rewrite lookup_delete_ne in Ht by assumption; split; [assumption|congruence]]);
        split; [assumption|discriminate|assumption|discriminate]. }
    destruct Hin as [Hin Hnt]. split; [assumption|]. simpl. intros ->.
    destruct (wf_timers e W _ _ _ Hin) as (s' & Hs' & _ & Htf' & _).
    rewrite Ho in Hs'. inversion Hs'; subst s'. contradiction.
Qed.

Lemma stopContinuation_unregisters e pid :
  wf e -> states (stopContinuation pid e) !! pid = None.
Proof.
  intros W. unfold stopContinuation.
  destruct (states e !! pid) as [o|] eqn:Hreg; [|assumption].
  destruct (wf_registered e W _ _ Hreg) as (st & Ho & _). rewrite Ho.
  destruct (timer st); destruct (onCancelled (hooks st)); simpl;
    apply lookup_delete_eq.
Qed.

Lemma wf_runIteration e o st destroyed :
  wf e -> heap e !! o = Some st -> timer st = None ->
  wf (runIteration o destroyed e).
Proof.
  intros W Ho Htf. unfold runIteration. rewrite Ho.
  destruct (status st) eqn:Hrun; try assumption.
  destruct destroyed; [apply wf_stopContinuation; assumption|].
  destruct (ge (of_nat (currentIteration st)) (maxIterations st)) eqn:Hcap.
  - apply (wf_finish e _ o st max_reached W Ho Hrun); auto.
    + destruct (onMaxReached (hooks st)); simpl; apply alter_as_insert; assumption.
    + destruct (onMaxReached (hooks st)); reflexivity.
    + unfold ending. simpl.
      destruct (onMaxReached (hooks st)); simpl; rewrite <- ?app_assoc; reflexivity.
    + destruct (onMaxReached (hooks st)); reflexivity.
    + destruct (onMaxReached (hooks st)); reflexivity.
    + intros t [o' d] Ht.
      assert (Hin : timers e !! t = Some (o', d))
        by (destruct (onMaxReached (hooks st)); exact Ht).
      split; [assumption|]. simpl. intros ->.
      destruct (wf_timers e W _ _ _ Hin) as (s' & Hs' & _ & Htf' & _).
      rewrite Ho in Hs'. inversion Hs'; subst s'. congruence.
  - set (st' := set_outputBuffer [] (set_currentIteration (S (currentIteration st)) st)).
    match goal with |- wf (scheduleCheck o ?x) => set (e5 := x) end.
    assert (Hheap : heap e5 = <[o := st']> (heap e)).
    { subst e5. destruct (onIteration (hooks st)); simpl;
        rewrite (alter_as_insert (heap e) _ o st Ho);
        rewrite (alter_as_insert _ _ o (set_currentIteration (S (currentIteration st)) st))
          by apply lookup_insert_eq;
        apply insert_insert_eq. }
    assert (W5 : wf e5).
    { apply (wf_iterate e e5 o st W Ho Hrun Hcap); try assumption;
        subst e5; unfold block, opt_ev; destruct (onIteration (hooks st)); simpl;
        rewrite <- ?app_assoc; reflexivity. }
    apply (wf_scheduleCheck e5 o st' W5); [|exact Htf].
    rewrite Hheap. apply lookup_insert_eq.
Qed.

Lemma wf_checkAndContinue e o st destroyed :
  wf e -> heap e !! o = Some st -> timer st = None ->
  wf (checkAndContinue o destroyed e).
Proof.
  intros W Ho Htf. unfold checkAndContinue. rewrite Ho.
  destruct (status st) eqn:Hrun; try assumption.
  destruct destroyed; [apply wf_stopContinuation; assumption|].
  destruct (some_test DONE_PATTERNS (outputBuffer st)).
  - apply (wf_finish e _ o st done W Ho Hrun); auto.
    + destruct (onDone (hooks st)); simpl; apply alter_as_insert; assumption.
    + destruct (onDone (hooks st)); reflexivity.
    + unfold ending. simpl.
      destruct (onDone (hooks st)); simpl; rewrite <- ?app_assoc; reflexivity.
    + destruct (onDone (hooks st)); reflexivity.
    + destruct (onDone (hooks st)); reflexivity.
    + intros t [o' d] Ht.
      assert (Hin : timers e !! t = Some (o', d))
        by (destruct (onDone (hooks st)); exact Ht).
      split; [assumption|]. simpl. intros ->.
      destruct (wf_timers e W _ _ _ Hin) as (s' & Hs' & _ & Htf' & _).
      rewrite Ho in Hs'. inversion Hs'; subst s'. congruence.
  - destruct (requirePrompt st && negb (isAtPrompt (outputBuffer st))).
    + eapply wf_scheduleCheck; eassumption.
    + eapply wf_runIteration; eassumption.
Qed.

Lemma wf_timerFires e t destroyed : wf e -> wf (timerFires t destroyed e).
Proof.
  intros W. unfold timerFires.
  destruct (timers e !! t) as [[o d]|] eqn:Ht; [|assumption].
  destruct (wf_timers e W _ _ _ Ht) as (st & Ho & _ & Htf & _).
  apply (wf_checkAndContinue _ o (set_timer None st)).
  - apply (wf_clear e o st t W Ho Htf).
  - simpl. rewrite lookup_alter_eq, Ho. reflexivity.
  - reflexivity.
Qed.

Lemma wf_onPtyData e pid data : wf e -> wf (onPtyData pid data e).
Proof.
  intros W. unfold onPtyData.
  destruct (states e !! pid) as [o|]; [|assumption].
  destruct (heap e !! o) as [st|] eqn:Ho; [|assumption].
  destruct (status st); try assumption.
  match goal with |- context [set_outputBuffer ?b] => set (buf := b) end.
  pose proof (wf_set_buffer e o st buf W Ho) as W1.
  assert (Ho1 : heap (update o (set_outputBuffer buf) e) !! o = Some (set_outputBuffer buf st))
    by (simpl; rewrite lookup_alter_eq, Ho; reflexivity).
  destruct (timer st) as [t|] eqn:Htf.
  - apply (wf_scheduleCheck _ o (set_timer None (set_outputBuffer buf st))).
    + apply (wf_clear _ o (set_outputBuffer buf st) t W1 Ho1). exact Htf.
    + simpl. rewrite lookup_alter_eq, lookup_alter_eq, Ho. reflexivity.
    + reflexivity.
  - apply (wf_scheduleCheck _ o (set_outputBuffer buf st) W1 Ho1). exact Htf.
Qed.

Lemma wf_empty : wf empty.
Proof.
  split; simpl; intros; try (rewrite lookup_empty in *; discriminate); contradiction.
Qed.

Lemma wf_startContinuation e pid g m hks options destroyed :
  wf e -> wf (startContinuation pid g m hks options destroyed e).
Proof.
  intros W. unfold startContinuation.
  pose proof (wf_stopContinuation e pid W) as W1.
  pose proof (stopContinuation_unregisters e pid W) as Hfree.
  set (e1 := stopContinuation pid e) in *.
  match goal with |- context [<[next_obj e1 := ?s]> (heap e1)] => set (st0 := s) end.
  match goal with |- context [runIteration _ _ ?x] => set (e2 := x) end.
  assert (Hnew : heap e1 !! next_obj e1 = None).
  { destruct (heap e1 !! next_obj e1) as [s|] eqn:E; [|reflexivity].
    pose proof (wf_alloc e1 W1 _ _ E). lia. }
  assert (W2 : wf e2).
  { split; subst e2; simpl.
    - intros pid' o' Hl. destruct (decide (pid = pid')) as [<-|Hne].
      + rewrite lookup_insert_eq in Hl. inversion Hl; subst o'.
        exists st0. rewrite lookup_insert_eq. auto.
      + rewrite lookup_insert_ne in Hl by assumption.
        destruct (wf_registered e1 W1 _ _ Hl) as (s & Hs & Hr & Hp).
        exists s. rewrite lookup_insert_ne; [auto|]. intros <-. congruence.
    - intros o' s Hl Hr. destruct (decide (next_obj e1 = o')) as [<-|Hne].
      + rewrite lookup_insert_eq in Hl. inversion Hl; subst s. simpl.
        apply lookup_insert_eq.
      + rewrite lookup_insert_ne in Hl by assumption.
        pose proof (wf_running e1 W1 _ _ Hl Hr) as Hreg.
        rewrite lookup_insert_ne; [assumption|]. intros Heq.
        rewrite <- Heq in Hreg. congruence.
    - intros o' s Hl. destruct (decide (next_obj e1 = o')) as [<-|Hne]; [lia|].
      rewrite lookup_insert_ne in Hl by assumption.
      pose proof (wf_alloc e1 W1 _ _ Hl). lia.
    - intros o' ev Hin. pose proof (wf_trace e1 W1 _ _ Hin). lia.
    - intros o' s Hl. destruct (decide (next_obj e1 = o')) as [<-|Hne].
      + rewrite lookup_insert_eq in Hl. inversion Hl; subst s.
        rewrite events_of_fresh; [reflexivity|].
        intros ev Hin. pose proof (wf_trace e1 W1 _ _ Hin). lia.
      + rewrite lookup_insert_ne in Hl by assumption. apply (wf_shape e1 W1); assumption.
    - intros o' s Hl. destruct (decide (next_obj e1 = o')) as [<-|Hne].
      + rewrite lookup_insert_eq in Hl. inversion Hl; subst s. exact I.
      + rewrite lookup_insert_ne in Hl by assumption. eapply (wf_cap e1 W1); eauto.
    - intros t o' d Ht.
      destruct (wf_timers e1 W1 _ _ _ Ht) as (s & Hs & Hr & Htf & Hd).
      exists s. rewrite lookup_insert_ne; [auto|]. intros <-. congruence.
    - intros t x Ht. eapply (wf_handles e1 W1); eauto.
    - intros o' s t Hl Ht. destruct (decide (next_obj e1 = o')) as [<-|Hne].
      + rewrite lookup_insert_eq in Hl. inversion Hl; subst s. discriminate.
      + rewrite lookup_insert_ne in Hl by assumption.
        eapply (wf_handle_fields e1 W1); eauto. }
  assert (Ho : heap e2 !! next_obj e1 = Some st0) by (subst e2; simpl; apply lookup_insert_eq).
  destruct (truthy (kickOff options)).
  - apply (wf_runIteration e2 _ st0 destroyed W2 Ho). reflexivity.
  - apply (wf_scheduleCheck e2 _ st0 W2 Ho). reflexivity.
Qed.

Lemma wf_step e i : wf e -> wf (step e i).
Proof.
  intros W. destruct i as [[pid g m hks options|pid|pid data|t] destroyed]; simpl.
  - apply wf_startContinuation; assumption.
  - apply wf_stopContinuation; assumption.
  - apply wf_onPtyData; assumption.
  - apply wf_timerFires; assumption.
Qed.

Lemma wf_run inputs : wf (run inputs).
Proof.
  unfold run. induction inputs as [|i inputs IH] using rev_ind.
  - exact wf_empty.
  - rewrite fold_left_app. simpl. apply wf_step. exact IH.
Qed.

(** *** The shape of a run's events *)

Lemma ending_no_iteration st ev :
  In ev (ending st) -> sent_iterations [ev] = [] /\ is_onContinue ev = false.
Proof.
  unfold ending, opt_ev.
  destruct (status st); destruct (onDone (hooks st));
    destruct (onMaxReached (hooks st)); destruct (onCancelled (hooks st));
    simpl; intuition (subst; auto).
Qed.

Lemma ending_split st pre s post :
  ending st = pre ++ Became s :: post ->
  pre = [] /\ s = status st /\ s <> running /\
  sent_iterations post = [] /\ forallb (fun ev => negb (is_onContinue ev)) post = true.
Proof.
  unfold ending, opt_ev.
  destruct (status st); destruct (onDone (hooks st));
    destruct (onMaxReached (hooks st)); destruct (onCancelled (hooks st));
    simpl; intros H;
    repeat (destruct pre as [|? pre]; simpl in H; try discriminate;
            injection H as <- H);
    try discriminate;
    repeat match goal with H : _ :: _ = _ :: _ |- _ => injection H as ? H end;
    subst; repeat split; try discriminate; try reflexivity.
Qed.

Lemma block_no_status st i s : ~ In (Became s) (block st i).
Proof.
  unfold block, opt_ev. destruct (onIteration (hooks st)); simpl; intuition discriminate.
Qed.

Lemma block_split st a pre pid i m post :
  block st a = pre ++ SendIteration pid i m :: post ->
  i = a /\ pid = ptyId st /\ m = maxIterations st /\
  post = [CallOnContinue pid] /\
  List.filter is_onContinue pre = [].
Proof.
  unfold block, opt_ev. destruct (onIteration (hooks st)); simpl; intros H;
    repeat (destruct pre as [|? pre]; simpl in H; try discriminate;
            injection H as <- H);
    try discriminate;
    repeat match goal with H : _ :: _ = _ :: _ |- _ => injection H as ? H end;
    subst; repeat split; reflexivity.
Qed.

Lemma block_calls st a : List.length (List.filter is_onContinue (block st a)) = 1.
Proof. unfold block, opt_ev. destruct (onIteration (hooks st)); reflexivity. Qed.

Lemma block_sent st a : sent_iterations (block st a) = [a].
Proof. unfold block, opt_ev. destruct (onIteration (hooks st)); reflexivity. Qed.

Lemma sent_iterations_app a b :
  sent_iterations (a ++ b) = sent_iterations a ++ sent_iterations b.
Proof. unfold sent_iterations. apply flat_map_app. Qed.

Lemma ending_sent st : sent_iterations (ending st) = [].
Proof.
  unfold ending, opt_ev.
  destruct (status st); destruct (onDone (hooks st));
    destruct (onMaxReached (hooks st)); destruct (onCancelled (hooks st)); reflexivity.
Qed.

Lemma shape_sent st a k :
  sent_iterations (flat_map (block st) (seq a k) ++ ending st) = seq a k.
Proof.
  rewrite sent_iterations_app, ending_sent, app_nil_r.
  revert a. induction k as [|k IH]; intros a; simpl; [reflexivity|].
  rewrite sent_iterations_app, block_sent, IH. reflexivity.
Qed.

(** Every [continuation:iteration] message is followed at once by the call
    of [onContinue], and it is the [i]-th such call of the run. *)
Lemma shape_iteration_then_continue st k : forall a pre pid i m post,
  flat_map (block st) (seq a k) ++ ending st = pre ++ SendIteration pid i m :: post ->
  exists post',
    post = CallOnContinue pid :: post' /\
    a + List.length (List.filter is_onContinue pre) = i.
Proof.
  induction k as [|k IH]; intros a pre pid i m post H; simpl in H.
  - assert (Hin : In (SendIteration pid i m) (ending st))
      by (rewrite H; apply in_elt).
    apply ending_no_iteration in Hin as [Hin _]. discriminate.
  - rewrite <- app_assoc in H. apply app_eq_app in H as [l [[H1 H2]|[H1 H2]]].
    + destruct l as [|x l].
      * rewrite app_nil_r in H1. simpl in H2. symmetry in H2.
        destruct (IH (S a) [] pid i m post H2) as (post' & Hp & Hc).
        exists post'. split; [assumption|]. subst pre. rewrite block_calls.
        simpl in Hc. lia.
      * simpl in H2. injection H2 as <- H2.
        apply block_split in H1 as (-> & -> & -> & -> & Hc).
        exists (flat_map (block st) (seq (S a) k) ++ ending st).
        split; [exact H2|]. rewrite Hc. simpl. lia.
    + destruct (IH (S a) l pid i m post H2) as (post' & Hp & Hc).
      exists post'. split; [assumption|]. subst pre.
      rewrite List.filter_app, List.length_app, block_calls. lia.
Qed.

(** Nothing of an iteration follows an assignment to [status]. *)
Lemma shape_nothing_after_status st k : forall a pre s post,
  flat_map (block st) (seq a k) ++ ending st = pre ++ Became s :: post ->
  s = status st /\ s <> running /\
  sent_iterations post = [] /\ forallb (fun ev => negb (is_onContinue ev)) post = true.
Proof.
  induction k as [|k IH]; intros a pre s post H; simpl in H.
  - apply ending_split in H. tauto.
  - rewrite <- app_assoc in H. apply app_eq_app in H as [l [[H1 H2]|[H1 H2]]].
    + destruct l as [|x l].
      * simpl in H2. symmetry in H2. exact (IH (S a) [] s post H2).
      * simpl in H2. injection H2 as <- H2. exfalso.
        apply (block_no_status st a s). rewrite H1. apply in_elt.
    + exact (IH (S a) l s post H2).
Qed.

Lemma within_cap_bound st M :
  within_cap st -> is_int (maxIterations st) M ->
  (Z.of_nat (currentIteration st) <= Z.max 0 M)%Z.
Proof.
  unfold within_cap, is_int. destruct (currentIteration st) as [|k]; [lia|].
  destruct (maxIterations st) as [| |q]; try contradiction.
  intros Hcap Hq. unfold ge, le, of_nat, of_Z in Hcap.
  assert (Hlt : ~ (q <= inject_Z (Z.of_nat k))%Q).
  { intros Hle. apply Qle_bool_iff in Hle. congruence. }
  rewrite Hq in Hlt. rewrite <- Zle_Qle in Hlt. lia.
Qed.

(** The events of one continuation run (one state object [o]): the
    [continuation:iteration] messages carry 1, 2, ..., k in this order; k is
    at most [maxIterations] when that is a whole number [M] (in general the
    k-th iteration started because k - 1 was below the cap); each iteration
    message is followed at once by the call [onContinue(ptyId)], which is
    the i-th such call of the run; and once [status] was assigned ([done],
    [max_reached] or [cancelled]) no iteration message and no [onContinue]
    call follows. *)
Theorem iteration_events_form_prefix inputs o st :
  heap (run inputs) !! o = Some st ->
  let evs := events_of o (trace (run inputs)) in
  let k := currentIteration st in
  evs = blocks st k ++ ending st /\
  sent_iterations evs = seq 1 k /\
  (forall M, is_int (maxIterations st) M -> (Z.of_nat k <= Z.max 0 M)%Z) /\
  within_cap st /\
  (forall pre pid i m post,
     evs = pre ++ SendIteration pid i m :: post ->
     pid = ptyId st /\ m = maxIterations st /\
     exists post', post = CallOnContinue pid :: post' /\
                   S (List.length (List.filter is_onContinue pre)) = i) /\
  (forall pre s post,
     evs = pre ++ Became s :: post ->
     s <> running /\ sent_iterations post = [] /\
     forallb (fun ev => negb (is_onContinue ev)) post = true).
Proof.
  intros Ho evs k.
  pose proof (wf_run inputs) as W.
  pose proof (wf_shape _ W _ _ Ho) as Hshape. fold evs k in Hshape.
  split; [exact Hshape|]. rewrite Hshape. unfold blocks.
  split; [apply shape_sent|].
  split; [intros M HM; apply within_cap_bound; [exact (wf_cap _ W _ _ Ho) | exact HM]|].
  split; [exact (wf_cap _ W _ _ Ho)|].
  split.
  - intros pre pid i m post H.
    assert (Hin : In (SendIteration pid i m)
                     (flat_map (block st) (seq 1 k) ++ ending st))
      by (rewrite H; apply in_elt).
    assert (Hpm : pid = ptyId st /\ m = maxIterations st).
    { apply in_app_or in Hin as [Hin|Hin].
      - apply in_flat_map in Hin as (a & _ & Hin). unfold block, opt_ev in Hin.
        destruct (onIteration (hooks st)); simpl in Hin;
          intuition (try discriminate; congruence).
      - apply ending_no_iteration in Hin as [Hin _]. discriminate. }
    destruct Hpm as [Hp Hm]. split; [exact Hp|]. split; [exact Hm|].
    apply shape_iteration_then_continue in H as (post' & Hpost & Hc). eauto.
  - intros pre s post H. apply shape_nothing_after_status in H. tauto.
Qed.

Lemma iteration_events_form_prefix_witness :
  exists st,
    heap (run scenario_C) !! 0 = Some st /\
    sent_iterations (events_of 0 (trace (run scenario_C))) = [1; 2; 3] /\
    (Z.of_nat (currentIteration st) <= 3)%Z /\
    status st = max_reached.
Proof.
  eexists. split; [vm_compute; reflexivity|].
  pose proof (iteration_events_form_prefix scenario_C 0 _
                ltac:(vm_compute; reflexivity)) as (_ & Hsent & Hcap & _).
  split; [exact Hsent|]. split; [|reflexivity].
  apply (Hcap 3%Z). vm_compute. reflexivity.
Defined.

(** C1 (where the code departs from the claim).  [continuation:start] lets
    the cap 2.5 through as it is, and the run that follows sends the
    iteration messages 1, 2 and 3, each with [max] = 2.5, before it reports
    [maxReached]: iteration 3 is above [maxIterations], so the values sent
    are not a prefix of 1..maxIterations. *)
Theorem fractional_cap_runs_past_maxIterations :
  let cap := Boundary.continuationMax (JNumber (Fin (5 # 2))) in
  let e := run ContinuationInv.scenario_fractional_cap in
  cap = Fin (5 # 2) /\
  List.map snd (trace e) =
    [ HookIteration "p" 1 cap; SendIteration "p" 1 cap; CallOnContinue "p";
      HookIteration "p" 2 cap; SendIteration "p" 2 cap; CallOnContinue "p";
      HookIteration "p" 3 cap; SendIteration "p" 3 cap; CallOnContinue "p";
      Became max_reached; HookMaxReached "p" 3 "x"; SendMaxReached "p" 3 "x" ] /\
  sent_iterations (events_of 0 (trace e)) = [1; 2; 3] /\
  gt (of_nat 3) cap = true /\
  exists st, heap e !! 0 = Some st /\ status st = max_reached /\
             currentIteration st = 3 /\ maxIterations st = cap.
Proof.
  cbv zeta. split; [reflexivity|]. split; [vm_compute; reflexivity|].
  split; [vm_compute; reflexivity|]. split; [reflexivity|].
  eexists. split; [vm_compute; reflexivity|]. repeat split.
Qed.

(** With the cap 0.5, which [continuation:start] lets through, the run
    starts iteration 1 and then reports [maxReached]. *)
Example half_cap_runs_one_iteration :
  let hks := {| onIteration := false; onDone := false; onMaxReached := false;
                onCancelled := false |} in
  let options := {| kickOff := Some true; opt_requirePrompt := None;
                    opt_quietDelayMs := None |} in
  List.map snd (trace (run [ (Start "p" "x" (Boundary.continuationMax
                                            (JNumber (Fin (1 # 2)))) hks options, false);
                             (PtyData "p" (js "$ "), false);
                             (TimerFires 1, false) ])) =
  [ SendIteration "p" 1 (Fin (1 # 2)); CallOnContinue "p";
    Became max_reached; SendMaxReached "p" 1 "x" ].
Proof. vm_compute. reflexivity. Qed.

(** *** Output delivery and the quiet timer *)

Lemma trimmed_length (buf : jstring) :
  let buf' := if Z.ltb MAX_BUFFER_SIZE (Z.of_nat (List.length buf))
              then slice_last (Z.to_nat BUFFER_TRIM_TO) buf else buf in
  (Z.of_nat (List.length buf') <= MAX_BUFFER_SIZE)%Z.
Proof.
  cbv zeta. unfold MAX_BUFFER_SIZE, BUFFER_TRIM_TO, slice_last.
  destruct (Z.ltb_spec 50000 (Z.of_nat (List.length buf))) as [Hlt|Hle]; [|exact Hle].
  rewrite List.length_skipn. lia.
Qed.

(** C3. A chunk of PTY output for a registered (hence running) continuation:
    the chunk is appended to [outputBuffer]; a buffer of more than 50000 code
    units is cut down to its last 20000, so at most 50000 remain; the pending
    timeout is cleared and a new one with the delay [quietDelayMs] is armed,
    which is then the only check pending for this run.  No event is emitted. *)
Theorem onPtyData_appends_trims_rearms inputs pid data o st :
  let e := run inputs in
  states e !! pid = Some o ->
  heap e !! o = Some st ->
  let e' := onPtyData pid data e in
  let full := outputBuffer st ++ data in
  let buf' := if Z.ltb 50000 (Z.of_nat (List.length full))
              then slice_last (Z.to_nat 20000) full else full in
  status st = running /\
  heap e' !! o = Some (set_timer (Some (next_timer e)) (set_outputBuffer buf' st)) /\
  (Z.of_nat (List.length buf') <= 50000)%Z /\
  timers e' = <[next_timer e := (o, quietDelayMs st)]>
                (match timer st with
                 | Some t => delete t (timers e)
                 | None => timers e
                 end) /\
  (forall t, timer st = Some t -> timers e' !! t = None) /\
  (forall t d, timers e' !! t = Some (o, d) <->
               t = next_timer e /\ d = quietDelayMs st) /\
  trace e' = trace e /\
  states e' = states e.
Proof.
  intros e Hreg Ho e' full buf'.
  pose proof (wf_run inputs) as W. fold e in W.
  pose proof (wf_onPtyData e pid data W) as W'. fold e' in W'.
  destruct (wf_registered e W _ _ Hreg) as (s & Hs & Hrun & Hp).
  rewrite Ho in Hs. inversion Hs; subst s. clear Hs.
  assert (Hlen : (Z.of_nat (List.length buf') <= 50000)%Z) by apply trimmed_length.
  assert (Hres :
    heap e' !! o = Some (set_timer (Some (next_timer e)) (set_outputBuffer buf' st)) /\
    timers e' = <[next_timer e := (o, quietDelayMs st)]>
                  (match timer st with
                   | Some t => delete t (timers e)
                   | None => timers e
                   end) /\
    trace e' = trace e /\ states e' = states e).
  { subst e'. unfold onPtyData. rewrite Hreg, Ho, Hrun.
    fold full. unfold BUFFER_TRIM_TO, MAX_BUFFER_SIZE. fold buf'.
    unfold scheduleCheck.
    destruct (timer st) as [t|] eqn:Htf; simpl;
      rewrite ?lookup_alter_eq, Ho; simpl; rewrite Hrun; simpl;
      rewrite ?lookup_alter_eq, Ho; simpl; rewrite ?Htf; auto. }
  destruct Hres as (Hheap & Htimers & Htrace & Hstates).
  repeat (split; [assumption|]).
  split; [|split; [|split; assumption]].
  - intros t Htf. rewrite Htimers, Htf.
    pose proof (wf_handle_fields e W _ _ _ Ho Htf).
    rewrite lookup_insert_ne by lia. apply lookup_delete_eq.
  - intros t d. split.
    + intros Ht. destruct (wf_timers e' W' _ _ _ Ht) as (s & Hs & _ & Htf & Hd).
      rewrite Hheap in Hs. inversion Hs; subst s. simpl in Htf, Hd.
      split; congruence.
    + intros [-> ->]. rewrite Htimers. apply lookup_insert_eq.
Qed.

Lemma onPtyData_appends_trims_rearms_witness :
  let inputs := firstn 1 scenario_C in
  exists st,
    heap (run inputs) !! 0 = Some st /\
    timers (onPtyData "p" (js "hello") (run inputs)) !! 1 = Some (0, of_Z 250) /\
    timers (onPtyData "p" (js "hello") (run inputs)) !! 0 = None.
Proof.
  cbv zeta. eexists. split; [vm_compute; reflexivity|].
  pose proof (onPtyData_appends_trims_rearms (firstn 1 scenario_C) "p" (js "hello") 0 _
                ltac:(vm_compute; reflexivity) ltac:(vm_compute; reflexivity))
    as (_ & _ & _ & _ & Hold & Honly & _).
  split.
  - apply (proj2 (Honly 1 (of_Z 250))). split; reflexivity.
  - apply (Hold 0). reflexivity.
Defined.


(** The earlier revision leaves no check pending after output. *)
Example legacy_onPtyData_does_not_rearm :
  let e := run (firstn 1 scenario_C) in
  timers e !! 0 = Some (0, of_Z 250) /\
  timers (Legacy.onPtyData "p" (js "hello") e) = ∅ /\
  timers (onPtyData "p" (js "hello") e) = {[ 1 := (0, of_Z 250) ]}.
Proof. cbv zeta. repeat split; vm_compute; reflexivity. Qed.

(** *** The timer callback *)

Lemma sends_app a b : sends (a ++ b) = sends a ++ sends b.
Proof. unfold sends. apply List.filter_app. Qed.

Local Opaque some_test isAtPrompt Number.ge.

(** C2. The quiet timer [t] of a run fires.  The run is then running and
    registered, and the callback decides in this order: a destroyed window
    stops the continuation and sends nothing to the window; otherwise a
    completion pattern in the buffer sends [continuation:done] and deletes
    the state; otherwise, with [requirePrompt] and no idle prompt in the last
    five lines, the check is scheduled again and nothing is emitted;
    otherwise [runIteration] runs, which first compares the iteration count
    with the cap. *)
Theorem timer_fire_checks_in_order inputs t destroyed o d :
  let e := run inputs in
  timers e !! t = Some (o, d) ->
  exists st,
    heap e !! o = Some st /\ status st = running /\
    states e !! ptyId st = Some o /\ timer st = Some t /\
    let e' := timerFires t destroyed e in
    let pid := ptyId st in
    let cur := currentIteration st in
    if destroyed then
      trace e' = trace e ++
        List.map (pair o) (Became cancelled ::
                           opt_ev (onCancelled (hooks st)) (HookCancelled pid)) /\
      sends (trace e') = sends (trace e) /\
      states e' = delete pid (states e) /\
      heap e' !! o = Some (set_status cancelled (set_timer None st)) /\
      timers e' = delete t (timers e)
    else if some_test DONE_PATTERNS (outputBuffer st) then
      trace e' = trace e ++
        List.map (pair o) (Became done ::
                           opt_ev (onDone (hooks st)) (HookDone pid cur) ++
                           [SendDone pid cur]) /\
      states e' = delete pid (states e) /\
      heap e' !! o = Some (set_status done (set_timer None st)) /\
      timers e' = delete t (timers e)
    else if requirePrompt st && negb (isAtPrompt (outputBuffer st)) then
      trace e' = trace e /\
      states e' = states e /\
      heap e' !! o = Some (set_timer (Some (next_timer e)) st) /\
      timers e' = <[next_timer e := (o, quietDelayMs st)]> (delete t (timers e))
    else
      e' = runIteration o false (update o (set_timer None) (clearTimeout t e)) /\
      if ge (of_nat cur) (maxIterations st) then
        trace e' = trace e ++
          List.map (pair o) (Became max_reached ::
                             opt_ev (onMaxReached (hooks st))
                               (HookMaxReached pid cur (goal st)) ++
                             [SendMaxReached pid cur (goal st)]) /\
        states e' = delete pid (states e) /\
        heap e' !! o = Some (set_status max_reached (set_timer None st)) /\
        timers e' = delete t (timers e)
      else
        trace e' = trace e ++ List.map (pair o) (block st (S cur)) /\
        states e' = states e /\
        heap e' !! o =
          Some (set_timer (Some (next_timer e))
                  (set_outputBuffer [] (set_currentIteration (S cur) st))) /\
        timers e' = <[next_timer e := (o, quietDelayMs st)]> (delete t (timers e)).
Proof.
  intros e Ht.
  pose proof (wf_run inputs) as W. fold e in W.
  destruct (wf_timers e W _ _ _ Ht) as (st & Ho & Hrun & Htf & _).
  pose proof (wf_running e W _ _ Ho Hrun) as Hreg.
  exists st. repeat (split; [assumption|]).
  cbv zeta. unfold timerFires. rewrite Ht. unfold checkAndContinue. simpl.
  rewrite lookup_alter_eq, Ho. simpl. rewrite Hrun.
  destruct destroyed.
  - unfold stopContinuation. simpl. rewrite Hreg, lookup_alter_eq, Ho. simpl.
    unfold opt_ev. destruct (onCancelled (hooks st)); simpl;
      rewrite ?lookup_alter_eq, ?lookup_alter_eq, Ho; simpl;
      rewrite ?sends_app; simpl; rewrite <- ?app_assoc, ?app_nil_r; auto.
  - destruct (some_test DONE_PATTERNS (outputBuffer st)).
    + unfold opt_ev. destruct (onDone (hooks st)); simpl;
        rewrite ?lookup_alter_eq, ?lookup_alter_eq, Ho; simpl;
        rewrite <- ?app_assoc; auto.
    + destruct (requirePrompt st && negb (isAtPrompt (outputBuffer st))).
      * unfold scheduleCheck. simpl. rewrite lookup_alter_eq, Ho. simpl. rewrite Hrun.
        simpl. rewrite ?lookup_alter_eq, ?lookup_alter_eq, Ho. auto.
      * split; [reflexivity|].
        unfold runIteration. simpl. rewrite lookup_alter_eq, Ho. simpl. rewrite Hrun.
        destruct (ge (of_nat (currentIteration st)) (maxIterations st)).
        -- unfold opt_ev. destruct (onMaxReached (hooks st)); simpl;
             rewrite ?lookup_alter_eq, ?lookup_alter_eq, Ho; simpl;
             rewrite <- ?app_assoc; auto.
        -- unfold scheduleCheck, block, opt_ev.
           destruct (onIteration (hooks st)); simpl;
             rewrite ?lookup_alter_eq, ?lookup_alter_eq, ?lookup_alter_eq, Ho; simpl;
             rewrite Hrun; simpl;
             rewrite ?lookup_alter_eq, ?lookup_alter_eq, ?lookup_alter_eq,
                     ?lookup_alter_eq, Ho; simpl;
             rewrite <- ?app_assoc; auto.
Qed.

Local Transparent some_test isAtPrompt Number.ge.

Lemma timer_fire_checks_in_order_witness :
  let e := run (firstn 2 scenario_C) in
  timers e !! 1 = Some (0, of_Z 250) /\
  exists st,
    heap e !! 0 = Some st /\ status st = running /\
    states e !! ptyId st = Some 0 /\ timer st = Some 1.
Proof.
  cbv zeta. split; [vm_compute; reflexivity|].
  destruct (timer_fire_checks_in_order (firstn 2 scenario_C) 1 false 0 (of_Z 250)
              ltac:(vm_compute; reflexivity))
    as (st & Ho & Hrun & Hreg & Htf & _).
  exists st. auto.
Defined.

End ContinuationFacts.

(** ** The command boundary *)

Section BoundaryFacts.

Import Number Boundary.

Lemma Qle_bool_false a b : Qle_bool a b = false -> (b < a)%Q.
Proof.
  intros H. apply Qnot_le_lt. intros Hle. apply Qle_bool_iff in Hle. congruence.
Qed.

(** The synthesis run count is a whole number between 1 and 12, and 5 when
    the argument is not a finite number. *)
Lemma synthesisCount_clamped (n : JsValue) :
  exists k : Z, synthesisCount n = of_Z k /\ (1 <= k <= 12)%Z.
Proof.
  destruct n as [| | |x|s|]; simpl; try (exists 5%Z; split; [reflexivity|lia]).
  destruct x as [| |q]; simpl; try (exists 5%Z; split; [reflexivity|lia]).
  unfold Math_max, Math_min, of_Z, le.
  destruct (Qle_bool (inject_Z 12) (inject_Z (Qfloor q))) eqn:H12.
  - exists 12%Z. split; [reflexivity|lia].
  - apply Qle_bool_false in H12. rewrite <- Zlt_Qlt in H12.
    destruct (Qle_bool (inject_Z (Qfloor q)) (inject_Z 1)) eqn:H1.
    + exists 1%Z. split; [reflexivity|lia].
    + apply Qle_bool_false in H1. rewrite <- Zlt_Qlt in H1.
      exists (Qfloor q). split; [reflexivity|lia].
Qed.

Lemma synthesisCount_default :
  synthesisCount JUndefined = of_Z 5 /\ synthesisCount JNull = of_Z 5 /\
  synthesisCount (JNumber NaN) = of_Z 5.
Proof. repeat split. Qed.

(** What [continuation:start] does guarantee: a finite value in (0, 100],
    20 when the argument is absent or not a positive finite number, and the
    clamp to [1,100] on whole numbers. *)
Lemma continuationMax_range (v : JsValue) :
  exists q, continuationMax v = Fin q /\ (0 < q <= 100)%Q.
Proof.
  assert (Hdef : exists q, of_Z 20 = Fin q /\ (0 < q <= 100)%Q).
  { exists (inject_Z 20). split; [reflexivity|]. split; [reflexivity|].
    apply Qle_bool_iff. reflexivity. }
  destruct v as [| | |x|s|]; simpl; try exact Hdef.
  destruct x as [| |q]; simpl; try exact Hdef.
  unfold gt, lt, of_Z, Qlt_b.
  destruct (Qle_bool q (inject_Z 0)) eqn:H0; simpl; [exact Hdef|].
  apply Qle_bool_false in H0.
  unfold Math_min, le. destruct (Qle_bool q (inject_Z 100)) eqn:H100.
  - exists q. split; [reflexivity|]. split; [exact H0|].
    apply Qle_bool_iff. exact H100.
  - exists (inject_Z 100). split; [reflexivity|]. split; [reflexivity|].
    apply Qle_lteq. right. reflexivity.
Qed.

Lemma continuationMax_whole (z : Z) :
  continuationMax (JNumber (of_Z z)) =
  of_Z (if (0 <? z)%Z then Z.min z 100 else 20).
Proof.
  unfold continuationMax, of_Z, isFinite, gt, lt, Qlt_b, Math_min, le. simpl andb.
  destruct (Z.ltb_spec 0 z) as [Hpos|Hneg].
  - assert (H0 : Qle_bool (inject_Z z) (inject_Z 0) = false).
    { destruct (Qle_bool (inject_Z z) (inject_Z 0)) eqn:E; [|reflexivity].
      apply Qle_bool_iff in E. rewrite <- Zle_Qle in E. lia. }
    rewrite H0. simpl negb. cbv iota.
    destruct (Qle_bool (inject_Z z) (inject_Z 100)) eqn:E.
    + apply Qle_bool_iff in E. rewrite <- Zle_Qle in E.
      rewrite Z.min_l by lia. reflexivity.
    + apply Qle_bool_false in E. rewrite <- Zlt_Qlt in E.
      rewrite Z.min_r by lia. reflexivity.
  - assert (H0 : Qle_bool (inject_Z z) (inject_Z 0) = true).
    { apply Qle_bool_iff. rewrite <- Zle_Qle. lia. }
    rewrite H0. reflexivity.
Qed.

(** C10 (where the code departs from the claim).  For the finite number 0.5
    the guard [maxIterations > 0] holds and [Math.min(0.5, 100)] is 0.5: the
    effective cap is below 1, so it is not in [1,100]; the sibling clamp of
    the synthesis count floors and raises to 1. *)
Theorem continuationMax_half_is_not_clamped :
  continuationMax (JNumber (Fin (1 # 2))) = Fin (1 # 2) /\
  lt (continuationMax (JNumber (Fin (1 # 2)))) (of_Z 1) = true /\
  synthesisCount (JNumber (Fin (1 # 2))) = of_Z 1.
Proof. repeat split. Qed.

End BoundaryFacts.

(** ** The sanitized environment *)

Section EnvFacts.

Import Env.

Lemma copyAllowed_dom penv (l : list string) : forall env k,
  k ∈ dom (fold_left (copyAllowed penv) l env) -> k ∈ dom env \/ In k l.
Proof.
  induction l as [|a l IH]; intros env k Hk; simpl in *; [left; exact Hk|].
  apply IH in Hk as [Hk|Hk]; [|right; right; exact Hk].
  unfold copyAllowed in Hk. destruct (penv a) as [v|]; [|left; exact Hk].
  destruct (truthy v); [|left; exact Hk].
  rewrite dom_insert_L in Hk. apply elem_of_union in Hk as [Hk|Hk]; [|left; exact Hk].
  apply elem_of_singleton in Hk. right. left. congruence.
Qed.

Lemma copyAllowed_ext penv1 penv2 (l : list string) :
  (forall k, In k l -> penv1 k = penv2 k) ->
  forall env, fold_left (copyAllowed penv1) l env = fold_left (copyAllowed penv2) l env.
Proof.
  induction l as [|a l IH]; intros Hagree env; simpl; [reflexivity|].
  assert (Ha : copyAllowed penv1 env a = copyAllowed penv2 env a)
    by (unfold copyAllowed; rewrite (Hagree a (or_introl eq_refl)); reflexivity).
  rewrite Ha. apply IH. intros k Hk. apply Hagree. right. exact Hk.
Qed.

Lemma copyAllowed_lookup penv (l : list string) : forall env k,
  fold_left (copyAllowed penv) l env !! k =
  if in_dec string_dec k l then
    match copied penv k with
    | Some v => Some v
    | None => env !! k
    end
  else env !! k.
Proof.
  induction l as [|a l IH]; intros env k; simpl fold_left.
  - destruct (in_dec string_dec k []) as [[]|_]. reflexivity.
  - rewrite IH. unfold copied, copyAllowed.
    destruct (decide (a = k)) as [->|Hne].
    + destruct (in_dec string_dec k (k :: l)) as [_|Hn]; [|exfalso; apply Hn; left; reflexivity].
      destruct (penv k) as [v|]; [destruct (truthy v)|];
        destruct (in_dec string_dec k l); try reflexivity; apply lookup_insert_eq.
    + assert (Hiff : In k (a :: l) <-> In k l) by (simpl; intuition congruence).
      destruct (in_dec string_dec k (a :: l)) as [Hin|Hn];
        destruct (in_dec string_dec k l) as [Hin'|Hn']; try tauto;
        destruct (penv k) as [v|]; try destruct (truthy v); try reflexivity;
        destruct (penv a) as [w|]; try destruct (truthy w); try reflexivity;
        apply lookup_insert_ne; assumption.
Qed.

Lemma getSanitizedEnv_eq penv :
  getSanitizedEnv penv =
  let env := <["COLORTERM" := "truecolor"]>
               (<["TERM" := "xterm-256color"]>
                  (fold_left (copyAllowed penv) ENV_ALLOWLIST ∅)) in
  <["LANG" := match env !! "LANG" with
              | Some v => if truthy v then v else "en_US.UTF-8"
              | None => "en_US.UTF-8"
              end]> env.
Proof. reflexivity. Qed.

Lemma allow_list_has_LANG : In "LANG" ENV_ALLOWLIST.
Proof. unfold ENV_ALLOWLIST. simpl. tauto. Qed.

Lemma copied_LANG penv (env : gmap string string) :
  env = fold_left (copyAllowed penv) ENV_ALLOWLIST ∅ ->
  env !! "LANG" = copied penv "LANG".
Proof.
  intros ->. rewrite copyAllowed_lookup.
  destruct (in_dec string_dec "LANG" ENV_ALLOWLIST) as [_|Hn].
  - rewrite lookup_empty. destruct (copied penv "LANG"); reflexivity.
  - exfalso. exact (Hn allow_list_has_LANG).
Qed.

Lemma sanitized_TERM penv : getSanitizedEnv penv !! "TERM" = Some "xterm-256color".
Proof.
  rewrite getSanitizedEnv_eq. cbv zeta.
  generalize (fold_left (copyAllowed penv) ENV_ALLOWLIST ∅). intros env.
  rewrite lookup_insert_ne by discriminate.
  rewrite lookup_insert_ne by discriminate. apply lookup_insert_eq.
Qed.

Lemma sanitized_COLORTERM penv : getSanitizedEnv penv !! "COLORTERM" = Some "truecolor".
Proof.
  rewrite getSanitizedEnv_eq. cbv zeta.
  generalize (fold_left (copyAllowed penv) ENV_ALLOWLIST ∅). intros env.
  rewrite lookup_insert_ne by discriminate. apply lookup_insert_eq.
Qed.

Lemma sanitized_LANG penv :
  getSanitizedEnv penv !! "LANG" =
  Some match copied penv "LANG" with
       | Some v => v
       | None => "en_US.UTF-8"
       end.
Proof.
  rewrite getSanitizedEnv_eq. cbv zeta.
  rewrite lookup_insert_eq.
  rewrite !lookup_insert_ne by discriminate.
  rewrite (copied_LANG penv _ eq_refl). unfold copied.
  destruct (penv "LANG") as [v|]; [|reflexivity].
  destruct (truthy v) eqn:E; [rewrite E|]; reflexivity.
Qed.

Lemma sanitized_dom penv k :
  k ∈ dom (getSanitizedEnv penv) -> In k ENV_ALLOWLIST \/ In k FORCED_KEYS.
Proof.
  rewrite getSanitizedEnv_eq. cbv zeta. intros Hk.
  rewrite !dom_insert_L in Hk.
  repeat (apply elem_of_union in Hk as [Hk|Hk];
          [apply elem_of_singleton in Hk; subst k; right; unfold FORCED_KEYS; simpl; tauto|]).
  apply copyAllowed_dom in Hk as [Hk|Hk]; [|left; exact Hk].
  rewrite dom_empty_L in Hk. apply not_elem_of_empty in Hk. contradiction.
Qed.

Lemma forced_keys_allowed k : In k FORCED_KEYS -> In k ENV_ALLOWLIST.
Proof.
  unfold FORCED_KEYS, ENV_ALLOWLIST. simpl.
  intros [<-|[<-|[<-|[]]]]; tauto.
Qed.

Lemma sanitized_agree penv1 penv2 :
  (forall k, In k ENV_ALLOWLIST -> penv1 k = penv2 k) ->
  getSanitizedEnv penv1 = getSanitizedEnv penv2.
Proof.
  intros Hagree. rewrite !getSanitizedEnv_eq. cbv zeta.
  rewrite (copyAllowed_ext penv1 penv2 ENV_ALLOWLIST Hagree). reflexivity.
Qed.

(** C6. The environment handed to every PTY child: its keys lie in the fixed
    allow-list (the three forced keys are on it); [TERM] is
    [xterm-256color] and [COLORTERM] is [truecolor] whatever the parent
    holds; [LANG] is the parent's when it has a non-empty one and
    [en_US.UTF-8] otherwise; and two parents that agree on the allow-listed
    variables give the same child environment. *)
Theorem sanitized_env_is_allow_listed :
  (forall penv k, k ∈ dom (getSanitizedEnv penv) ->
                  In k ENV_ALLOWLIST \/ In k FORCED_KEYS) /\
  (forall k, In k FORCED_KEYS -> In k ENV_ALLOWLIST) /\
  (forall penv, getSanitizedEnv penv !! "TERM" = Some "xterm-256color") /\
  (forall penv, getSanitizedEnv penv !! "COLORTERM" = Some "truecolor") /\
  (forall penv, penv "LANG" = None \/ penv "LANG" = Some "" ->
                getSanitizedEnv penv !! "LANG" = Some "en_US.UTF-8") /\
  (forall penv v, penv "LANG" = Some v -> v <> "" ->
                  getSanitizedEnv penv !! "LANG" = Some v) /\
  (forall penv1 penv2,
     (forall k, In k ENV_ALLOWLIST -> penv1 k = penv2 k) ->
     getSanitizedEnv penv1 = getSanitizedEnv penv2) /\
  (forall spawnSpec penv, env (ptyOptions spawnSpec penv) = getSanitizedEnv penv).
Proof.
  split; [exact sanitized_dom|].
  split; [exact forced_keys_allowed|].
  split; [exact sanitized_TERM|].
  split; [exact sanitized_COLORTERM|].
  split; [|split; [|split; [exact sanitized_agree|reflexivity]]].
  - intros penv Habsent. rewrite sanitized_LANG. unfold copied.
    destruct Habsent as [-> | ->]; reflexivity.
  - intros penv v Hv Hne. rewrite sanitized_LANG. unfold copied. rewrite Hv.
    destruct v; [contradiction|]. reflexivity.
Qed.

End EnvFacts.

(** ** Memory search *)

Section DbFacts.

Import Db.

(** The three [replace] passes of [escapeLike] amount to one pass that puts
    a backslash before each backslash, percent sign and underscore. *)
Lemma escapeLike_cons c s :
  escapeLike (c :: s) =
  (if N.eqb c BACKSLASH || N.eqb c PERCENT || N.eqb c UNDERSCORE
   then [BACKSLASH; c] else [c]) ++ escapeLike s.
Proof.
  unfold escapeLike, replace_all. simpl flat_map.
  destruct (N.eqb_spec c BACKSLASH) as [->|Hb]; [reflexivity|].
  destruct (N.eqb_spec c PERCENT) as [->|Hp]; [reflexivity|].
  destruct (N.eqb_spec c UNDERSCORE) as [->|Hu]; [reflexivity|].
  simpl. apply N.eqb_neq in Hp, Hu. rewrite Hp. simpl. rewrite Hu. reflexivity.
Qed.

Lemma like_tokens_escapeLike s rest :
  like_tokens (escapeLike s ++ rest) = List.map Literal s ++ like_tokens rest.
Proof.
  induction s as [|c s IH]; [reflexivity|].
  rewrite escapeLike_cons.
  destruct (N.eqb_spec c BACKSLASH) as [->|Hb]; [simpl; rewrite IH; reflexivity|].
  destruct (N.eqb_spec c PERCENT) as [->|Hp]; [simpl; rewrite IH; reflexivity|].
  destruct (N.eqb_spec c UNDERSCORE) as [->|Hu]; [simpl; rewrite IH; reflexivity|].
  apply N.eqb_neq in Hb, Hp, Hu. simpl. rewrite Hb, Hp, Hu, IH. reflexivity.
Qed.

(** The pattern of the fallback matches the query literally, anywhere in
    the column. *)
Lemma fallback_pattern_is_literal query :
  like_tokens ([PERCENT] ++ escapeLike query ++ [PERCENT]) =
  AnyString :: List.map Literal query ++ [AnyString].
Proof.
  change ([PERCENT] ++ escapeLike query ++ [PERCENT])
    with (PERCENT :: (escapeLike query ++ [PERCENT])).
  change (like_tokens (PERCENT :: (escapeLike query ++ [PERCENT])))
    with (AnyString :: like_tokens (escapeLike query ++ [PERCENT])).
  rewrite like_tokens_escapeLike. reflexivity.
Qed.

(** C4 as stated fails: the full-text query returns no rows, raises nothing,
    and the [LIKE] statement runs all the same. *)
Lemma like_runs_without_syntax_error : ~ like_only_after_syntax_error.
Proof.
  intros H.
  destruct (H fts_finds_nothing "w" (js "hello")
              ([PERCENT] ++ escapeLike (js "hello") ++ [PERCENT])
              ([PERCENT] ++ escapeLike (js "hello") ++ [PERCENT]))
    as (message & Hthrew & _).
  - right. left. reflexivity.
  - discriminate.
Qed.

(** Both statements end in [LIMIT 10]: when neither returns more than ten
    rows, neither does [searchMemory]. *)
Lemma searchMemory_at_most_ten stmts workspaceId query rows :
  (forall w q r, searchMemoryFts stmts w q = Returned r -> List.length r <= 10) ->
  (forall w p1 p2 r, searchMemoryLike stmts w p1 p2 = Returned r -> List.length r <= 10) ->
  fst (searchMemory stmts workspaceId query) = Returned rows ->
  List.length rows <= 10.
Proof.
  intros Hfts Hlike. unfold searchMemory.
  destruct (searchMemoryFts stmts workspaceId query) as [[|r rs]|[m|]] eqn:E; simpl.
  - apply Hlike.
  - intros H. injection H as <-. exact (Hfts _ _ _ E).
  - destruct (includes m (js "fts5: syntax error")); simpl; [apply Hlike|discriminate].
  - discriminate.
Qed.

(** C4, amended.  The full-text statement runs first.  Rows it finds are
    returned as they are.  When it returns no rows, or throws an [Error]
    whose message contains [fts5: syntax error], the [LIKE] statement runs
    with the query between two [%], escaped so that SQLite reads every
    character of the query as a literal, and its outcome is the result.
    Given that SQLite's errors with such a message are FTS syntax errors,
    the [LIKE] statement runs only after no rows or after an FTS syntax
    error, and a thrown value that is not an FTS syntax error is thrown on
    with nothing else run.  Both statements end in [LIMIT 10]: when neither
    returns more than ten rows, neither does [searchMemory]. *)
Theorem searchMemory_fallback (syntax_error : Thrown -> Prop) stmts workspaceId query :
  (forall message, includes message (js "fts5: syntax error") = true ->
                   syntax_error (ErrorObject message)) ->
  let fts := searchMemoryFts stmts workspaceId query in
  let result := fst (searchMemory stmts workspaceId query) in
  let calls := snd (searchMemory stmts workspaceId query) in
  let pattern := [PERCENT] ++ escapeLike query ++ [PERCENT] in
  hd_error calls = Some (RanFts workspaceId query) /\
  (forall rows, fts = Returned rows -> rows <> [] ->
                result = Returned rows /\ calls = [RanFts workspaceId query]) /\
  (fts = Returned [] ->
   calls = [RanFts workspaceId query; RanLike workspaceId pattern pattern] /\
   result = searchMemoryLike stmts workspaceId pattern pattern) /\
  (forall message,
     fts = Threw (ErrorObject message) ->
     includes message (js "fts5: syntax error") = true ->
     calls = [RanFts workspaceId query; RanLike workspaceId pattern pattern] /\
     result = searchMemoryLike stmts workspaceId pattern pattern) /\
  like_tokens pattern = AnyString :: List.map Literal query ++ [AnyString] /\
  (forall w p1 p2,
     In (RanLike w p1 p2) calls ->
     w = workspaceId /\ p1 = pattern /\ p2 = pattern /\
     result = searchMemoryLike stmts workspaceId pattern pattern /\
     (fts = Returned [] \/ exists t, fts = Threw t /\ syntax_error t)) /\
  (forall t, fts = Threw t -> ~ syntax_error t ->
             result = Threw t /\ calls = [RanFts workspaceId query]) /\
  ((forall w q rows, searchMemoryFts stmts w q = Returned rows ->
                     List.length rows <= 10) ->
   (forall w p1 p2 rows, searchMemoryLike stmts w p1 p2 = Returned rows ->
                         List.length rows <= 10) ->
   forall rows, result = Returned rows -> List.length rows <= 10).
Proof.
  intros Hmark. cbv zeta.
  assert (Hten := searchMemory_at_most_ten stmts workspaceId query).
  unfold searchMemory in *.
  split; [|split; [|split; [|split; [|split; [apply fallback_pattern_is_literal|split;
    [|split; [|intros H1 H2 rows; apply Hten; assumption]]]]]]].
  - destruct (searchMemoryFts stmts workspaceId query) as [[|r rows]|[m|]];
      simpl; try reflexivity;
      destruct (includes m (js "fts5: syntax error")); reflexivity.
  - intros rows Hfts Hne. rewrite Hfts. destruct rows; [contradiction|]. auto.
  - intros Hfts. rewrite Hfts. simpl. auto.
  - intros message Hfts Hinc. rewrite Hfts. simpl. rewrite Hinc. simpl. auto.
  - intros w p1 p2.
    destruct (searchMemoryFts stmts workspaceId query) as [[|r rows]|[m|]] eqn:Hfts;
      simpl.
    + intros [H|[H|[]]]; [discriminate|]. injection H as <- <- <-. auto 6.
    + intros [H|[]]. discriminate.
    + destruct (includes m (js "fts5: syntax error")) eqn:Hinc; simpl.
      * intros [H|[H|[]]]; [discriminate|]. injection H as <- <- <-.
        repeat split; try reflexivity. right. exists (ErrorObject m). auto.
      * intros [H|[]]. discriminate.
    + intros [H|[]]. discriminate.
  - intros t Hfts Hother. rewrite Hfts. destruct t as [m|]; simpl; [|auto].
    destruct (includes m (js "fts5: syntax error")) eqn:Hinc; simpl; [|auto].
    exfalso. apply Hother, Hmark, Hinc.
Qed.

(** A lost connection is no FTS syntax error, whatever else is one: the
    error is thrown on and the [LIKE] statement does not run. *)
Lemma searchMemory_fallback_witness :
  let broken := {| searchMemoryFts := fun _ _ => Threw (ErrorObject (js "disk I/O error"));
                   searchMemoryLike := fun _ _ _ => Returned [row1] |} in
  searchMemory broken "w" (js "hello") =
  (Threw (ErrorObject (js "disk I/O error")), [RanFts "w" (js "hello")]).
Proof.
  cbv zeta.
  set (broken := {| searchMemoryFts := fun _ _ => Threw (ErrorObject (js "disk I/O error"));
                    searchMemoryLike := fun _ _ _ => Returned [row1] |}).
  destruct (searchMemory_fallback
              (fun t => match t with
                        | ErrorObject m =>
                            includes m (js "fts5: syntax error") = true \/
                            includes m (js "unterminated string") = true
                        | NotAnError => False
                        end)
              broken "w" (js "hello")
              (fun m H => or_introl H))
    as (_ & _ & _ & _ & _ & _ & Hthrown & _).
  destruct (Hthrown (ErrorObject (js "disk I/O error")) eq_refl) as [Hr Hc].
  - intros [H|H]; vm_compute in H; discriminate H.
  - rewrite (surjective_pairing (searchMemory broken "w" (js "hello"))).
    rewrite Hr, Hc. reflexivity.
Defined.

Example searchMemory_scenario_E :
  let throws := {| searchMemoryFts := fun _ _ =>
                     Threw (ErrorObject (js "fts5: syntax error near ."));
                   searchMemoryLike := fun _ _ _ => Returned [row1] |} in
  searchMemory throws "w" (js "50%_off\") =
  (Returned [row1],
   [RanFts "w" (js "50%_off\");
    RanLike "w" (js "%50\%\_off\\%") (js "%50\%\_off\\%")]).
Proof. vm_compute. reflexivity. Qed.

(** An [Error] whose message lacks the marker is thrown on, whatever raised
    it: so is the [unterminated string] that FTS5 reports for a query with
    an unbalanced quote. *)
Example searchMemory_unterminated_string :
  let throws := {| searchMemoryFts := fun _ _ =>
                     Threw (ErrorObject (js "unterminated string"));
                   searchMemoryLike := fun _ _ _ => Returned [row1] |} in
  searchMemory throws "w" (js "'hello") =
  (Threw (ErrorObject (js "unterminated string")), [RanFts "w" (js "'hello")]).
Proof. vm_compute. reflexivity. Qed.

End DbFacts.

(** ** Killing a session *)

Section SupervisorFacts.

Import Supervisor.

Lemma stopContinuation_other e pid pid' :
  Continuation.wf e -> pid' <> pid ->
  Continuation.getContinuationState pid' (Continuation.stopContinuation pid e) =
  Continuation.getContinuationState pid' e.
Proof.
  intros W Hne. unfold Continuation.getContinuationState, Continuation.stopContinuation.
  destruct (Continuation.states e !! pid) as [o|] eqn:Hreg; [|reflexivity].
  destruct (Continuation.wf_registered e W _ _ Hreg) as (st & Ho & _ & Hp).
  rewrite Ho.
  destruct (Continuation.timer st); destruct (Continuation.onCancelled (Continuation.hooks st));
    simpl; rewrite lookup_delete_ne by congruence;
    (destruct (Continuation.states e !! pid') as [o'|] eqn:Hreg'; [|reflexivity]);
    (destruct (Continuation.wf_registered e W _ _ Hreg') as (st' & Ho' & _ & Hp'));
    (rewrite lookup_alter_ne; [reflexivity|]); intros <-; congruence.
Qed.

(** C7. [shell:kill] on a string ptyId always answers ok.  For a ptyId that
    is in the session map, [cleanupPtySession] removes the handle from the
    map, then calls [kill()] on that session's PTY, ends its agent-session
    row (its status becomes [ended] and its [ended_at] the time of the call,
    its other columns stay), deletes its checkpoint, clears its idle timer
    and stops its continuation, and leaves every other session's handle, process, row,
    checkpoint, timer and continuation as they were.  For a ptyId that is not
    in the map, in particular after a first call, it changes nothing. *)
Theorem shell_kill_is_idempotent :
  (forall s pid now, fst (shell_kill (Number.JString pid) now s) = Ok /\
                     snd (shell_kill (Number.JString pid) now s) = cleanupPtySession pid now s) /\
  (forall s pid now, ptySessions s !! pid = None -> cleanupPtySession pid now s = s) /\
  (forall s pid now now',
     cleanupPtySession pid now' (cleanupPtySession pid now s) = cleanupPtySession pid now s) /\
  (forall s pid now ptySession,
     ptySessions s !! pid = Some ptySession ->
     let s' := cleanupPtySession pid now s in
     ptySessions s' !! pid = None /\
     (exists rest, log s' = log s ++ Removed pid :: KillAttempted (pty ptySession) :: rest /\
                   In (SessionEnded (sessionId ptySession)) rest /\
                   In (CheckpointDeleted pid) rest /\
                   In (ContinuationStopped pid) rest) /\
     killed s' = killed s ∪ {[pty ptySession]} /\
     agent_sessions s' !! sessionId ptySession =
       (end_row now <$> (agent_sessions s !! sessionId ptySession)) /\
     (forall row, agent_sessions s !! sessionId ptySession = Some row ->
        exists row', agent_sessions s' !! sessionId ptySession = Some row' /\
          row_status row' = ended /\ endedAt row' = Some now /\
          row_workspaceId row' = row_workspaceId row /\
          row_cliType row' = row_cliType row /\
          row_goal row' = row_goal row /\
          iterationCount row' = iterationCount row) /\
     (pid ∉ continuation_state s') /\
     idleNotifTimers s' !! pid = None /\
     (forall t, idleNotifTimers s !! pid = Some t -> t ∉ pendingTimeouts s') /\
     (pid ∉ sessionHadActivity s') /\
     engine s' = Continuation.stopContinuation pid (engine s) /\
     (Continuation.wf (engine s) ->
      Continuation.getContinuationState pid (engine s') = None)) /\
  (forall s pid now pid',
     pid' <> pid ->
     let s' := cleanupPtySession pid now s in
     ptySessions s' !! pid' = ptySessions s !! pid' /\
     (forall h, (forall ptySession, ptySessions s !! pid = Some ptySession ->
                                    h <> pty ptySession) ->
                (h ∈ killed s' <-> h ∈ killed s)) /\
     (forall sid, (forall ptySession, ptySessions s !! pid = Some ptySession ->
                                      sid <> sessionId ptySession) ->
                  agent_sessions s' !! sid = agent_sessions s !! sid) /\
     (pid' ∈ continuation_state s' <-> pid' ∈ continuation_state s) /\
     idleNotifTimers s' !! pid' = idleNotifTimers s !! pid' /\
     (pid' ∈ sessionHadActivity s' <-> pid' ∈ sessionHadActivity s) /\
     (Continuation.wf (engine s) ->
      Continuation.getContinuationState pid' (engine s') =
      Continuation.getContinuationState pid' (engine s))).
Proof.
  split; [intros s pid now; split; reflexivity|].
  split; [intros s pid now H; unfold cleanupPtySession; rewrite H; reflexivity|].
  split.
  { intros s pid now now'. unfold cleanupPtySession at 1.
    destruct (ptySessions (cleanupPtySession pid now s) !! pid) as [x|] eqn:E;
      [|reflexivity].
    exfalso. unfold cleanupPtySession in E.
    destruct (ptySessions s !! pid) as [y|] eqn:E'; simpl in E.
    - rewrite lookup_delete_eq in E. discriminate.
    - congruence. }
  split.
  { intros s pid now ptySession H s'. subst s'. unfold cleanupPtySession. rewrite H. simpl.
    split; [apply lookup_delete_eq|].
    split.
    { eexists. split; [reflexivity|]. simpl.
      destruct (idleNotifTimers s !! pid); simpl; tauto. }
    split; [reflexivity|].
    split; [apply lookup_alter_eq|].
    split.
    { intros row Hrow. exists (end_row now row).
      rewrite lookup_alter_eq, Hrow. simpl. auto 8. }
    split; [rewrite elem_of_difference, elem_of_singleton; tauto|].
    split; [apply lookup_delete_eq|].
    split; [intros t Ht; rewrite Ht, elem_of_difference, elem_of_singleton; tauto|].
    split; [rewrite elem_of_difference, elem_of_singleton; tauto|].
    split; [reflexivity|].
    intros W. unfold Continuation.getContinuationState.
    rewrite stopContinuation_unregisters by assumption. reflexivity. }
  intros s pid now pid' Hne s'. subst s'. unfold cleanupPtySession.
  destruct (ptySessions s !! pid) as [ptySession|] eqn:H; simpl.
  - split; [apply lookup_delete_ne; congruence|].
    split; [intros h Hh; specialize (Hh _ eq_refl);
            rewrite elem_of_union, elem_of_singleton; tauto|].
    split; [intros sid Hs; specialize (Hs _ eq_refl); apply lookup_alter_ne; congruence|].
    split; [rewrite elem_of_difference, elem_of_singleton; tauto|].
    split; [apply lookup_delete_ne; congruence|].
    split; [rewrite elem_of_difference, elem_of_singleton; tauto|].
    intros W. apply stopContinuation_other; assumption.
  - repeat split; tauto.
Qed.

End SupervisorFacts.

(** ** Hidden runs and synthesis *)

Section SynthesisFacts.

Import Number Boundary Synthesis.

Variable sanitize : jstring -> jstring.

Abbreviation onEvent := (Synthesis.onEvent sanitize).
Abbreviation runHiddenClaudeOnce := (Synthesis.runHiddenClaudeOnce sanitize).
Abbreviation fanOutRun := (Synthesis.fanOutRun sanitize).
Abbreviation complete := (Synthesis.complete sanitize).
Abbreviation synthesis := (Synthesis.synthesis sanitize).

Lemma onEvent_child r ev : child (onEvent r ev) = child r.
Proof.
  unfold Synthesis.onEvent. destruct (child r) eqn:Hc; [|exact Hc].
  destruct ev; simpl; try exact Hc;
    destruct (finished r); destruct (timeoutArmed r); simpl; exact Hc.
Qed.

Lemma run_child r evs : child (fold_left onEvent evs r) = child r.
Proof.
  revert r. induction evs as [|ev evs IH]; intros r; simpl; [reflexivity|].
  rewrite IH. apply onEvent_child.
Qed.

(** A resolved promise keeps its value whatever happens later. *)
Lemma onEvent_resolved r ev v : resolved r = Some v -> resolved (onEvent r ev) = Some v.
Proof.
  intros Hr. unfold Synthesis.onEvent. destruct (child r); [|exact Hr].
  destruct ev; simpl; try exact Hr;
    destruct (finished r); destruct (timeoutArmed r); simpl; try exact Hr;
    rewrite Hr; reflexivity.
Qed.

Lemma run_resolved r evs v :
  resolved r = Some v -> resolved (fold_left onEvent evs r) = Some v.
Proof.
  revert r. induction evs as [|ev evs IH]; intros r Hr; simpl; [exact Hr|].
  apply IH. apply onEvent_resolved. exact Hr.
Qed.

Lemma start_ok goal cwd options err : run_ok (start goal cwd options err).
Proof.
  unfold start, run_ok. destruct err; simpl; split; intros H;
    try discriminate; auto; repeat split; discriminate.
Qed.

Lemma onEvent_ok r ev : run_ok r -> run_ok (onEvent r ev).
Proof.
  intros [Harmed Hdis]. unfold Synthesis.onEvent.
  destruct (child r) eqn:Hc;
    [|split; [intros H; destruct (Harmed H) as (_ & _ & Hn); contradiction
             |assumption]].
  destruct (timeoutArmed r) eqn:Ha.
  - destruct (Harmed eq_refl) as (Hf & Hr & _). rewrite Hf.
    destruct ev; unfold run_ok; simpl; rewrite ?Ha, ?Hr, ?Hc; simpl;
      split; intros H; try discriminate; auto; repeat split; congruence.
  - specialize (Hdis eq_refl).
    destruct ev; unfold run_ok; simpl; destruct (finished r); simpl; rewrite ?Ha;
      split; intros H; try discriminate; auto;
      destruct (resolved r); congruence.
Qed.

Lemma run_ok_fold r evs : run_ok r -> run_ok (fold_left onEvent evs r).
Proof.
  revert r. induction evs as [|ev evs IH]; intros r Hr; simpl; [exact Hr|].
  apply IH, onEvent_ok, Hr.
Qed.

Lemma watchdog_resolves r : run_ok r -> resolved (onEvent r TimeoutFires) <> None.
Proof.
  intros [Harmed Hdis]. unfold Synthesis.onEvent.
  destruct (child r) eqn:Hc.
  - destruct (timeoutArmed r) eqn:Ha; [|auto].
    destruct (Harmed eq_refl) as (Hf & Hr & _). rewrite Hf. simpl. rewrite Hr. discriminate.
  - destruct (timeoutArmed r) eqn:Ha; [|auto].
    destruct (Harmed eq_refl) as (_ & _ & Hne). contradiction.
Qed.

Lemma runHiddenClaudeOnce_resolves goal cwd options err evs :
  resolved (runHiddenClaudeOnce goal cwd options err evs) <> None.
Proof.
  unfold Synthesis.runHiddenClaudeOnce. rewrite fold_left_app. simpl.
  apply watchdog_resolves, run_ok_fold, start_ok.
Qed.

(** Output alone leaves the run as it started, but for the text collected. *)
Lemma still_running_fold evs : forall r,
  still_running evs = true ->
  let r' := fold_left onEvent evs r in
  finished r' = finished r /\ timeoutArmed r' = timeoutArmed r /\
  kills r' = kills r /\ resolved r' = resolved r /\ child r' = child r.
Proof.
  induction evs as [|ev evs IH]; intros r Hs; simpl; [auto|].
  simpl in Hs. apply andb_true_iff in Hs as [Hev Hs].
  destruct (IH (onEvent r ev) Hs) as (H1 & H2 & H3 & H4 & H5).
  rewrite H1, H2, H3, H4, H5. unfold Synthesis.onEvent.
  destruct (child r) eqn:Hc; [|rewrite Hc; repeat split; reflexivity].
  destruct ev; try discriminate; simpl; rewrite Hc; repeat split; reflexivity.
Qed.

Lemma timed_out_run goal cwd options evs :
  still_running evs = true ->
  let r := runHiddenClaudeOnce goal cwd options None evs in
  text r = js "(timed out)" /\ kills r = 1 /\ finished r = true /\
  timeoutArmed r = false.
Proof.
  intros Hs. unfold Synthesis.runHiddenClaudeOnce. rewrite fold_left_app.
  destruct (still_running_fold evs (start goal cwd options None) Hs)
    as (H1 & H2 & H3 & H4 & H5).
  cbv zeta in *.
  set (r0 := fold_left onEvent evs (start goal cwd options None)) in *.
  change (fold_left onEvent [TimeoutFires] r0) with (onEvent r0 TimeoutFires).
  unfold Synthesis.onEvent, text.
  rewrite H5, H2, H1. simpl. rewrite H3, H4. simpl. auto.
Qed.

(** *** The job *)

Lemma Qfloor_inject_Z k : Qfloor (inject_Z k) = k.
Proof. unfold Qfloor, inject_Z. simpl. apply Z.div_1_r. Qed.

Lemma countOf_clamped n :
  1 <= countOf n <= 12 /\ synthesisCount n = of_nat (countOf n).
Proof.
  unfold countOf. destruct (synthesisCount_clamped n) as (k & Hk & Hrange).
  rewrite Hk. unfold of_Z, of_nat. rewrite Qfloor_inject_Z.
  split; [lia|]. unfold of_Z. rewrite Z2Nat.id by lia. reflexivity.
Qed.

Lemma visible_app w (a b : list EnsembleEvent) :
  visible w (a ++ b) = visible w a ++ visible w b.
Proof. apply List.filter_app. Qed.

Lemma visible_progress w jid ws goal total cs :
  visible w (List.map (fun c => Progress jid ws goal c total) cs) =
  List.map (fun c => Progress jid ws goal c total) (List.filter (mainWindow w) cs).
Proof.
  induction cs as [|c cs IH]; [reflexivity|]. unfold visible in *. simpl.
  destruct (mainWindow w c); simpl; rewrite IH; reflexivity.
Qed.

Section Job.

Variables (w : World) (workspaceId workspacePath : string) (goal : jstring)
          (count : nat).

Abbreviation step := (complete w workspaceId goal workspacePath count).
Abbreviation progress := (fun c => Progress (jobId w) workspaceId goal c count).

Lemma complete_fold_events order : forall j,
  events (fold_left step order j) =
    events j ++
    visible w (List.map progress (seq (S (completed j)) (List.length order))) /\
  completed (fold_left step order j) = completed j + List.length order.
Proof.
  induction order as [|i order IH]; intros j; simpl.
  - rewrite app_nil_r. split; [reflexivity|lia].
  - destruct (IH (step j i)) as [He Hc]. rewrite He, Hc.
    unfold Synthesis.complete, send, visible. simpl.
    destruct (mainWindow w (S (completed j))); simpl;
      rewrite <- ?app_assoc; (split; [reflexivity|lia]).
Qed.

Lemma complete_fold_results order : forall j i,
  results (fold_left step order j) !! i =
  if in_dec Nat.eq_dec i order
  then Some (header i count ++ text (fanOutRun w goal workspacePath i))
  else results j !! i.
Proof.
  induction order as [|a order IH]; intros j i; simpl fold_left.
  - destruct (in_dec Nat.eq_dec i []) as [[]|_]. reflexivity.
  - rewrite IH.
    destruct (in_dec Nat.eq_dec i order) as [Hin|Hn];
      destruct (in_dec Nat.eq_dec i (a :: order)) as [Hin'|Hn'];
      try reflexivity.
    + exfalso. apply Hn'. right. exact Hin.
    + destruct Hin' as [->|Hin']; [|contradiction].
      unfold Synthesis.complete, send. simpl. apply lookup_insert_eq.
    + unfold Synthesis.complete, send.
      assert (a <> i) by (intros ->; apply Hn'; left; reflexivity).
      simpl. apply lookup_insert_ne; assumption.
Qed.

End Job.

Lemma progress_values_progress jid ws goal total cs :
  progress_values (List.map (fun c => Progress jid ws goal c total) cs) = cs.
Proof. induction cs as [|c cs IH]; simpl; [reflexivity|]. f_equal. exact IH. Qed.

Lemma done_events_progress jid ws goal total cs :
  done_events (List.map (fun c => Progress jid ws goal c total) cs) = [].
Proof. induction cs as [|c cs IH]; simpl; [reflexivity|exact IH]. Qed.

Lemma synthesis_emitted w ws wp goal n :
  List.length (completionOrder w) = countOf n ->
  emitted (synthesis w ws wp goal n) =
    visible w
      (List.map (fun c => Progress (jobId w) ws goal c (countOf n)) (seq 0 (S (countOf n))) ++
       [Done (jobId w) ws goal (uuid_text (randomUUID w)) (countOf n)]).
Proof.
  intros Hlen. unfold Synthesis.synthesis. simpl emitted.
  set (j0 := send w (Progress (jobId w) ws goal 0 (countOf n))
               {| results := ∅; completed := 0; events := [] |}).
  destruct (complete_fold_events w ws wp goal (countOf n) (completionOrder w) j0)
    as [He _].
  rewrite He, Hlen, visible_app.
  change (seq 0 (S (countOf n))) with (0 :: seq 1 (countOf n)).
  subst j0. unfold send, visible. cbn [events completed send_index List.map List.filter].
  destruct (mainWindow w 0); destruct (mainWindow w (S (countOf n)));
    cbn [List.app]; rewrite ?app_nil_r; reflexivity.
Qed.

(** The values let through from an increasing range are increasing and stay
    in the range. *)
Lemma filter_seq_increasing (f : nat -> bool) n : forall a i j x y,
  i < j ->
  nth_error (List.filter f (seq a n)) i = Some x ->
  nth_error (List.filter f (seq a n)) j = Some y ->
  x < y.
Proof.
  induction n as [|n IH]; intros a i j x y Hij Hx Hy; [destruct i; discriminate|].
  simpl in Hx, Hy. destruct (f a).
  - destruct j as [|j]; [lia|]. simpl in Hy.
    destruct i as [|i]; simpl in Hx.
    + injection Hx as <-. apply nth_error_In, List.filter_In in Hy as [Hy _].
      apply in_seq in Hy. lia.
    + apply (IH (S a) i j); [lia | assumption | assumption].
  - apply (IH (S a) i j); assumption.
Qed.

(** C8, amended.  A synthesis job whose fan-out runs all complete, in any
    order.  The run count is a whole number between 1 and 12.  Every event
    goes through [mainWindow?.webContents.send]: the events sent are, in
    order, those of progress 0, 1, ..., count and done at whose send the
    window exists, each with [total] = count.  So the [completed] values
    sent are strictly increasing and at most [total]; a done event is sent
    exactly when the window exists at the last send, never more than once,
    and after every progress event; with the window there throughout, every
    progress event and one done event are sent.  The done event carries the
    identifier drawn with [crypto.randomUUID()] for this job, which is not
    empty and is the one the job replies with. *)
Theorem synthesis_progress_then_done w ws wp goal n :
  Permutation (completionOrder w) (seq 0 (countOf n)) ->
  let out := synthesis w ws wp goal n in
  let total := countOf n in
  let sid := uuid_text (randomUUID w) in
  let progress := fun c => Progress (jobId w) ws goal c total in
  let done_event := Done (jobId w) ws goal sid total in
  1 <= total <= 12 /\
  synthesisCount n = of_nat total /\
  emitted out = visible w (List.map progress (seq 0 (S total)) ++ [done_event]) /\
  progress_values (emitted out) = List.filter (mainWindow w) (seq 0 (S total)) /\
  (forall i j x y, i < j ->
     nth_error (progress_values (emitted out)) i = Some x ->
     nth_error (progress_values (emitted out)) j = Some y -> x < y) /\
  (forall c, In c (progress_values (emitted out)) -> c <= total) /\
  done_events (emitted out) = (if mainWindow w (S total) then [done_event] else []) /\
  emitted out =
    List.map progress (progress_values (emitted out)) ++ done_events (emitted out) /\
  ((forall k, k <= S total -> mainWindow w k = true) ->
   emitted out = List.map progress (seq 0 (S total)) ++ [done_event]) /\
  (forall j ws' g sid' t, In (Done j ws' g sid' t) (emitted out) ->
                          sid' = sid /\ sid' <> "") /\
  String.length sid = 36 /\
  reply out = {| ok := true; count := total; reply_sessionId := sid;
                 reply_jobId := jobId w |}.
Proof.
  intros Hperm out total sid progress done_event.
  assert (Hlen : List.length (completionOrder w) = countOf n).
  { rewrite (Permutation_length Hperm). apply length_seq. }
  pose proof (synthesis_emitted w ws wp goal n Hlen) as Hem.
  fold out total sid progress done_event in Hem.
  destruct (countOf_clamped n) as [Hrange Hcount].
  assert (Hsid : sid <> "").
  { subst sid. pose proof (uuid_length (randomUUID w)) as Hl.
    destruct (uuid_text (randomUUID w)); [discriminate Hl | discriminate]. }
  assert (Hshape : emitted out =
            List.map progress (List.filter (mainWindow w) (seq 0 (S total))) ++
            (if mainWindow w (S total) then [done_event] else [])).
  { rewrite Hem, visible_app. unfold progress at 1. rewrite visible_progress.
    unfold visible. simpl. destruct (mainWindow w (S total)); reflexivity. }
  assert (Hpv : progress_values (emitted out) =
                List.filter (mainWindow w) (seq 0 (S total))).
  { rewrite Hshape. unfold progress_values. rewrite flat_map_app.
    fold (progress_values (List.map progress (List.filter (mainWindow w) (seq 0 (S total))))).
    unfold progress. rewrite progress_values_progress.
    destruct (mainWindow w (S total)); simpl; apply app_nil_r. }
  assert (Hde : done_events (emitted out) =
                (if mainWindow w (S total) then [done_event] else [])).
  { rewrite Hshape. unfold done_events. rewrite List.filter_app.
    fold (done_events (List.map progress (List.filter (mainWindow w) (seq 0 (S total))))).
    unfold progress. rewrite done_events_progress.
    destruct (mainWindow w (S total)); reflexivity. }
  split; [exact Hrange|]. split; [exact Hcount|]. split; [exact Hem|].
  split; [exact Hpv|].
  split; [rewrite Hpv; intros i j x y; apply filter_seq_increasing|].
  split.
  { rewrite Hpv. intros c Hc. apply List.filter_In in Hc as [Hc _].
    apply in_seq in Hc. lia. }
  split; [exact Hde|].
  split; [rewrite Hpv, Hde; exact Hshape|].
  split.
  { intros Hall. rewrite Hshape, (Hall (S total)) by lia.
    f_equal. f_equal. apply forallb_filter_id. apply forallb_forall.
    intros k Hk. apply in_seq in Hk. apply Hall. lia. }
  split.
  { intros j ws' g sid' t Hin. rewrite Hshape in Hin. apply in_app_or in Hin as [Hin|Hin].
    - apply in_map_iff in Hin as (c & Hc & _). discriminate.
    - destruct (mainWindow w (S total)); [|destruct Hin].
      destruct Hin as [Hin|[]]. unfold done_event in Hin.
      injection Hin as <- <- <- <- <-. auto. }
  split; [exact (uuid_length (randomUUID w)) | reflexivity].
Qed.

Lemma hiddenArgs_shape options :
  exists flags,
    hiddenArgs options = "-p" :: flags /\
    (flags = [] \/ flags = ["--no-session-persistence"] \/
     (exists sid, flags = ["--session-id"; sid]) \/
     (exists sid, flags = ["--no-session-persistence"; "--session-id"; sid])).
Proof.
  unfold hiddenArgs. destruct options as [[sid home nsp]|]; simpl.
  - destruct nsp as [[|]|]; destruct sid as [sid|]; simpl;
      try destruct (nonempty sid); simpl; eexists; (split; [reflexivity|]); eauto.
  - eexists. split; [reflexivity|]. auto.
Qed.

Lemma start_child goal cwd options err ch :
  child (start goal cwd options err) = Some ch ->
  err = None /\ command (call ch) = "claude" /\
  argv (call ch) = hiddenArgs options /\ stdin_end ch = Some goal /\
  stdio (call ch) = ["pipe"; "pipe"; "pipe"].
Proof.
  unfold start. destruct err; simpl; [discriminate|].
  intros H. injection H as <-. simpl. auto.
Qed.

Lemma runHiddenClaudeOnce_child goal cwd options err evs :
  child (runHiddenClaudeOnce goal cwd options err evs) =
  child (start goal cwd options err).
Proof. unfold Synthesis.runHiddenClaudeOnce. apply run_child. Qed.

Lemma onEvent_watchdogMs r ev : watchdogMs (onEvent r ev) = watchdogMs r.
Proof.
  unfold Synthesis.onEvent. destruct (child r); [|reflexivity].
  destruct ev; simpl; try reflexivity;
    destruct (finished r); destruct (timeoutArmed r); reflexivity.
Qed.

Lemma run_watchdogMs r evs : watchdogMs (fold_left onEvent evs r) = watchdogMs r.
Proof.
  revert r. induction evs as [|ev evs IH]; intros r; simpl; [reflexivity|].
  rewrite IH. apply onEvent_watchdogMs.
Qed.

Lemma uuid_nonempty (u : UUID) : nonempty (uuid_text u) = true.
Proof.
  pose proof (uuid_length u) as Hl. destruct (uuid_text u); [discriminate Hl|reflexivity].
Qed.

(** C9, amended.  A hidden run whose [spawnChild] does not throw has a
    child: [claude], with an argv of [-p] followed by flags that depend on
    the options alone ([--no-session-persistence], [--session-id <id>]); the
    prompt never enters the argv, it is written to the child's stdin in
    full, which is closed with it.  The watchdog is armed with 600000 ms, 10
    minutes; a child that has neither closed nor failed when it fires is
    killed once and its run resolves with [(timed out)]; a run always
    resolves, and keeps the value it first resolved with.  In a synthesis
    job every fan-out child gets [-p --no-session-persistence] and the goal
    on stdin, the final child gets [-p --session-id <uuid>] and the
    synthesis prompt on stdin; a run that timed out leaves its header line
    followed by [(timed out)] in its slot, and the job still replies ok and
    sends its done event if the window exists. *)
Theorem hidden_run_stdin_and_watchdog :
  (forall options, exists flags,
     hiddenArgs options = "-p" :: flags /\
     (flags = [] \/ flags = ["--no-session-persistence"] \/
      (exists sid, flags = ["--session-id"; sid]) \/
      (exists sid, flags = ["--no-session-persistence"; "--session-id"; sid]))) /\
  (forall goal cwd options evs, exists ch,
     child (runHiddenClaudeOnce goal cwd options None evs) = Some ch /\
     command (call ch) = "claude" /\ argv (call ch) = hiddenArgs options /\
     spawn_cwd (call ch) = cwd /\ stdio (call ch) = ["pipe"; "pipe"; "pipe"] /\
     stdin_end ch = Some goal) /\
  (forall goal cwd options msg evs,
     let r := runHiddenClaudeOnce goal cwd options (Some msg) evs in
     child r = None /\ watchdogMs r = None /\ kills r = 0 /\
     text r = js "(runner error: " ++ msg ++ js ")") /\
  (forall goal cwd options err evs ch,
     child (runHiddenClaudeOnce goal cwd options err evs) = Some ch ->
     command (call ch) = "claude" /\ argv (call ch) = hiddenArgs options /\
     stdin_end ch = Some goal) /\
  (forall goal goal' cwd options err evs evs',
     option_map (fun ch => argv (call ch))
       (child (runHiddenClaudeOnce goal cwd options err evs)) =
     option_map (fun ch => argv (call ch))
       (child (runHiddenClaudeOnce goal' cwd options err evs'))) /\
  (forall goal cwd options evs,
     watchdogMs (runHiddenClaudeOnce goal cwd options None evs) =
     Some (10 * 60 * 1000)%Z) /\
  (forall goal cwd options evs,
     still_running evs = true ->
     let r := runHiddenClaudeOnce goal cwd options None evs in
     text r = js "(timed out)" /\ kills r = 1 /\ finished r = true) /\
  (forall goal cwd options err evs,
     resolved (runHiddenClaudeOnce goal cwd options err evs) <> None) /\
  (forall r ev v, resolved r = Some v -> resolved (onEvent r ev) = Some v) /\
  (forall w ws wp goal n i,
     i < countOf n -> spawnErrors w i = None ->
     exists r ch,
       nth_error (fanOut (synthesis w ws wp goal n)) i = Some r /\
       child r = Some ch /\
       argv (call ch) = ["-p"; "--no-session-persistence"] /\
       stdin_end ch = Some goal) /\
  (forall w ws wp goal n r ch,
     In r (fanOut (synthesis w ws wp goal n)) -> child r = Some ch ->
     argv (call ch) = ["-p"; "--no-session-persistence"] /\
     stdin_end ch = Some goal) /\
  (forall w ws wp goal n,
     finalSpawnError w = None ->
     exists ch j,
       child (final (synthesis w ws wp goal n)) = Some ch /\
       argv (call ch) = ["-p"; "--session-id"; uuid_text (randomUUID w)] /\
       results j = slots (synthesis w ws wp goal n) /\
       stdin_end ch = Some (synthPrompt (countOf n) j)) /\
  (forall w ws wp goal n i,
     Permutation (completionOrder w) (seq 0 (countOf n)) ->
     i < countOf n ->
     spawnErrors w i = None ->
     still_running (childEvents w i) = true ->
     let out := synthesis w ws wp goal n in
     slots out !! i = Some (header i (countOf n) ++ js "(timed out)") /\
     ok (reply out) = true /\
     done_events (emitted out) =
       (if mainWindow w (S (countOf n))
        then [Done (jobId w) ws goal (uuid_text (randomUUID w)) (countOf n)]
        else [])).
Proof.
  split; [exact hiddenArgs_shape|].
  split.
  { intros goal cwd options evs. rewrite runHiddenClaudeOnce_child. unfold start.
    eexists. split; [reflexivity|]. simpl. auto 6. }
  split.
  { intros goal cwd options msg evs r. subst r.
    unfold text, Synthesis.runHiddenClaudeOnce.
    set (r0 := start goal cwd options (Some msg)).
    assert (Hfix : forall l, fold_left onEvent l r0 = r0).
    { induction l as [|ev l IH]; [reflexivity|]. simpl. exact IH. }
    rewrite Hfix. subst r0. simpl. auto. }
  split.
  { intros goal cwd options err evs ch H. rewrite runHiddenClaudeOnce_child in H.
    apply start_child in H. tauto. }
  split.
  { intros goal goal' cwd options err evs evs'. rewrite !runHiddenClaudeOnce_child.
    unfold start. destruct err; reflexivity. }
  split.
  { intros goal cwd options evs. unfold Synthesis.runHiddenClaudeOnce.
    rewrite run_watchdogMs. reflexivity. }
  split.
  { intros goal cwd options evs Hs. pose proof (timed_out_run goal cwd options evs Hs) as H.
    cbv zeta in *. tauto. }
  split; [exact runHiddenClaudeOnce_resolves|].
  split; [exact onEvent_resolved|].
  split.
  { intros w ws wp goal n i Hi Herr. unfold Synthesis.synthesis. cbn [fanOut].
    assert (Hc : exists ch, child (fanOutRun w goal wp i) = Some ch /\
                   argv (call ch) = ["-p"; "--no-session-persistence"] /\
                   stdin_end ch = Some goal).
    { unfold Synthesis.fanOutRun. rewrite runHiddenClaudeOnce_child, Herr.
      unfold start. eexists. split; [reflexivity|]. split; reflexivity. }
    destruct Hc as (ch & Hc & Hargv & Hin).
    exists (fanOutRun w goal wp i), ch. split; [|auto].
    rewrite nth_error_map, nth_error_seq.
    destruct (Nat.ltb_spec i (countOf n)) as [_|Hge]; [reflexivity|lia]. }
  split.
  { intros w ws wp goal n r ch Hin Hch. unfold Synthesis.synthesis in Hin. simpl in Hin.
    apply in_map_iff in Hin as (i & <- & _).
    unfold Synthesis.fanOutRun in Hch. rewrite runHiddenClaudeOnce_child in Hch.
    apply start_child in Hch as (_ & _ & Hargv & Hin & _). split; assumption. }
  split.
  { intros w ws wp goal n Herr. unfold Synthesis.synthesis. cbn [final slots].
    rewrite runHiddenClaudeOnce_child, Herr. unfold start.
    eexists. eexists. split; [reflexivity|]. cbn [call argv stdin_end].
    split.
    - unfold hiddenArgs. cbn [noSessionPersistence sessionId].
      rewrite uuid_nonempty. reflexivity.
    - split; [|reflexivity]. unfold send. destruct (mainWindow w _); reflexivity. }
  intros w ws wp goal n i Hperm Hi Herr Hs out.
  assert (Hlen : List.length (completionOrder w) = countOf n).
  { rewrite (Permutation_length Hperm). apply length_seq. }
  split; [|split; [reflexivity|]].
  - subst out. unfold Synthesis.synthesis. cbn [slots].
    unfold send at 1. cbn [results]. rewrite complete_fold_results.
    destruct (in_dec Nat.eq_dec i (completionOrder w)) as [_|Hn].
    + unfold Synthesis.fanOutRun. rewrite Herr.
      destruct (timed_out_run goal wp (fanOutOptions w i) (childEvents w i) Hs) as [Ht _].
      rewrite Ht. reflexivity.
    + exfalso. apply Hn. apply (Permutation_in i (Permutation_sym Hperm)).
      apply in_seq. lia.
  - subst out. rewrite (synthesis_emitted w ws wp goal n Hlen), visible_app.
    unfold done_events. rewrite List.filter_app, visible_progress.
    fold (done_events (List.map (fun c => Progress (jobId w) ws goal c (countOf n))
                         (List.filter (mainWindow w) (seq 0 (S (countOf n)))))).
    rewrite done_events_progress. unfold visible. simpl.
    destruct (mainWindow w (S (countOf n))); reflexivity.
Qed.

End SynthesisFacts.

Lemma synthesis_progress_then_done_witness :
  let out := Synthesis.synthesis (fun x => x) Synthesis.scenario_F "w" "/repo"
               (js "goal") (Number.JNumber (Number.of_Z 2)) in
  Synthesis.progress_values (Synthesis.emitted out) = [0; 1; 2] /\
  Synthesis.done_events (Synthesis.emitted out) =
    [Synthesis.Done "J" "w" (js "goal") "123e4567-e89b-42d3-a456-426614174000" 2].
Proof.
  cbv zeta.
  pose proof (synthesis_progress_then_done (fun x => x) Synthesis.scenario_F "w" "/repo"
                (js "goal") (Number.JNumber (Number.of_Z 2))
                ltac:(vm_compute; apply perm_swap))
    as (_ & _ & _ & Hp & _ & _ & Hd & _).
  split; [exact Hp | exact Hd].
Defined.

(** C8 (where the claim fails).  Scenario F with the window closed: the job
    succeeds, no event is sent, and so there is not exactly one done event
    and no progress event reaches [total]. *)
Lemma windowless_job_emits_no_done_event :
  let out := Synthesis.synthesis (fun x => x)
               (SynthesisRuns.with_window false Synthesis.scenario_F) "w" "/repo"
               (js "goal") (Number.JNumber (Number.of_Z 2)) in
  Synthesis.ok (Synthesis.reply out) = true /\
  Synthesis.emitted out = [] /\
  List.length (Synthesis.done_events (Synthesis.emitted out)) <> 1 /\
  ~ In 2 (Synthesis.progress_values (Synthesis.emitted out)).
Proof.
  cbv zeta. split; [reflexivity|]. split; [reflexivity|].
  split; [discriminate | intros []].
Qed.

(** C9 (where the claim fails).  A job of one run that times out: its slot
    holds the header line and [(timed out)] under it, not the string
    [(timed out)]. *)
Lemma timed_out_slot_keeps_header :
  let out := Synthesis.synthesis (fun x => x) Synthesis.scenario_timeout "w" "/repo"
               (js "goal") (Number.JNumber (Number.of_Z 1)) in
  Synthesis.still_running (Synthesis.childEvents Synthesis.scenario_timeout 0) = true /\
  Synthesis.text (Synthesis.fanOutRun (fun x => x) Synthesis.scenario_timeout
                    (js "goal") "/repo" 0) = js "(timed out)" /\
  Synthesis.slots out !! 0 =
    Some (js "=== Claude 1/1 ===" ++ [Js.LF] ++ js "(timed out)") /\
  Synthesis.slots out !! 0 <> Some (js "(timed out)").
Proof.
  cbv zeta. split; [reflexivity|]. split; [vm_compute; reflexivity|].
  assert (H : Synthesis.slots
                (Synthesis.synthesis (fun x => x) Synthesis.scenario_timeout "w" "/repo"
                   (js "goal") (Number.JNumber (Number.of_Z 1))) !! 0 =
              Some (js "=== Claude 1/1 ===" ++ [Js.LF] ++ js "(timed out)")).
  { vm_compute. reflexivity. }
  split; [exact H|]. rewrite H. intros Heq. discriminate Heq.
Qed.

(** ** The scenarios of the specification, evaluated *)

Section Scenarios.

Import Number Continuation.

Example regex_word_boundaries :
  test (b_b "plan") (js "a Plan.") = true /\
  test (b_b "plan") (js "planet") = false /\
  test (b_ "architect") (js "ARCHITECTURE") = true /\
  test (b_b "ui") (js "build it") = false.
Proof. repeat split; vm_compute; reflexivity. Qed.

Example idle_prompts :
  isAtPrompt (js "hello" ++ [LF; 10095; 32]%N) = true /\
  isAtPrompt (js "user@host:~/repo$ ") = true /\
  isAtPrompt (js "C:\Users\me> ") = true /\
  isAtPrompt (js "Gemini>") = true /\
  isAtPrompt (js "__FORGE_ONE_SHOT_DONE__" ++ [LF]) = true /\
  isAtPrompt (js "still working...") = false.
Proof. repeat split; vm_compute; reflexivity. Qed.

Example done_patterns :
  some_test DONE_PATTERNS (js "ok: All Tasks Completed.") = true /\
  some_test DONE_PATTERNS (js "<Promise>done</PROMISE>") = true /\
  some_test DONE_PATTERNS (js "task completed") = false.
Proof. repeat split; vm_compute; reflexivity. Qed.

(** Scenario A. *)
Example route_refactor :
  let r := Router.routeTask (js "help me refactor the auth module") None in
  Router.cli r = Router.claude /\ Router.category r = Router.deep /\
  PrimFloat.ltb 0 (Router.confidence r) = true.
Proof. repeat split; vm_compute; reflexivity. Qed.

(** Scenario C. *)
Example scenario_C_events :
  List.map snd (trace (run scenario_C)) =
  [ HookIteration "p" 1 (of_Z 3); SendIteration "p" 1 (of_Z 3); CallOnContinue "p";
    HookIteration "p" 2 (of_Z 3); SendIteration "p" 2 (of_Z 3); CallOnContinue "p";
    HookIteration "p" 3 (of_Z 3); SendIteration "p" 3 (of_Z 3); CallOnContinue "p";
    Became max_reached; HookMaxReached "p" 3 "x"; SendMaxReached "p" 3 "x" ].
Proof. vm_compute. reflexivity. Qed.

(** Scenario D: the second reply announces completion. *)
Example scenario_D_events :
  List.map snd
    (trace (run (firstn 3 scenario_C ++
                 [ (PtyData "p" (js "all tasks completed" ++ [LF; 10095; 32]%N), false);
                   (TimerFires 3, false) ]))) =
  [ HookIteration "p" 1 (of_Z 3); SendIteration "p" 1 (of_Z 3); CallOnContinue "p";
    Became done; HookDone "p" 1; SendDone "p" 1 ].
Proof. vm_compute. reflexivity. Qed.

(** Scenario F. *)
Example scenario_F_outcome :
  let out := Synthesis.synthesis (fun x => x) Synthesis.scenario_F "w" "/repo"
               (js "goal") (JNumber (of_Z 2)) in
  Synthesis.emitted out =
    [ Synthesis.Progress "J" "w" (js "goal") 0 2;
      Synthesis.Progress "J" "w" (js "goal") 1 2;
      Synthesis.Progress "J" "w" (js "goal") 2 2;
      Synthesis.Done "J" "w" (js "goal") "123e4567-e89b-42d3-a456-426614174000" 2 ] /\
  Synthesis.slots out !! 0 = Some (js "=== Claude 1/2 ===" ++ [LF] ++ js "A1") /\
  Synthesis.slots out !! 1 = Some (js "=== Claude 2/2 ===" ++ [LF] ++ js "A2") /\
  Synthesis.text (Synthesis.final out) = js "final".
Proof. repeat split; vm_compute; reflexivity. Qed.

(** Scenario F with the window closed after the first run completed: the
    job goes on and replies, the later events are not sent. *)
Example scenario_F_window_closed_midway :
  let out := Synthesis.synthesis (fun x => x)
               (SynthesisRuns.with_window_until 2 Synthesis.scenario_F) "w" "/repo"
               (js "goal") (JNumber (of_Z 2)) in
  Synthesis.emitted out =
    [ Synthesis.Progress "J" "w" (js "goal") 0 2;
      Synthesis.Progress "J" "w" (js "goal") 1 2 ] /\
  Synthesis.slots out !! 1 = Some (js "=== Claude 2/2 ===" ++ [LF] ++ js "A2") /\
  Synthesis.text (Synthesis.final out) = js "final" /\
  Synthesis.ok (Synthesis.reply out) = true.
Proof. repeat split; vm_compute; reflexivity. Qed.

End Scenarios.

(** ** The continuation engine: state objects and terminal runs *)

Section ContinuationInvFacts.

Import Js Continuation Number ContinuationInv.

Lemma ok_alter h o f :
  heap_ok h ->
  (forall st, h !! o = Some st -> state_ok st -> state_ok (f st)) ->
  heap_ok (alter f o h).
Proof.
  intros Hok Hf o' st'. rewrite lookup_alter.
  destruct (decide (o = o')) as [<-|Hne]; [|apply Hok].
  destruct (h !! o) as [st|] eqn:Ho; simpl; [|discriminate].
  intros [= <-]. apply Hf; [reflexivity|]. exact (Hok _ _ Ho).
Qed.

Lemma ok_insert h o st : heap_ok h -> state_ok st -> heap_ok (<[o := st]> h).
Proof.
  intros Hok Hst o' st'. rewrite lookup_insert.
  destruct (decide (o = o')) as [<-|Hne]; [|apply Hok].
  intros [= <-]. exact Hst.
Qed.

Lemma ok_set_timer t st : state_ok st -> state_ok (set_timer t st).
Proof. exact (fun H => H). Qed.

Lemma ok_set_status s st :
  s <> max_reached -> state_ok st -> state_ok (set_status s st).
Proof.
  intros Hs (Hb & Hd & _). repeat split; [exact Hb | exact Hd |].
  simpl. intros ->. contradiction.
Qed.

Lemma heap_ok_scheduleCheck e o :
  heap_ok (heap e) -> heap_ok (heap (scheduleCheck o e)).
Proof.
  intros Hok. unfold scheduleCheck.
  destruct (heap e !! o) as [st|]; [|exact Hok].
  destruct (status st); try exact Hok.
  simpl. apply ok_alter; [exact Hok|]. intros; apply ok_set_timer; assumption.
Qed.

Lemma heap_ok_stopContinuation e pid :
  heap_ok (heap e) -> heap_ok (heap (stopContinuation pid e)).
Proof.
  intros Hok. unfold stopContinuation.
  destruct (states e !! pid) as [o|]; [|exact Hok].
  destruct (heap e !! o) as [st|]; [|exact Hok].
  assert (H : heap_ok (alter (set_status cancelled) o (heap e))).
  { apply ok_alter; [exact Hok|]. intros; apply ok_set_status; [discriminate|assumption]. }
  destruct (timer st); destruct (onCancelled (hooks st)); exact H.
Qed.

Lemma heap_ok_runIteration e o destroyed :
  heap_ok (heap e) -> heap_ok (heap (runIteration o destroyed e)).
Proof.
  intros Hok. unfold runIteration.
  destruct (heap e !! o) as [st|] eqn:Ho; [|exact Hok].
  destruct (status st) eqn:Hrun; try exact Hok.
  destruct destroyed; [apply heap_ok_stopContinuation; exact Hok|].
  destruct (ge (of_nat (currentIteration st)) (maxIterations st)) eqn:Hcap.
  - assert (H : heap_ok (alter (set_status max_reached) o (heap e))).
    { apply ok_alter; [exact Hok|]. intros st' Hst' (Hb & Hd & _).
      assert (st' = st) as -> by congruence.
      repeat split; [exact Hb | exact Hd | intros _; exact Hcap]. }
    destruct (onMaxReached (hooks st)); exact H.
  - apply heap_ok_scheduleCheck.
    assert (H : heap_ok (alter (set_outputBuffer [])  o
                           (alter (set_currentIteration (S (currentIteration st))) o
                              (heap e)))).
    { apply ok_alter; [apply ok_alter; [exact Hok|]|].
      - intros st' Hst' (Hb & Hd & _).
        assert (st' = st) as -> by congruence.
        repeat split; [exact Hb | exact Hd |]. simpl. congruence.
      - intros st' _ (_ & Hd & Hm). repeat split; [|exact Hd | exact Hm].
        simpl. unfold MAX_BUFFER_SIZE. lia. }
    destruct (onIteration (hooks st)); exact H.
Qed.

Lemma heap_ok_checkAndContinue e o destroyed :
  heap_ok (heap e) -> heap_ok (heap (checkAndContinue o destroyed e)).
Proof.
  intros Hok. unfold checkAndContinue.
  destruct (heap e !! o) as [st|] eqn:Ho; [|exact Hok].
  destruct (status st) eqn:Hrun; try exact Hok.
  destruct destroyed; [apply heap_ok_stopContinuation; exact Hok|].
  destruct (some_test DONE_PATTERNS (outputBuffer st)).
  - assert (H : heap_ok (alter (set_status done) o (heap e))).
    { apply ok_alter; [exact Hok|].
      intros; apply ok_set_status; [discriminate|assumption]. }
    destruct (onDone (hooks st)); exact H.
  - destruct (requirePrompt st && negb (isAtPrompt (outputBuffer st))).
    + apply heap_ok_scheduleCheck; exact Hok.
    + apply heap_ok_runIteration; exact Hok.
Qed.

Lemma heap_ok_timerFires e t destroyed :
  heap_ok (heap e) -> heap_ok (heap (timerFires t destroyed e)).
Proof.
  intros Hok. unfold timerFires.
  destruct (timers e !! t) as [[o d]|]; [|exact Hok].
  apply heap_ok_checkAndContinue. simpl.
  apply ok_alter; [exact Hok|]. intros; apply ok_set_timer; assumption.
Qed.

Lemma heap_ok_onPtyData e pid data :
  heap_ok (heap e) -> heap_ok (heap (onPtyData pid data e)).
Proof.
  intros Hok. unfold onPtyData.
  destruct (states e !! pid) as [o|]; [|exact Hok].
  destruct (heap e !! o) as [st|] eqn:Ho; [|exact Hok].
  destruct (status st) eqn:Hrun; try exact Hok.
  apply heap_ok_scheduleCheck.
  match goal with |- context [set_outputBuffer ?b] => set (buf := b) end.
  assert (H : heap_ok (alter (set_outputBuffer buf) o (heap e))).
  { apply ok_alter; [exact Hok|]. intros st' _ (_ & Hd & Hm).
    repeat split; [|exact Hd | exact Hm]. simpl. subst buf.
    apply (trimmed_length (outputBuffer st ++ data)). }
  destruct (timer st); simpl; [|exact H].
  apply ok_alter; [exact H|]. intros; apply ok_set_timer; assumption.
Qed.

Lemma heap_ok_startContinuation e pid g m hks options destroyed :
  heap_ok (heap e) ->
  heap_ok (heap (startContinuation pid g m hks options destroyed e)).
Proof.
  intros Hok. unfold startContinuation.
  pose proof (heap_ok_stopContinuation e pid Hok) as H1.
  match goal with
  | |- context [runIteration _ _ ?x] => set (e2 := x)
  end.
  assert (H2 : heap_ok (heap e2)).
  { subst e2. cbn [heap]. apply ok_insert; [exact H1|].
    repeat split; [simpl; unfold MAX_BUFFER_SIZE; lia | | discriminate].
    cbn [quietDelayMs].
    destruct (opt_quietDelayMs options) as [d|]; [|reflexivity].
    destruct (ge d (of_Z 250)) eqn:Hd; [exact Hd | reflexivity]. }
  destruct (truthy (kickOff options)).
  - apply heap_ok_runIteration; exact H2.
  - apply heap_ok_scheduleCheck; exact H2.
Qed.

Lemma heap_ok_run inputs : heap_ok (heap (run inputs)).
Proof.
  unfold run. rewrite <- fold_left_rev_right.
  induction (rev inputs) as [|[i destroyed] l IH]; simpl.
  - intros o st H. rewrite lookup_empty in H. discriminate.
  - unfold step at 1. simpl. destruct i.
    + apply heap_ok_startContinuation; exact IH.
    + apply heap_ok_stopContinuation; exact IH.
    + apply heap_ok_onPtyData; exact IH.
    + apply heap_ok_timerFires; exact IH.
Qed.


(** *** What an entry point leaves alone *)

Lemma only_refl o e : only o e e.
Proof. intros o' _. split; reflexivity. Qed.

Lemma only_same o e e1 e2 :
  heap e2 = heap e1 -> trace e2 = trace e1 -> only o e e1 -> only o e e2.
Proof. intros Hh Ht H o' Hne. rewrite Hh, Ht. apply H. exact Hne. Qed.

Lemma only_with_states m o e e1 : only o e e1 -> only o e (with_states m e1).
Proof. apply only_same; reflexivity. Qed.

Lemma only_with_timers ts o e e1 : only o e e1 -> only o e (with_timers ts e1).
Proof. apply only_same; reflexivity. Qed.

Lemma only_setTimeout o' d o e e1 : only o e e1 -> only o e (setTimeout o' d e1).
Proof. apply only_same; reflexivity. Qed.

Lemma only_update o f e e1 : only o e e1 -> only o e (update o f e1).
Proof.
  intros H o' Hne. destruct (H o' Hne) as [Hh Ht]. split; [|exact Ht].
  simpl. rewrite lookup_alter_ne by congruence. exact Hh.
Qed.

Lemma only_emit o ev e e1 : only o e e1 -> only o e (emit o ev e1).
Proof.
  intros H o' Hne. destruct (H o' Hne) as [Hh Ht]. split; [exact Hh|].
  simpl. rewrite events_of_app, Ht.
  change [(o, ev)] with (List.map (pair o) [ev]).
  rewrite (events_of_other o o' [ev]) by congruence. apply app_nil_r.
Qed.

Lemma only_emit_if b o ev e e1 : only o e e1 -> only o e (emit_if b o ev e1).
Proof. destruct b; [apply only_emit | exact (fun H => H)]. Qed.

Lemma only_scheduleCheck o e e1 : only o e e1 -> only o e (scheduleCheck o e1).
Proof.
  intros H. unfold scheduleCheck.
  destruct (heap e1 !! o) as [st|]; [|exact H].
  destruct (status st); try exact H.
  apply only_update, only_setTimeout, H.
Qed.

Lemma only_stopContinuation pid o e e1 :
  only o e e1 -> states e1 !! pid = Some o -> only o e (stopContinuation pid e1).
Proof.
  intros H Hreg. unfold stopContinuation. rewrite Hreg.
  destruct (heap e1 !! o) as [st|]; [|exact H].
  apply only_with_states, only_emit_if, only_emit, only_update.
  destruct (timer st); [|exact H].
  apply only_with_timers, H.
Qed.

Lemma only_runIteration o destroyed e e1 :
  only o e e1 -> registered_if_running o e1 -> only o e (runIteration o destroyed e1).
Proof.
  intros H Hreg. unfold runIteration.
  destruct (heap e1 !! o) as [st|] eqn:Ho; [|exact H].
  destruct (status st) eqn:Hrun; try exact H.
  destruct destroyed; [apply only_stopContinuation; [exact H | exact (Hreg _ Ho Hrun)]|].
  destruct (ge (of_nat (currentIteration st)) (maxIterations st)).
  - apply only_emit, only_emit_if, only_with_states, only_emit, only_update, H.
  - apply only_scheduleCheck, only_emit, only_emit, only_emit_if.
    apply only_update, only_update, H.
Qed.

Lemma only_checkAndContinue o destroyed e e1 :
  only o e e1 -> registered_if_running o e1 ->
  only o e (checkAndContinue o destroyed e1).
Proof.
  intros H Hreg. unfold checkAndContinue.
  destruct (heap e1 !! o) as [st|] eqn:Ho; [|exact H].
  destruct (status st) eqn:Hrun; try exact H.
  destruct destroyed; [apply only_stopContinuation; [exact H | exact (Hreg _ Ho Hrun)]|].
  destruct (some_test DONE_PATTERNS (outputBuffer st)).
  - apply only_emit, only_emit_if, only_with_states, only_emit, only_update, H.
  - destruct (requirePrompt st && negb (isAtPrompt (outputBuffer st))).
    + apply only_scheduleCheck, H.
    + apply only_runIteration; assumption.
Qed.

Lemma frozen_refl e : frozen e e.
Proof. intros o st Ho _. split; [exact Ho | reflexivity]. Qed.

Lemma frozen_trans e1 e2 e3 : frozen e1 e2 -> frozen e2 e3 -> frozen e1 e3.
Proof.
  intros H12 H23 o st Ho Hnr. destruct (H12 o st Ho Hnr) as [Ho2 Ht2].
  destruct (H23 o st Ho2 Hnr) as [Ho3 Ht3]. split; [exact Ho3 | congruence].
Qed.

Lemma frozen_only o e e' :
  only o e e' -> (forall st, heap e !! o = Some st -> status st = running) ->
  frozen e e'.
Proof.
  intros H Hrun o' st Ho' Hnr. destruct (decide (o' = o)) as [->|Hne].
  - exfalso. apply Hnr. exact (Hrun st Ho').
  - destruct (H o' Hne) as [Hh Ht]. split; [rewrite Hh; exact Ho' | exact Ht].
Qed.

Lemma frozen_stopContinuation e pid : wf e -> frozen e (stopContinuation pid e).
Proof.
  intros W. destruct (states e !! pid) as [o|] eqn:Hreg.
  - destruct (wf_registered e W _ _ Hreg) as (st & Ho & Hrun & _).
    apply (frozen_only o).
    + apply only_stopContinuation; [apply only_refl | exact Hreg].
    + intros st' Ho'. congruence.
  - unfold stopContinuation. rewrite Hreg. apply frozen_refl.
Qed.

Lemma frozen_onPtyData e pid data : wf e -> frozen e (onPtyData pid data e).
Proof.
  intros W. unfold onPtyData.
  destruct (states e !! pid) as [o|]; [|apply frozen_refl].
  destruct (heap e !! o) as [st|] eqn:Ho; [|apply frozen_refl].
  destruct (status st) eqn:Hrun; try apply frozen_refl.
  apply (frozen_only o); [|intros st' Ho'; congruence].
  apply only_scheduleCheck. destruct (timer st).
  - apply only_update, only_with_timers, only_update, only_refl.
  - apply only_update, only_refl.
Qed.

Lemma frozen_timerFires e t destroyed : wf e -> frozen e (timerFires t destroyed e).
Proof.
  intros W. unfold timerFires.
  destruct (timers e !! t) as [[o d]|] eqn:Ht; [|apply frozen_refl].
  destruct (wf_timers e W _ _ _ Ht) as (st & Ho & Hrun & _).
  apply (frozen_only o); [|intros st' Ho'; congruence].
  apply only_checkAndContinue.
  - apply only_update, only_with_timers, only_refl.
  - intros st'. simpl. rewrite lookup_alter_eq, Ho. simpl. intros [= <-] _.
    exact (wf_running e W _ _ Ho Hrun).
Qed.

Lemma frozen_start_after_stop e pid g m hks options destroyed :
  wf e ->
  frozen (stopContinuation pid e) (startContinuation pid g m hks options destroyed e).
Proof.
  intros W. pose proof (wf_stopContinuation e pid W) as W1.
  unfold startContinuation. set (e1 := stopContinuation pid e) in *.
  match goal with
  | |- context [runIteration _ _ ?x] => set (e2 := x)
  end.
  assert (Hfinal : only (next_obj e1) e2
            (if truthy (kickOff options) then runIteration (next_obj e1) destroyed e2
             else scheduleCheck (next_obj e1) e2)).
  { destruct (truthy (kickOff options)).
    - apply only_runIteration; [apply only_refl|].
      intros st. subst e2. cbn [heap states]. rewrite lookup_insert_eq.
      intros [= <-] _. cbn [ptyId]. apply lookup_insert_eq.
    - apply only_scheduleCheck, only_refl. }
  intros o st Ho Hnr.
  assert (Hne : o <> next_obj e1).
  { pose proof (wf_alloc e1 W1 _ _ Ho). lia. }
  destruct (Hfinal o Hne) as [Hh Ht]. rewrite Hh, Ht. subst e2. cbn [heap trace].
  rewrite lookup_insert_ne by congruence. split; [exact Ho | reflexivity].
Qed.

Lemma frozen_startContinuation e pid g m hks options destroyed :
  wf e -> frozen e (startContinuation pid g m hks options destroyed e).
Proof.
  intros W. apply (frozen_trans _ (stopContinuation pid e)).
  - apply frozen_stopContinuation, W.
  - apply frozen_start_after_stop, W.
Qed.

Lemma frozen_step e i : wf e -> frozen e (step e i).
Proof.
  intros W. destruct i as [i destroyed]. unfold step. simpl. destruct i.
  - apply frozen_startContinuation, W.
  - apply frozen_stopContinuation, W.
  - apply frozen_onPtyData, W.
  - apply frozen_timerFires, W.
Qed.

Lemma wf_fold more : forall e, wf e -> wf (fold_left step more e).
Proof.
  induction more as [|i more IH]; intros e W; simpl; [exact W|].
  apply IH, wf_step, W.
Qed.

Lemma frozen_fold more : forall e, wf e -> frozen e (fold_left step more e).
Proof.
  induction more as [|i more IH]; intros e W; simpl; [apply frozen_refl|].
  apply (frozen_trans _ (step e i)); [apply frozen_step, W|].
  apply IH, wf_step, W.
Qed.


(** X1. In every reachable state of the engine, a pending quiet check
    belongs to a run that is still running and is the one registered under
    its [ptyId]; it is the only check pending for that run; and its delay is
    the run's [quietDelayMs], which is never below 250 ms. *)
Theorem one_pending_check_per_run inputs t1 t2 o d1 d2 :
  timers (run inputs) !! t1 = Some (o, d1) ->
  timers (run inputs) !! t2 = Some (o, d2) ->
  t1 = t2 /\
  exists st,
    heap (run inputs) !! o = Some st /\ status st = running /\
    getContinuationState (ptyId st) (run inputs) = Some st /\
    d1 = quietDelayMs st /\ ge d1 (of_Z 250) = true.
Proof.
  intros H1 H2. pose proof (wf_run inputs) as W.
  destruct (wf_timers _ W _ _ _ H1) as (st & Ho & Hrun & Ht1 & Hd1).
  destruct (wf_timers _ W _ _ _ H2) as (st2 & Ho2 & _ & Ht2 & _).
  split; [congruence|].
  exists st. split; [exact Ho|]. split; [exact Hrun|].
  split.
  - unfold getContinuationState. rewrite (wf_running _ W _ _ Ho Hrun). exact Ho.
  - split; [exact Hd1|]. subst d1.
    exact (proj1 (proj2 (heap_ok_run inputs _ _ Ho))).
Qed.

Lemma one_pending_check_per_run_witness :
  timers (run (firstn 2 scenario_C)) !! 1 = Some (0, of_Z 250) /\
  exists st, heap (run (firstn 2 scenario_C)) !! 0 = Some st /\ status st = running.
Proof.
  split; [vm_compute; reflexivity|].
  destruct (one_pending_check_per_run (firstn 2 scenario_C) 1 1 0 (of_Z 250) (of_Z 250)
              ltac:(vm_compute; reflexivity) ltac:(vm_compute; reflexivity))
    as (_ & st & Ho & Hrun & _).
  exists st. split; assumption.
Defined.

(** X2. In every reachable state, the output buffer of every run holds at
    most 50000 code units, whatever the sizes of the chunks that arrived. *)
Theorem output_buffer_is_bounded inputs o st :
  heap (run inputs) !! o = Some st ->
  (Z.of_nat (List.length (outputBuffer st)) <= 50000)%Z.
Proof. intros Ho. exact (proj1 (heap_ok_run inputs _ _ Ho)). Qed.

Lemma output_buffer_is_bounded_witness :
  exists st, heap (run (firstn 2 scenario_C)) !! 0 = Some st /\
             (Z.of_nat (List.length (outputBuffer st)) <= 50000)%Z.
Proof.
  eexists. split; [vm_compute; reflexivity|].
  apply (output_buffer_is_bounded (firstn 2 scenario_C) 0). vm_compute. reflexivity.
Defined.

(** X3. A run that has left [running] (done, max_reached or cancelled) is
    never touched again: whatever is started, stopped, received or fired
    afterwards, its state object stays as it is and no event is added to
    its events; in particular no further [continue] is sent for it. *)
Theorem terminal_run_is_frozen inputs more o st :
  heap (run inputs) !! o = Some st ->
  status st <> running ->
  heap (run (inputs ++ more)) !! o = Some st /\
  events_of o (trace (run (inputs ++ more))) = events_of o (trace (run inputs)).
Proof.
  intros Ho Hnr. unfold run. rewrite fold_left_app.
  exact (frozen_fold more _ (wf_run inputs) o st Ho Hnr).
Qed.

Lemma terminal_run_is_frozen_witness :
  let more := [(PtyData "p" (js "$ "), false); (TimerFires 8, false); (Stop "p", false)] in
  exists st, heap (run scenario_C) !! 0 = Some st /\ status st = max_reached /\
    events_of 0 (trace (run (scenario_C ++ more))) = events_of 0 (trace (run scenario_C)).
Proof.
  cbv zeta. eexists. split; [vm_compute; reflexivity|]. split; [reflexivity|].
  refine (proj2 (terminal_run_is_frozen scenario_C _ 0 _ _ _)).
  - vm_compute. reflexivity.
  - discriminate.
Defined.

(** X4. A run whose cap is what the [continuation:start] handler computes
    from the renderer's argument never starts more than 100 iterations,
    whatever that argument is. *)
Theorem run_never_exceeds_100_iterations inputs o st v :
  heap (run inputs) !! o = Some st ->
  maxIterations st = Boundary.continuationMax v ->
  currentIteration st <= 100 /\
  List.length (sent_iterations (events_of o (trace (run inputs)))) <= 100.
Proof.
  intros Ho Hmax. pose proof (wf_run inputs) as W.
  assert (Hk : currentIteration st <= 100).
  { pose proof (wf_cap _ W _ _ Ho) as Hcap. unfold within_cap in Hcap.
    destruct (currentIteration st) as [|k]; [lia|].
    destruct (continuationMax_range v) as (q & Hq & _ & Hle).
    rewrite Hmax, Hq in Hcap. unfold ge, le, of_nat, of_Z in Hcap.
    apply Qle_bool_false in Hcap.
    assert (Hlt : (inject_Z (Z.of_nat k) < inject_Z 100)%Q)
      by (eapply Qlt_le_trans; eassumption).
    rewrite <- Zlt_Qlt in Hlt. lia. }
  split; [exact Hk|].
  rewrite (wf_shape _ W _ _ Ho). unfold blocks. rewrite shape_sent, length_seq.
  exact Hk.
Qed.

Lemma run_never_exceeds_100_iterations_witness :
  exists st, heap (run scenario_C) !! 0 = Some st /\ currentIteration st <= 100.
Proof.
  eexists. split; [vm_compute; reflexivity|].
  refine (proj1 (run_never_exceeds_100_iterations scenario_C 0 _
                   (JNumber (of_Z 3)) _ _)); vm_compute; reflexivity.
Defined.

(** X5. The [iterations] field of a [continuation:done] or
    [continuation:maxReached] message is the number of
    [continuation:iteration] messages sent for that run; [maxReached]
    carries the run's goal and is sent only when that number has reached
    [maxIterations]; either message is sent only by a run that ended in the
    matching status. *)
Theorem final_message_counts_iterations inputs o st :
  heap (run inputs) !! o = Some st ->
  let evs := events_of o (trace (run inputs)) in
  (forall pid n, In (SendDone pid n) evs ->
     pid = ptyId st /\ status st = done /\
     n = List.length (sent_iterations evs)) /\
  (forall pid n g, In (SendMaxReached pid n g) evs ->
     pid = ptyId st /\ g = goal st /\ status st = max_reached /\
     n = List.length (sent_iterations evs) /\
     ge (of_nat n) (maxIterations st) = true).
Proof.
  intros Ho evs. pose proof (wf_run inputs) as W.
  pose proof (wf_shape _ W _ _ Ho) as Hshape. fold evs in Hshape.
  assert (Hlen : List.length (sent_iterations evs) = currentIteration st).
  { rewrite Hshape. unfold blocks. rewrite shape_sent. apply length_seq. }
  assert (Hend : forall ev, In ev evs ->
            (forall pid i m, ev <> SendIteration pid i m) ->
            (forall pid i m, ev <> HookIteration pid i m) ->
            (forall pid, ev <> CallOnContinue pid) -> In ev (ending st)).
  { intros ev Hin H1 H2 H3. rewrite Hshape in Hin.
    apply in_app_or in Hin as [Hin|Hin]; [|exact Hin]. exfalso.
    apply in_flat_map in Hin as (a & _ & Hin). unfold block, opt_ev in Hin.
    destruct (onIteration (hooks st)); simpl in Hin;
      repeat destruct Hin as [Hin|Hin]; try contradiction; subst ev;
      first [eapply H1; reflexivity | eapply H2; reflexivity | eapply H3; reflexivity]. }
  split.
  - intros pid n Hin. apply Hend in Hin; try discriminate.
    rewrite Hlen. unfold ending, opt_ev in Hin.
    destruct (status st); destruct (onDone (hooks st));
      destruct (onMaxReached (hooks st)); destruct (onCancelled (hooks st));
      simpl in Hin; repeat destruct Hin as [Hin|Hin];
      try contradiction; try discriminate;
      injection Hin as <- <-; repeat split.
  - intros pid n g Hin. apply Hend in Hin; try discriminate.
    rewrite Hlen. unfold ending, opt_ev in Hin.
    destruct (status st) eqn:Hst; destruct (onDone (hooks st));
      destruct (onMaxReached (hooks st)); destruct (onCancelled (hooks st));
      simpl in Hin; repeat destruct Hin as [Hin|Hin];
      try contradiction; try discriminate;
      injection Hin as <- <- <-; repeat split;
      exact (proj2 (proj2 (heap_ok_run inputs _ _ Ho)) Hst).
Qed.

Lemma final_message_counts_iterations_witness :
  exists st, heap (run scenario_C) !! 0 = Some st /\
    In (SendMaxReached "p" 3 "x") (events_of 0 (trace (run scenario_C))) /\
    status st = max_reached.
Proof.
  eexists. split; [vm_compute; reflexivity|].
  assert (Hin : In (SendMaxReached "p" 3 "x") (events_of 0 (trace (run scenario_C))))
    by (vm_compute; tauto).
  split; [exact Hin|].
  destruct (final_message_counts_iterations scenario_C 0 _ ltac:(vm_compute; reflexivity))
    as [_ Hmax].
  exact (proj1 (proj2 (proj2 (Hmax _ _ _ Hin)))).
Defined.


Lemma stopContinuation_cancels e pid o st :
  states e !! pid = Some o -> heap e !! o = Some st ->
  heap (stopContinuation pid e) !! o = Some (set_status cancelled st).
Proof.
  intros Hreg Ho. unfold stopContinuation. rewrite Hreg, Ho.
  destruct (timer st); destruct (onCancelled (hooks st)); simpl;
    rewrite lookup_alter_eq, Ho; reflexivity.
Qed.

(** X6. Starting a continuation on a [ptyId] that already has one cancels
    the old run first: its status becomes [cancelled], its [onCancelled]
    hook (if supplied) is the one thing added to its events, none of its
    checks stays pending, and the run registered under the [ptyId]
    afterwards (if any) is a different object. *)
Theorem start_cancels_previous_run inputs pid g m hks options destroyed o :
  states (run inputs) !! pid = Some o ->
  let e' := startContinuation pid g m hks options destroyed (run inputs) in
  exists st,
    heap (run inputs) !! o = Some st /\
    heap e' !! o = Some (set_status cancelled st) /\
    events_of o (trace e') =
      events_of o (trace (run inputs)) ++
      Became cancelled :: opt_ev (onCancelled (hooks st)) (HookCancelled pid) /\
    (forall t d, timers e' !! t <> Some (o, d)) /\
    states e' !! pid <> Some o.
Proof.
  intros Hreg e'. pose proof (wf_run inputs) as W.
  destruct (wf_registered _ W _ _ Hreg) as (st & Ho & Hrun & Hp).
  exists st. split; [exact Ho|].
  pose proof (stopContinuation_cancels _ _ _ _ Hreg Ho) as Ho1.
  pose proof (wf_stopContinuation _ pid W) as W1.
  assert (W' : wf e') by (apply wf_startContinuation, W).
  destruct (frozen_start_after_stop _ pid g m hks options destroyed W _ _ Ho1)
    as [Ho' Hev]; [simpl; discriminate|].
  fold e' in Ho', Hev.
  split; [exact Ho'|]. split.
  - rewrite Hev, (wf_shape _ W1 _ _ Ho1), (wf_shape _ W _ _ Ho).
    unfold ending. simpl. rewrite Hrun, Hp, app_nil_r. reflexivity.
  - split.
    + intros t d Ht. destruct (wf_timers _ W' _ _ _ Ht) as (s & Hs & Hsr & _).
      rewrite Ho' in Hs. injection Hs as <-. discriminate.
    + intros Hreg'. destruct (wf_registered _ W' _ _ Hreg') as (s & Hs & Hsr & _).
      rewrite Ho' in Hs. injection Hs as <-. discriminate.
Qed.

Lemma start_cancels_previous_run_witness :
  let hks := {| onIteration := false; onDone := false; onMaxReached := false;
                onCancelled := true |} in
  let options := {| kickOff := Some true; opt_requirePrompt := None;
                    opt_quietDelayMs := None |} in
  states (run (firstn 2 scenario_C)) !! "p" = Some 0 /\
  exists st,
    heap (startContinuation "p" "y" (of_Z 5) hks options false
            (run (firstn 2 scenario_C))) !! 0 = Some st /\
    status st = cancelled.
Proof.
  cbv zeta. split; [vm_compute; reflexivity|].
  destruct (start_cancels_previous_run (firstn 2 scenario_C) "p" "y" (of_Z 5)
              {| onIteration := false; onDone := false; onMaxReached := false;
                 onCancelled := true |}
              {| kickOff := Some true; opt_requirePrompt := None;
                 opt_quietDelayMs := None |} false 0 ltac:(vm_compute; reflexivity))
    as (st & _ & Ho' & _).
  eexists. split; [exact Ho' | reflexivity].
Defined.

(** X7. [stopContinuation] unregisters the run of its [ptyId] and leaves no
    check of it pending; a second stop, and any PTY output that still
    arrives for the [ptyId], change nothing; stopping a [ptyId] that has no
    run changes nothing either; and the runs of other ptys stay as they
    are. *)
Theorem stop_unregisters_and_is_idempotent inputs pid :
  let e := run inputs in
  let e' := stopContinuation pid e in
  getContinuationState pid e' = None /\
  stopContinuation pid e' = e' /\
  (forall data, onPtyData pid data e' = e') /\
  (forall t o d, timers e' !! t = Some (o, d) -> states e !! pid <> Some o) /\
  (getContinuationState pid e = None -> e' = e) /\
  (forall pid', pid' <> pid ->
     getContinuationState pid' e' = getContinuationState pid' e).
Proof.
  intros e e'. pose proof (wf_run inputs) as W. fold e in W.
  pose proof (stopContinuation_unregisters e pid W) as Hnone. fold e' in Hnone.
  split; [unfold getContinuationState; rewrite Hnone; reflexivity|].
  split; [unfold stopContinuation at 1; rewrite Hnone; reflexivity|].
  split; [intros data; unfold onPtyData; rewrite Hnone; reflexivity|].
  split.
  - intros t o d Ht Hreg.
    destruct (wf_registered _ W _ _ Hreg) as (st & Ho & _).
    pose proof (stopContinuation_cancels _ _ _ _ Hreg Ho) as Ho'. fold e' in Ho'.
    destruct (wf_timers _ (wf_stopContinuation e pid W) _ _ _ Ht) as (s & Hs & Hsr & _).
    fold e' in Hs. rewrite Ho' in Hs. injection Hs as <-. discriminate.
  - split.
    + unfold getContinuationState. intros H. subst e'. unfold stopContinuation.
      destruct (states e !! pid) as [o|] eqn:Hreg; [|reflexivity].
      destruct (wf_registered _ W _ _ Hreg) as (st & Ho & _). congruence.
    + intros pid' Hne. apply stopContinuation_other; assumption.
Qed.

End ContinuationInvFacts.

(** ** The router: case, confidence and the answers it can give *)

Section RouterMoreFacts.

Import Router RegexCase.
Local Open Scope float_scope.

Lemma upcase_range c :
  in_range 97 122 c = true ->
  in_range 97 122 (c - 32) = false /\ in_range 65 90 (c - 32) = true.
Proof.
  unfold in_range. intros E. apply andb_true_iff in E as [E1 E2].
  apply N.leb_le in E1, E2. split.
  - apply andb_false_iff. left. apply N.leb_gt. lia.
  - apply andb_true_iff. split; apply N.leb_le; lia.
Qed.

Lemma upcase_idem c : upcase (upcase c) = upcase c.
Proof.
  unfold upcase. destruct (in_range 97 122 c) eqn:E; [|rewrite E; reflexivity].
  rewrite (proj1 (upcase_range c E)). reflexivity.
Qed.

Lemma is_word_upcase c : is_word (upcase c) = is_word c.
Proof.
  unfold upcase. destruct (in_range 97 122 c) eqn:E; [|reflexivity].
  unfold is_word. rewrite E, (proj2 (upcase_range c E)), orb_true_r. reflexivity.
Qed.

Lemma word_at_upcase s i : word_at (List.map upcase s) i = word_at s i.
Proof.
  unfold word_at. rewrite nth_error_map.
  destruct (nth_error s i); simpl; [apply is_word_upcase | reflexivity].
Qed.

Lemma ends_case_blind r :
  case_blind r -> forall s i, ends r (List.map upcase s) i = ends r s i.
Proof.
  induction r as [|p|r1 IH1 r2 IH2|r1 IH1 r2 IH2|r IH| | |]; simpl; intros Hr s i;
    try reflexivity.
  - rewrite nth_error_map. destruct (nth_error s i); simpl; [|reflexivity].
    rewrite Hr. reflexivity.
  - destruct Hr as [H1 H2]. rewrite (IH1 H1).
    apply flat_map_ext. intros j. apply (IH2 H2).
  - destruct Hr as [H1 H2]. rewrite (IH1 H1), (IH2 H2). reflexivity.
  - rewrite List.length_map, (IH Hr). f_equal. apply flat_map_ext. intros j.
    destruct (Nat.ltb i j); [|reflexivity]. clear i.
    generalize (List.length s) as fuel. intros fuel. revert j.
    induction fuel as [|fuel IHf]; intros i; [reflexivity|].
    rewrite (IH Hr). f_equal. apply flat_map_ext. intros j.
    destruct (Nat.ltb i j); [apply IHf | reflexivity].
  - rewrite List.length_map. reflexivity.
  - unfold boundary_at. rewrite word_at_upcase.
    destruct i; [reflexivity|]. rewrite word_at_upcase. reflexivity.
Qed.

Lemma test_case_blind r s :
  case_blind r -> test r (List.map upcase s) = test r s.
Proof.
  intros Hr. unfold test, matches_at. rewrite List.length_map.
  induction (seq 0 (S (List.length s))) as [|i l IH]; [reflexivity|].
  simpl. rewrite (ends_case_blind r Hr), IH. reflexivity.
Qed.

Lemma case_blind_seq_of rs : Forall case_blind rs -> case_blind (seq_of rs).
Proof.
  induction rs as [|r rs IH]; intros H; [exact I|].
  apply Forall_cons_iff in H as [Hr Hrs].
  destruct rs as [|r' rs]; [exact Hr|]. split; [exact Hr | exact (IH Hrs)].
Qed.

Lemma case_blind_lit_i w : case_blind (lit_i w).
Proof.
  apply case_blind_seq_of. apply List.Forall_forall. intros r Hr.
  apply in_map_iff in Hr as (c & <- & _). simpl. intros x.
  rewrite upcase_idem. reflexivity.
Qed.

Lemma case_blind_b_ w : case_blind (b_ w).
Proof. split; [exact I | apply case_blind_lit_i]. Qed.

Lemma case_blind_b_b w : case_blind (b_b w).
Proof. split; [exact I|]. split; [apply case_blind_lit_i | exact I]. Qed.

Lemma rules_case_blind :
  Forall (fun r => Forall (fun k => case_blind (pattern k)) (keywords r)) RULES.
Proof.
  unfold RULES.
  repeat (first [apply List.Forall_cons | apply List.Forall_nil]); cbn [keywords];
    repeat (first [apply List.Forall_cons | apply List.Forall_nil]); cbn [pattern kw];
    first [apply case_blind_b_ | apply case_blind_b_b].
Qed.

Lemma score_ext d d' ks : forall acc,
  Forall (fun k => test (pattern k) d = test (pattern k) d') ks ->
  fold_left (scoreStep d) ks acc = fold_left (scoreStep d') ks acc.
Proof.
  induction ks as [|k ks IH]; intros acc H; [reflexivity|].
  apply Forall_cons_iff in H as [Hk Hks]. simpl.
  unfold scoreStep at 2 4. rewrite Hk. apply IH, Hks.
Qed.

Lemma routeLoop_ext d d' rules : forall acc,
  Forall (fun r => score d r = score d' r) rules ->
  fold_left (routeStep d) rules acc = fold_left (routeStep d') rules acc.
Proof.
  induction rules as [|r rules IH]; intros acc H; [reflexivity|].
  apply Forall_cons_iff in H as [Hr Hrs]. simpl.
  unfold routeStep at 2 4. unfold candidate. rewrite Hr. apply IH, Hrs.
Qed.

Lemma score_upcase d r :
  Forall (fun k => case_blind (pattern k)) (keywords r) ->
  score (List.map upcase d) r = score d r.
Proof.
  intros H. unfold score. apply score_ext.
  eapply List.Forall_impl; [|exact H]. intros k Hk. apply test_case_blind, Hk.
Qed.

Lemma routeTask_upcase d pref : routeTask (List.map upcase d) pref = routeTask d pref.
Proof.
  unfold routeTask. destruct pref; [reflexivity|]. unfold routeLoop.
  rewrite (routeLoop_ext (List.map upcase d) d); [reflexivity|].
  eapply List.Forall_impl; [|exact rules_case_blind].
  intros r Hr. apply score_upcase, Hr.
Qed.

(** X8. Routing does not look at the case of ASCII letters: two
    descriptions that agree once every a-z is read as A-Z get the same
    answer (CLI, category, rationale and confidence). *)
Theorem routeTask_ignores_ascii_case d d' pref :
  List.map upcase d = List.map upcase d' ->
  routeTask d pref = routeTask d' pref.
Proof.
  intros H. rewrite <- (routeTask_upcase d), <- (routeTask_upcase d'), H. reflexivity.
Qed.

Lemma routeTask_ignores_ascii_case_witness :
  routeTask (js "Design the CSS Layout") None = routeTask (js "design the css layout") None.
Proof.
  apply (routeTask_ignores_ascii_case (js "Design the CSS Layout")
           (js "design the css layout") None).
  vm_compute. reflexivity.
Defined.

(** On every combination of matching keywords of a rule with a positive
    matched weight, the capped quotient is above 0 and at most 1. *)
Lemma confidence_on_bits :
  forallb (fun r =>
    forallb (fun bits =>
      let m := matched_of_bits (keywords r) bits 0 in
      if 0 <? m then
        let c := Num.Math_min (m / totalWeight r) 1.0 in (0 <? c) && (c <=? 1)
      else true)
      (bit_vectors (List.length (keywords r)))) RULES = true.
Proof. vm_compute. reflexivity. Qed.

Lemma rules_answers :
  Forall (fun r => rule_cli r <> qwen /\ rule_category r <> quick /\
                   (rule_category r = defaultCategoryForCli (rule_cli r) \/
                    (rule_cli r = claude /\ rule_category r = research))) RULES.
Proof.
  unfold RULES. repeat (first [apply List.Forall_cons | apply List.Forall_nil]); simpl;
    (split; [discriminate|]); (split; [discriminate|]); auto.
Qed.

(** X9. Whatever the description and the preference, the confidence of the
    answer is above 0 and at most 1.  Without a preference the router never
    answers [qwen] nor the category [quick], and the category is the
    default category of the CLI it names, except that [claude] is also
    named for [research]. *)
Theorem routeTask_confidence_and_answers :
  (forall d pref,
     (0 <? confidence (routeTask d pref)) = true /\
     (confidence (routeTask d pref) <=? 1) = true) /\
  (forall d,
     let r := routeTask d None in
     cli r <> qwen /\ category r <> quick /\
     (category r = defaultCategoryForCli (cli r) \/
      (cli r = claude /\ category r = research))).
Proof.
  assert (Hdef : forall d,
    routeTask d None = defaultRoute \/
    exists r, In r RULES /\ (0 <? matchedWeight d r) = true /\
              routeTask d None = candidate d r).
  { intros d. unfold routeTask.
    pose proof (routeLoop_inv d RULES) as Hinv. unfold loop_inv in Hinv.
    destruct (fst (routeLoop d RULES)) as [c|]; [right | left; reflexivity].
    destruct Hinv as (i & r & Hi & Hc & _ & Hp & _).
    exists r. split; [eapply nth_error_In; eassumption|]. split; assumption. }
  split.
  - intros d [c|]; [split; reflexivity|].
    destruct (Hdef d) as [->|(r & Hr & Hp & ->)]; [split; reflexivity|].
    rewrite candidate_eq. cbn [confidence].
    pose proof confidence_on_bits as H. rewrite forallb_forall in H.
    specialize (H r Hr). rewrite forallb_forall in H.
    specialize (H (List.map (fun k => test (pattern k) d) (keywords r))).
    cbv zeta in H. unfold matchedWeight, score in Hp |- *.
    rewrite score_as_bits in Hp |- *. rewrite Hp in H.
    apply andb_true_iff. apply H.
    rewrite <- (List.length_map (fun k => test (pattern k) d) (keywords r)) at 1.
    apply bit_vectors_complete.
  - intros d. cbv zeta.
    destruct (Hdef d) as [->|(r & Hr & _ & ->)].
    + simpl. split; [discriminate|]. split; [discriminate|]. left; reflexivity.
    + rewrite candidate_eq. cbn [cli category].
      pose proof rules_answers as H. rewrite List.Forall_forall in H. exact (H r Hr).
Qed.

End RouterMoreFacts.

(** ** Command lines: what the quoting keeps of a goal, and the modes of a spawn *)

Section CommandFacts.

Import Router RouterCommands Spawn.

Lemma replace_newlines_no_LF s : ~ In LF (replace_newlines s).
Proof.
  assert (H : forall n s, List.length s <= n -> ~ In LF (replace_newlines s)).
  { clear s. induction n as [|n IH]; intros [|c s] Hlen; simpl in *;
      try (intros []); try lia.
    destruct (N.eqb_spec c LF) as [->|Hc].
    - intros [Heq|Hin]; [discriminate|]. apply (IH s); [lia | exact Hin].
    - destruct (N.eqb c CR).
      + destruct s as [|d s]; [intros [Heq|[]]; congruence|].
        destruct (N.eqb d LF).
        * intros [Heq|Hin]; [discriminate|].
          apply (IH s); [simpl in Hlen; lia | exact Hin].
        * intros [Heq|Hin]; [congruence|]. apply (IH (d :: s)); [lia | exact Hin].
      + intros [Heq|Hin]; [congruence|]. apply (IH s); [lia | exact Hin]. }
  apply (H (List.length s)). lia.
Qed.

Lemma drop_spaces_incl s c : In c (Synthesis.drop_spaces s) -> In c s.
Proof.
  induction s as [|x s IH]; simpl; [tauto|].
  destruct (is_space x); [right; apply IH; assumption | simpl; tauto].
Qed.

Lemma trim_incl s c : In c (Synthesis.trim s) -> In c s.
Proof.
  unfold Synthesis.trim. intros H.
  apply in_rev, drop_spaces_incl, in_rev, drop_spaces_incl in H. exact H.
Qed.

Lemma replace_quotes_in by_ s c :
  In c (replace_quotes by_ s) -> In c by_ \/ In c s.
Proof.
  unfold replace_quotes. intros H. apply in_flat_map in H as (x & Hx & Hc).
  destruct (N.eqb x QUOTE); [left; exact Hc|].
  destruct Hc as [<-|[]]. right. exact Hx.
Qed.

Lemma without_quotes_app a b :
  without_quotes (a ++ b) = without_quotes a ++ without_quotes b.
Proof. apply List.filter_app. Qed.

Lemma without_quotes_replace_quotes by_ s :
  without_quotes by_ = [] ->
  without_quotes (replace_quotes by_ s) = without_quotes s.
Proof.
  intros Hby. induction s as [|c s IH]; [reflexivity|].
  unfold replace_quotes. cbn [flat_map]. fold (replace_quotes by_ s).
  rewrite without_quotes_app, IH.
  change (c :: s) with ([c] ++ s). rewrite without_quotes_app. f_equal.
  destruct (N.eqb c QUOTE) eqn:Hc; [|reflexivity].
  rewrite Hby. unfold without_quotes. cbn [List.filter]. rewrite Hc. reflexivity.
Qed.

Lemma replace_quotes_id by_ s : ~ In QUOTE s -> replace_quotes by_ s = s.
Proof.
  induction s as [|c s IH]; intros Hn; [reflexivity|].
  unfold replace_quotes. cbn [flat_map]. fold (replace_quotes by_ s).
  destruct (N.eqb_spec c QUOTE) as [->|Hc]; [exfalso; apply Hn; left; reflexivity|].
  rewrite IH by (intros H; apply Hn; right; exact H). reflexivity.
Qed.

Lemma in_without_quotes c s :
  In c (without_quotes s) <-> In c s /\ c <> QUOTE /\ c <> DQUOTE.
Proof.
  unfold without_quotes. rewrite List.filter_In, negb_true_iff, orb_false_iff.
  rewrite !N.eqb_neq. tauto.
Qed.

Lemma quoted_in platform goal c :
  c <> QUOTE -> c <> DQUOTE ->
  (In c (quoteForCurrentShell platform goal) <->
   In c (Synthesis.trim (replace_newlines goal))).
Proof.
  intros Hq Hd.
  assert (Hwq : without_quotes (quoteForCurrentShell platform goal) =
                without_quotes (Synthesis.trim (replace_newlines goal))).
  { unfold quoteForCurrentShell. cbv zeta.
    destruct platform;
      change (QUOTE :: ?x ++ [QUOTE]) with ([QUOTE] ++ x ++ [QUOTE]);
      rewrite !without_quotes_app, without_quotes_replace_quotes by reflexivity;
      apply app_nil_r. }
  pose proof (in_without_quotes c (quoteForCurrentShell platform goal)) as H1.
  pose proof (in_without_quotes c (Synthesis.trim (replace_newlines goal))) as H2.
  rewrite Hwq in H1. tauto.
Qed.

Lemma one_shot_command_no_LF platform cliType goal :
  ~ In LF (getOneShotCommand platform cliType goal).
Proof.
  assert (Hq : ~ In LF (quoteForCurrentShell platform goal)).
  { intros H. apply quoted_in in H; [|discriminate|discriminate].
    apply trim_incl in H. exact (replace_newlines_no_LF _ H). }
  unfold getOneShotCommand. cbv zeta.
  destruct cliType; intros H; apply in_app_or in H as [H|H]; try contradiction;
    simpl in H; intuition discriminate.
Qed.

(** X10. The command line [getOneShotCommand] builds, on every platform:
    it holds no line feed; between its quotes, the code units of the goal
    (line breaks turned into spaces, trimmed) other than the quote
    characters are all there, in order, and nothing else but quote
    characters is added, so a control character of the goal, such as a lone
    carriage return or U+0015, reaches the line; a goal without a single
    quote stands as it is between two single quotes. *)
Theorem one_shot_command_keeps_goal_text platform cliType goal :
  let input := Synthesis.trim (replace_newlines goal) in
  let quoted := quoteForCurrentShell platform goal in
  ~ In LF (getOneShotCommand platform cliType goal) /\
  without_quotes quoted = without_quotes input /\
  (forall c, c <> QUOTE -> c <> DQUOTE ->
             (In c quoted <-> In c input) /\
             (In c input -> In c (getOneShotCommand platform cliType goal))) /\
  (~ In QUOTE input -> quoted = QUOTE :: input ++ [QUOTE]).
Proof.
  cbv zeta.
  assert (Hwq : without_quotes (quoteForCurrentShell platform goal) =
                without_quotes (Synthesis.trim (replace_newlines goal))).
  { unfold quoteForCurrentShell. cbv zeta.
    destruct platform;
      change (QUOTE :: ?x ++ [QUOTE]) with ([QUOTE] ++ x ++ [QUOTE]);
      rewrite !without_quotes_app, without_quotes_replace_quotes by reflexivity;
      apply app_nil_r. }
  pose proof (quoted_in platform goal) as Hin.
  split; [apply one_shot_command_no_LF|split; [exact Hwq|split]].
  - intros c Hq Hd. split; [exact (Hin c Hq Hd)|].
    intros Hc. apply (Hin c Hq Hd) in Hc. unfold getOneShotCommand. cbv zeta.
    destruct cliType; apply in_or_app; right; exact Hc.
  - intros Hn. unfold quoteForCurrentShell. cbv zeta.
    destruct platform; rewrite replace_quotes_id by exact Hn; reflexivity.
Qed.

(** Goals with quotes and with control characters: the quotes are
    escaped, the control characters are typed as they are. *)
Example one_shot_command_examples :
  getOneShotCommand linux claude (js "it's done'; rm -rf ~ #") =
    js "claude -p 'it'" ++ [DQUOTE; QUOTE; DQUOTE] ++ js "'s done'" ++
    [DQUOTE; QUOTE; DQUOTE] ++ js "'; rm -rf ~ #'" /\
  getOneShotCommand win32 claude (js "it's") = js "claude -p 'it''s'" /\
  getOneShotCommand linux claude (js "x" ++ [21%N] ++ js "touch INJECTED #") =
    js "claude -p 'x" ++ [21%N] ++ js "touch INJECTED #'" /\
  getOneShotCommand linux claude (js "a" ++ [CR] ++ js "b" ++ [CR; LF] ++ js "c") =
    js "claude -p 'a" ++ [CR] ++ js "b c'".
Proof. repeat split; vm_compute; reflexivity. Qed.

(** X11. The modes of [shell:spawn].  For a CLI other than [claude] the
    arguments [oneShotLoop] and [resumeSessionId] change nothing.  A
    one-shot command line exists only for [claude] with [oneShotLoop] set
    and a goal that is not blank; it is the one-shot command of the trimmed
    goal followed by the echo of the marker, the session then runs the
    script runner and nothing is typed after the start.  The goal is typed
    into the PTY after the start only for the plain interactive CLI (no
    one-shot loop, no shell session, no resumed session), as the trimmed
    goal followed by a carriage return. *)
Theorem shell_spawn_modes platform SHELL cliType workspacePath goal
  oneShotLoop shellSession resumeSessionId :
  let p := shell_spawn platform SHELL cliType workspacePath goal
             oneShotLoop shellSession resumeSessionId in
  (cliType <> claude ->
   p = shell_spawn platform SHELL cliType workspacePath goal None shellSession None) /\
  (forall line, oneShotCommand p = Some line ->
     cliType = claude /\ oneShotLoop = Some true /\ useOneShotLoop p = true /\
     spawnSpec p = getOneShotRunnerCommand platform SHELL workspacePath /\
     typedAfterStart p = None /\
     exists g, goal = Some g /\ Synthesis.trim g <> [] /\
       line = getOneShotCommand platform claude (Synthesis.trim g) ++
              js "; echo " ++ js Continuation.ONE_SHOT_DONE_MARKER /\
       ~ In LF line) /\
  (oneShotCommand p = None -> useOneShotLoop p = false /\
     spawnSpec p <> getOneShotRunnerCommand platform SHELL workspacePath) /\
  (forall typed, typedAfterStart p = Some typed ->
     spawnSpec p = getCliCommand platform cliType workspacePath /\
     oneShotCommand p = None /\
     useOneShotLoop p = false /\ useShellSession p = false /\
     useResumeSession p = false /\
     exists g, goal = Some g /\ Synthesis.trim g <> [] /\
               typed = Synthesis.trim g ++ [CR]).
Proof.
  cbv zeta. split; [|split; [|split]].
  - intros Hc. unfold shell_spawn.
    destruct cliType; try contradiction; cbn [is_claude];
      rewrite ?andb_false_r; reflexivity.
  - intros line. unfold shell_spawn.
    cbn [oneShotCommand spawnSpec typedAfterStart useOneShotLoop].
    destruct goal as [g|]; [|rewrite andb_false_r; discriminate].
    destruct (Synthesis.trim g) as [|c t] eqn:Hg; [rewrite andb_false_r; discriminate|].
    destruct oneShotLoop as [[|]|]; try discriminate.
    destruct cliType; try discriminate. cbn [Boolean is_claude andb negb].
    intros Hline. apply (inj Some) in Hline. subst line.
    do 5 (split; [reflexivity|]).
    exists g. split; [reflexivity|]. rewrite Hg. split; [discriminate|].
    split; [reflexivity|].
    intros H. apply in_app_or in H as [H|H].
    + destruct (one_shot_command_no_LF platform claude (c :: t) H).
    + vm_compute in H. intuition discriminate.
  - unfold shell_spawn. cbn [oneShotCommand spawnSpec useOneShotLoop].
    destruct (Boolean oneShotLoop &&
              match match goal with
                    | Some g => match Synthesis.trim g with [] => None | t => Some t end
                    | None => None
                    end with Some _ => true | None => false end &&
              is_claude cliType) eqn:Hloop.
    + destruct goal as [g|]; [|rewrite andb_false_r in Hloop; discriminate].
      destruct (Synthesis.trim g); [rewrite andb_false_r in Hloop|]; discriminate.
    + intros _. split; [reflexivity|].
      destruct (Boolean shellSession);
        [|destruct (is_claude cliType && _)];
        destruct platform; try discriminate;
        unfold getCliCommand, getClaudeResumeCommand, getOneShotRunnerCommand,
          getPersistentInteractiveShellCommand;
        intros H; apply (f_equal args) in H; discriminate H.
  - intros typed. unfold shell_spawn.
    cbn [oneShotCommand spawnSpec typedAfterStart useOneShotLoop useShellSession
         useResumeSession].
    destruct goal as [g|]; [|discriminate].
    destruct (Synthesis.trim g) as [|c t] eqn:Hg; [discriminate|].
    destruct (Boolean oneShotLoop && true && is_claude cliType); [discriminate|].
    destruct (Boolean shellSession); [discriminate|].
    match goal with
    | |- context [negb (is_claude cliType && ?x)] => destruct (is_claude cliType && x)
    end; [discriminate|].
    cbn [negb andb]. intros [= <-]. do 5 (split; [reflexivity|]).
    exists g. rewrite Hg. repeat split. discriminate.
Qed.

End CommandFacts.

(** ** The child environment: what is passed through *)

Section EnvMoreFacts.

Import Env.

Lemma copied_truthy penv k v : copied penv k = Some v -> v <> "" /\ penv k = Some v.
Proof.
  unfold copied. destruct (penv k) as [x|]; [|discriminate].
  destruct x; simpl; [discriminate|]. intros [= <-]. split; [discriminate | reflexivity].
Qed.

Lemma sanitized_other penv k :
  ~ In k FORCED_KEYS ->
  getSanitizedEnv penv !! k =
  if in_dec string_dec k ENV_ALLOWLIST then copied penv k else None.
Proof.
  intros Hk. rewrite getSanitizedEnv_eq. cbv zeta.
  assert (k <> "TERM" /\ k <> "COLORTERM" /\ k <> "LANG") as (H1 & H2 & H3)
    by (unfold FORCED_KEYS in Hk; simpl in Hk; intuition).
  rewrite !lookup_insert_ne by congruence.
  rewrite copyAllowed_lookup, lookup_empty.
  destruct (in_dec string_dec k ENV_ALLOWLIST); [|reflexivity].
  destruct (copied penv k); reflexivity.
Qed.

(** X12. An allow-listed variable other than [TERM], [COLORTERM] and
    [LANG] reaches the child with exactly the parent's value when the parent
    has a non-empty one, and is absent otherwise; and no variable of the
    child environment is the empty string. *)
Theorem sanitized_env_passes_values_through :
  (forall penv k, In k ENV_ALLOWLIST -> ~ In k FORCED_KEYS ->
     getSanitizedEnv penv !! k =
     match penv k with
     | Some v => if truthy v then Some v else None
     | None => None
     end) /\
  (forall penv k v, getSanitizedEnv penv !! k = Some v -> v <> "").
Proof.
  split.
  - intros penv k Hin Hk. rewrite (sanitized_other penv k Hk).
    destruct (in_dec string_dec k ENV_ALLOWLIST); [reflexivity | contradiction].
  - intros penv k v Hv.
    destruct (in_dec string_dec k FORCED_KEYS) as [Hf|Hn].
    + unfold FORCED_KEYS in Hf. simpl in Hf.
      destruct Hf as [<-|[<-|[<-|[]]]].
      * rewrite sanitized_TERM in Hv. injection Hv as <-. discriminate.
      * rewrite sanitized_COLORTERM in Hv. injection Hv as <-. discriminate.
      * rewrite sanitized_LANG in Hv. injection Hv as <-.
        destruct (copied penv "LANG") as [x|] eqn:E; [|discriminate].
        exact (proj1 (copied_truthy _ _ _ E)).
    + rewrite (sanitized_other penv k Hn) in Hv.
      destruct (in_dec string_dec k ENV_ALLOWLIST); [|discriminate].
      exact (proj1 (copied_truthy _ _ _ Hv)).
Qed.

End EnvMoreFacts.

(** ** Hidden runs: the first outcome, and jobs whatever the timing *)

Section HiddenRunFacts.

Import Number Boundary Synthesis SynthesisRuns.

Variable sanitize : jstring -> jstring.

Abbreviation onEvent' := (Synthesis.onEvent sanitize).
Abbreviation run' := (Synthesis.runHiddenClaudeOnce sanitize).
Abbreviation synthesis' := (Synthesis.synthesis sanitize).
Abbreviation complete' := (Synthesis.complete sanitize).

Lemma collected_output evs : forall r,
  still_running evs = true -> child r <> None ->
  output (fold_left onEvent' evs r) = output r ++ collected evs.
Proof.
  induction evs as [|ev evs IH]; intros r Hs Hc; simpl.
  - rewrite app_nil_r. reflexivity.
  - simpl in Hs. apply andb_true_iff in Hs as [Hev Hs].
    rewrite IH; [|exact Hs | rewrite onEvent_child; exact Hc].
    unfold Synthesis.onEvent. destruct (child r); [|contradiction].
    destruct ev; try discriminate; simpl; rewrite <- app_assoc; reflexivity.
Qed.

(** Once a run is finished, nothing kills the child or reopens the run. *)
Lemma finished_stays evs : forall r,
  finished r = true ->
  finished (fold_left onEvent' evs r) = true /\
  kills (fold_left onEvent' evs r) = kills r.
Proof.
  induction evs as [|ev evs IH]; intros r Hf; simpl; [auto|].
  assert (H : finished (onEvent' r ev) = true /\ kills (onEvent' r ev) = kills r).
  { unfold Synthesis.onEvent. destruct (child r); [|auto].
    destruct ev; simpl; rewrite ?Hf; auto.
    destruct (timeoutArmed r); simpl; auto. }
  destruct H as [H1 H2]. destruct (IH _ H1) as [H3 H4]. split; congruence.
Qed.

(** X13. The first [close] or [error] of the child settles a hidden run.
    When only output arrived before it, the run resolves with what the
    close handler makes of exactly that output (or with the runner error),
    the watchdog is cleared and the child is never killed; output, further
    [close] or [error] events and the watchdog's expiry after it change
    neither the result nor that. *)
Theorem hidden_run_first_outcome_wins goal cwd options before ev after :
  still_running before = true ->
  let r := run' goal cwd options None (before ++ ev :: after) in
  match ev with
  | CloseEvent code signal =>
      text r = closeText sanitize (collected before) code signal /\
      kills r = 0 /\ timeoutArmed r = false /\ finished r = true
  | ErrorEvent message =>
      text r = js "(runner error: " ++ message ++ js ")" /\
      kills r = 0 /\ timeoutArmed r = false /\ finished r = true
  | _ => True
  end.
Proof.
  intros Hs r. subst r. unfold Synthesis.runHiddenClaudeOnce.
  rewrite <- app_assoc, fold_left_app. simpl app. cbn [fold_left].
  set (r0 := fold_left onEvent' before (start goal cwd options None)).
  destruct (still_running_fold sanitize before (start goal cwd options None) Hs)
    as (H1 & H2 & H3 & H4 & H5). fold r0 in H1, H2, H3, H4, H5.
  assert (Hout : output r0 = collected before).
  { subst r0. rewrite collected_output; [reflexivity | exact Hs | discriminate]. }
  simpl in H1, H2, H3, H4, H5.
  assert (Hsettled : forall v r1,
            r1 = resolve v (finish true false r0) ->
            let r := fold_left onEvent' (after ++ [TimeoutFires]) r1 in
            text r = v /\ kills r = 0 /\ timeoutArmed r = false /\ finished r = true).
  { intros v r1 -> r.
    assert (Hres : resolved (resolve v (finish true false r0)) = Some v)
      by (simpl; rewrite H4; reflexivity).
    pose proof (run_resolved sanitize _ (after ++ [TimeoutFires]) v Hres) as Hr.
    destruct (finished_stays (after ++ [TimeoutFires])
                (resolve v (finish true false r0)) eq_refl) as [Hf Hk].
    fold r in Hr, Hf, Hk. unfold text. rewrite Hr, Hk. simpl. rewrite H3.
    repeat split; try assumption.
    assert (Hok : run_ok r).
    { subst r. apply run_ok_fold. split; simpl; [discriminate|].
      intros _. rewrite H4. discriminate. }
    destruct (timeoutArmed r) eqn:Ha; [|reflexivity].
    destruct (proj1 Hok Ha) as (Hnf & _). congruence. }
  destruct ev; try exact I.
  - apply Hsettled. unfold Synthesis.onEvent. rewrite H5, H1. reflexivity.
  - apply Hsettled. unfold Synthesis.onEvent. rewrite H5, H1, Hout. reflexivity.
Qed.

Lemma decimal_nonempty z : decimal z <> [].
Proof.
  unfold decimal, js. destruct (NilZero.string_of_int (Z.to_int z)) eqn:E;
    [|simpl; discriminate].
  exfalso. unfold NilZero.string_of_int in E.
  destruct (Z.to_int z) as [u|u]; simpl in E; [|discriminate].
  unfold NilZero.string_of_uint in E. destruct u; discriminate.
Qed.

Lemma closeText_nonempty out code signal : closeText sanitize out code signal <> [].
Proof.
  unfold closeText. cbv zeta.
  destruct (is_empty (trim out)); simpl.
  - destruct signal as [sig|]; [destruct (nonempty sig); [discriminate|]|];
      destruct code as [[| |]|]; discriminate.
  - destruct (sanitize (trim out)); simpl; discriminate.
Qed.

Lemma onEvent_text r ev :
  (forall v, resolved r = Some v -> v <> []) ->
  forall v, resolved (onEvent' r ev) = Some v -> v <> [].
Proof.
  intros Hr v. unfold Synthesis.onEvent. destruct (child r); [|apply Hr].
  destruct ev; simpl; try apply Hr;
    destruct (finished r); try destruct (timeoutArmed r); simpl; try apply Hr;
    destruct (resolved r) as [v0|] eqn:E; try (intros [= <-]; apply Hr; reflexivity);
    intros [= <-]; try discriminate; apply closeText_nonempty.
Qed.

Lemma fold_text evs : forall r,
  (forall v, resolved r = Some v -> v <> []) ->
  forall v, resolved (fold_left onEvent' evs r) = Some v -> v <> [].
Proof.
  induction evs as [|ev evs IH]; intros r Hr; simpl; [exact Hr|].
  apply IH. apply onEvent_text, Hr.
Qed.

(** X14. A hidden run never resolves with the empty string: whatever the
    child does and prints, and whatever the output filter returns, the text
    that lands in the job's slot is the cleaned output when that is not
    empty and a parenthesised note otherwise. *)
Theorem hidden_run_never_resolves_blank goal cwd options err evs :
  text (run' goal cwd options err evs) <> [].
Proof.
  unfold text.
  destruct (resolved (run' goal cwd options err evs)) as [v|] eqn:E.
  - revert v E. unfold Synthesis.runHiddenClaudeOnce. apply fold_text.
    intros v. unfold start. destruct err; simpl; [|discriminate].
    intros [= <-]. discriminate.
  - exfalso. exact (runHiddenClaudeOnce_resolves sanitize goal cwd options err evs E).
Qed.


(** *** Jobs *)

Lemma complete_fold_length ws wp goal count w1 w2 order1 : forall order2 j1 j2,
  mainWindow w1 = mainWindow w2 -> jobId w1 = jobId w2 ->
  List.length order1 = List.length order2 ->
  events j1 = events j2 -> completed j1 = completed j2 ->
  events (fold_left (complete' w1 ws goal wp count) order1 j1) =
  events (fold_left (complete' w2 ws goal wp count) order2 j2) /\
  completed (fold_left (complete' w1 ws goal wp count) order1 j1) =
  completed (fold_left (complete' w2 ws goal wp count) order2 j2).
Proof.
  induction order1 as [|a order1 IH]; intros [|b order2] j1 j2 Hw Hj Hlen He Hc;
    try discriminate; simpl; [auto|].
  apply IH; try assumption; [simpl in Hlen; lia | |].
  - unfold Synthesis.complete, send. simpl. rewrite Hw, Hj, He, Hc. reflexivity.
  - unfold Synthesis.complete, send. simpl. rewrite Hc. reflexivity.
Qed.

Lemma combined_ext count j1 j2 :
  results j1 = results j2 -> synthPrompt count j1 = synthPrompt count j2.
Proof. intros H. unfold synthPrompt, combined. rewrite H. reflexivity. Qed.

(** X15. The outcome of a synthesis job does not depend on the order in
    which its fan-out runs complete: the slots, the synthesis prompt given
    to the final run, the events sent and the reply are the same for any
    two orders in which every run completes once. *)
Theorem synthesis_ignores_completion_order w order1 order2 ws wp goal n :
  Permutation order1 (seq 0 (countOf n)) ->
  Permutation order2 (seq 0 (countOf n)) ->
  synthesis' (with_order order1 w) ws wp goal n =
  synthesis' (with_order order2 w) ws wp goal n.
Proof.
  intros H1 H2. unfold Synthesis.synthesis. cbv zeta.
  set (count := countOf n).
  set (j0 := fun w' : World =>
               send w' (Progress (jobId w') ws goal 0 count)
                 {| results := ∅; completed := 0; events := [] |}).
  change (send (with_order order1 w) (Progress (jobId (with_order order1 w)) ws goal 0 count)
            {| results := ∅; completed := 0; events := [] |})
    with (j0 (with_order order1 w)).
  change (send (with_order order2 w) (Progress (jobId (with_order order2 w)) ws goal 0 count)
            {| results := ∅; completed := 0; events := [] |})
    with (j0 (with_order order2 w)).
  cbn [completionOrder with_order randomUUID finalSpawnError finalEvents jobId].
  set (ja := fold_left (complete' (with_order order1 w) ws goal wp count) order1
               (j0 (with_order order1 w))).
  set (jb := fold_left (complete' (with_order order2 w) ws goal wp count) order2
               (j0 (with_order order2 w))).
  assert (Hres : results ja = results jb).
  { apply map_eq. intros i. subst ja jb. rewrite !complete_fold_results.
    destruct (in_dec Nat.eq_dec i order1) as [Hi1|Hn1];
      destruct (in_dec Nat.eq_dec i order2) as [Hi2|Hn2]; try reflexivity.
    - exfalso. apply Hn2. apply (Permutation_in _ (Permutation_sym H2)).
      apply (Permutation_in _ H1). exact Hi1.
    - exfalso. apply Hn1. apply (Permutation_in _ (Permutation_sym H1)).
      apply (Permutation_in _ H2). exact Hi2. }
  assert (Hev : events ja = events jb /\ completed ja = completed jb).
  { subst ja jb. apply complete_fold_length; try reflexivity.
    rewrite (Permutation_length H1), (Permutation_length H2). reflexivity. }
  destruct Hev as [Hev Hc].
  rewrite (combined_ext count ja jb Hres).
  f_equal.
  - unfold send. cbn [mainWindow with_order events]. rewrite Hev. reflexivity.
  - unfold send. cbn [results]. exact Hres.
Qed.

Lemma synthesis_window_free w w' ws wp goal n :
  (forall k, mainWindow w k = false) ->
  jobId w' = jobId w -> randomUUID w' = randomUUID w -> homeDir w' = homeDir w ->
  spawnErrors w' = spawnErrors w -> childEvents w' = childEvents w ->
  completionOrder w' = completionOrder w ->
  finalSpawnError w' = finalSpawnError w -> finalEvents w' = finalEvents w ->
  let out := synthesis' w ws wp goal n in
  let out' := synthesis' w' ws wp goal n in
  emitted out = [] /\
  slots out = slots out' /\ fanOut out = fanOut out' /\ final out = final out' /\
  reply out = reply out'.
Proof.
  intros Hw Hj Hu Hh Hs Hc Ho Hfe Hfv. cbv zeta.
  assert (Hfan : forall i, fanOutRun sanitize w' goal wp i = fanOutRun sanitize w goal wp i).
  { intros i. unfold fanOutRun, fanOutOptions. rewrite Hh, Hs, Hc. reflexivity. }
  assert (Hfold : forall order ja jb,
            results ja = results jb ->
            results (fold_left (complete' w ws goal wp (countOf n)) order ja) =
            results (fold_left (complete' w' ws goal wp (countOf n)) order jb) /\
            (events ja = [] ->
             events (fold_left (complete' w ws goal wp (countOf n)) order ja) = [])).
  { induction order as [|i order IH]; intros ja jb Hr; simpl; [auto|].
    destruct (IH (complete' w ws goal wp (countOf n) ja i)
                 (complete' w' ws goal wp (countOf n) jb i)) as [IH1 IH2].
    - unfold Synthesis.complete, send. cbn [results]. rewrite Hr, Hfan. reflexivity.
    - split; [exact IH1|]. intros He. apply IH2.
      unfold Synthesis.complete, send. rewrite Hw. exact He. }
  unfold Synthesis.synthesis. cbv zeta. cbn [emitted slots fanOut final reply].
  rewrite Ho, Hj, Hu, Hfe, Hfv.
  match goal with
  | |- context [fold_left (complete' w ws goal wp (countOf n)) (completionOrder w) ?ja] =>
      match goal with
      | |- context [fold_left (complete' w' ws goal wp (countOf n)) (completionOrder w) ?jb] =>
          destruct (Hfold (completionOrder w) ja jb) as [Hr He];
            [unfold send; reflexivity|]
      end
  end.
  split.
  - unfold send at 1. rewrite Hw. apply He. unfold send. rewrite Hw. reflexivity.
  - split; [unfold send; cbn [results]; exact Hr|].
    split; [apply map_ext; intros i; symmetry; apply Hfan|].
    split; [|reflexivity].
    f_equal. apply combined_ext. exact Hr.
Qed.

(** X16. A synthesis job with no window ([mainWindow] is null) sends no
    event at all, and still runs every child and replies as it does with a
    window: slots, fan-out runs, final run and reply are the same. *)
Theorem synthesis_without_window w ws wp goal n :
  let closed := synthesis' (with_window false w) ws wp goal n in
  let opened := synthesis' (with_window true w) ws wp goal n in
  emitted closed = [] /\
  slots closed = slots opened /\ fanOut closed = fanOut opened /\
  final closed = final opened /\ reply closed = reply opened.
Proof.
  apply (synthesis_window_free (with_window false w) (with_window true w));
    reflexivity.
Qed.

End HiddenRunFacts.

Section HiddenRunWitnesses.

Import Number Boundary Synthesis SynthesisRuns.

Lemma hidden_run_first_outcome_wins_witness :
  text (Synthesis.runHiddenClaudeOnce (fun s => s) (js "goal") "/w" None None
          ([StdoutData (js "A1")] ++ CloseEvent (Some 0%Z) None ::
           [StdoutData (js "late"); ErrorEvent (js "x")])) =
  closeText (fun s => s) (js "A1") (Some 0%Z) None.
Proof.
  exact (proj1 (hidden_run_first_outcome_wins (fun s => s) (js "goal") "/w" None
                  [StdoutData (js "A1")] (CloseEvent (Some 0%Z) None)
                  [StdoutData (js "late"); ErrorEvent (js "x")] eq_refl)).
Defined.

Lemma synthesis_ignores_completion_order_witness :
  Synthesis.synthesis (fun s => s) (with_order [1; 0] scenario_F) "ws" "/w" (js "g")
    (JNumber (of_Z 2)) =
  Synthesis.synthesis (fun s => s) (with_order [0; 1] scenario_F) "ws" "/w" (js "g")
    (JNumber (of_Z 2)).
Proof.
  apply (synthesis_ignores_completion_order (fun s => s) scenario_F [1; 0] [0; 1]
           "ws" "/w" (js "g") (JNumber (of_Z 2))).
  - change (countOf (JNumber (of_Z 2))) with 2. simpl. apply perm_swap.
  - change (countOf (JNumber (of_Z 2))) with 2. simpl. apply Permutation_refl.
Defined.

End HiddenRunWitnesses.

(** ** The remaining PTY handlers *)

Section HandlerFacts.

Import Number Supervisor Handlers.

Lemma Qle_bool_neg a b : Qle_bool a b = false <-> (b < a)%Q.
Proof.
  split; [apply Qle_bool_false|].
  intros H. destruct (Qle_bool a b) eqn:E; [|reflexivity].
  apply Qle_bool_iff in E. exfalso. exact (Qlt_not_le _ _ H E).
Qed.

Lemma in_bounds lo hi q :
  negb (Qle_bool (inject_Z lo) q) || negb (Qle_bool q (inject_Z hi)) = false <->
  (inject_Z lo <= q <= inject_Z hi)%Q.
Proof.
  rewrite orb_false_iff, !negb_false_iff, !Qle_bool_iff. reflexivity.
Qed.

(** X17. [shell:resize] resizes the PTY of a live session exactly when
    both arguments are numbers that are not below 1 and not above 500
    (columns) or 200 (rows).  For finite numbers that is 1 <= cols <= 500 and
    1 <= rows <= 200, whole or not; an infinite value is refused; NaN is let
    through, since every comparison with it is false.  Anything that is not
    a number, a [ptyId] that is not a string and an unknown [ptyId] make no
    call. *)
Theorem shell_resize_guard :
  (forall pid session qc qr s,
     ptySessions s !! pid = Some session ->
     (shell_resize (JString pid) (JNumber (Fin qc)) (JNumber (Fin qr)) s =
        Some (pty session, Fin qc, Fin qr) <->
      (1 <= qc <= 500 /\ 1 <= qr <= 200)%Q) /\
     (shell_resize (JString pid) (JNumber (Fin qc)) (JNumber (Fin qr)) s = None <->
      ~ (1 <= qc <= 500 /\ 1 <= qr <= 200)%Q)) /\
  (forall ptyId b x s,
     shell_resize ptyId (JNumber (Inf b)) (JNumber x) s = None /\
     shell_resize ptyId (JNumber x) (JNumber (Inf b)) s = None) /\
  (forall pid session s,
     ptySessions s !! pid = Some session ->
     shell_resize (JString pid) (JNumber NaN) (JNumber NaN) s =
       Some (pty session, NaN, NaN)) /\
  (forall ptyId cols rows s call,
     shell_resize ptyId cols rows s = Some call ->
     exists pid session c r,
       ptyId = JString pid /\ cols = JNumber c /\ rows = JNumber r /\
       ptySessions s !! pid = Some session /\ call = (pty session, c, r)).
Proof.
  split; [|split; [|split]].
  - intros pid session qc qr s Hs. unfold shell_resize. rewrite Hs.
    unfold lt, gt, lt, of_Z, Qlt_b.
    pose proof (in_bounds 1 500 qc) as Hc. pose proof (in_bounds 1 200 qr) as Hr.
    rewrite <- (orb_assoc (_ || _)).
    destruct (negb (Qle_bool (inject_Z 1) qc) || negb (Qle_bool qc (inject_Z 500)));
      [|destruct (negb (Qle_bool (inject_Z 1) qr) || negb (Qle_bool qr (inject_Z 200)))];
      simpl.
    + assert (Hn : ~ ((1 <= qc <= 500)%Q /\ (1 <= qr <= 200)%Q))
        by (intros [H1 H2]; apply Hc in H1; discriminate).
      split; split;
        [discriminate | intros H; contradiction | intros _; exact Hn | reflexivity].
    + assert (Hn : ~ ((1 <= qc <= 500)%Q /\ (1 <= qr <= 200)%Q))
        by (intros [H1 H2]; apply Hr in H2; discriminate).
      split; split;
        [discriminate | intros H; contradiction | intros _; exact Hn | reflexivity].
    + assert (Hy : (1 <= qc <= 500)%Q /\ (1 <= qr <= 200)%Q)
        by (split; [apply Hc | apply Hr]; reflexivity).
      split; split;
        [intros _; exact Hy | reflexivity | discriminate | intros H; contradiction].
  - intros ptyId b x s. unfold shell_resize.
    destruct ptyId; destruct b; destruct x as [|[]|q]; simpl; auto;
      rewrite ?orb_true_r; auto.
  - intros pid session s Hs. unfold shell_resize. simpl. rewrite Hs. reflexivity.
  - intros ptyId cols rows s call. unfold shell_resize.
    destruct ptyId as [| | | |pid|]; try discriminate.
    destruct cols as [| | |c| |]; try discriminate.
    destruct rows as [| | |r| |]; try discriminate.
    destruct (lt c (of_Z 1) || gt c (of_Z 500) || lt r (of_Z 1) || gt r (of_Z 200));
      [discriminate|].
    destruct (ptySessions s !! pid) as [session|] eqn:Hs; [|discriminate].
    intros [= <-]. exists pid, session, c, r. auto.
Qed.


(** *** Closing the window *)

Lemma cleanup_engine pid now s :
  Continuation.wf (engine s) -> Continuation.wf (engine (cleanupPtySession pid now s)).
Proof.
  intros W. unfold cleanupPtySession. destruct (ptySessions s !! pid); [|exact W].
  simpl. apply wf_stopContinuation, W.
Qed.

Lemma cleanup_cleans pid now s ps :
  Continuation.wf (engine s) ->
  ptySessions s !! pid = Some ps -> cleaned pid ps (cleanupPtySession pid now s).
Proof.
  intros W Hs. unfold cleanupPtySession, cleaned. rewrite Hs. simpl.
  split; [apply lookup_delete_eq|]. split; [apply lookup_delete_eq|].
  split; [rewrite elem_of_difference, elem_of_singleton; tauto|].
  split; [rewrite elem_of_difference, elem_of_singleton; tauto|].
  split.
  { unfold Continuation.getContinuationState.
    rewrite (stopContinuation_unregisters _ pid W). reflexivity. }
  split; [rewrite elem_of_union, elem_of_singleton; tauto|].
  intros row. rewrite lookup_alter_eq.
  destruct (agent_sessions s !! sessionId ps); simpl; [|discriminate].
  intros [= <-]. reflexivity.
Qed.

Lemma cleanup_keeps pid ps pid' now s :
  Continuation.wf (engine s) ->
  cleaned pid ps s -> cleaned pid ps (cleanupPtySession pid' now s).
Proof.
  intros W Hc. pose proof Hc as (H1 & H2 & H3 & H4 & H5 & H6 & H7).
  unfold cleanupPtySession.
  destruct (ptySessions s !! pid') as [ps'|] eqn:Hs'; [|exact Hc].
  assert (Hne : pid' <> pid) by congruence.
  unfold cleaned. simpl.
  split; [rewrite lookup_delete_ne by exact Hne; exact H1|].
  split; [rewrite lookup_delete_ne by exact Hne; exact H2|].
  split; [rewrite elem_of_difference; tauto|].
  split; [rewrite elem_of_difference; tauto|].
  split.
  { rewrite stopContinuation_other; [exact H5 | exact W | congruence]. }
  split; [rewrite elem_of_union; tauto|].
  intros row. rewrite lookup_alter.
  destruct (decide (sessionId ps' = sessionId ps)) as [He|Hn]; [|apply H7].
  destruct (agent_sessions s !! sessionId ps') as [r|]; simpl; [|discriminate].
  intros [= <-]. reflexivity.
Qed.

Lemma closed_engine order now : forall s,
  Continuation.wf (engine s) -> Continuation.wf (engine (window_closed order now s)).
Proof.
  induction order as [|a order IH]; intros s W; simpl; [exact W|].
  apply IH, cleanup_engine, W.
Qed.

Lemma closed_keeps pid ps order now : forall s,
  Continuation.wf (engine s) ->
  cleaned pid ps s -> cleaned pid ps (window_closed order now s).
Proof.
  induction order as [|a order IH]; intros s W Hc; simpl; [exact Hc|].
  apply IH; [apply cleanup_engine, W | apply cleanup_keeps; assumption].
Qed.

Lemma cleanup_sessions pid pid' now s :
  ptySessions (cleanupPtySession pid now s) !! pid' =
  if decide (pid = pid') then None else ptySessions s !! pid'.
Proof.
  unfold cleanupPtySession.
  destruct (ptySessions s !! pid) as [ps|] eqn:Hs; simpl.
  - destruct (decide (pid = pid')) as [<-|Hne];
      [apply lookup_delete_eq | apply lookup_delete_ne; exact Hne].
  - destruct (decide (pid = pid')) as [<-|Hne]; [exact Hs | reflexivity].
Qed.

Lemma closed_absent pid order now : forall s,
  ptySessions s !! pid = None -> ptySessions (window_closed order now s) !! pid = None.
Proof.
  induction order as [|a order IH]; intros s Hs; simpl; [exact Hs|].
  apply IH. rewrite cleanup_sessions. destruct (decide (a = pid)); [reflexivity | exact Hs].
Qed.

Lemma closed_cleans pid ps order now : forall s,
  Continuation.wf (engine s) ->
  In pid order -> ptySessions s !! pid = Some ps ->
  cleaned pid ps (window_closed order now s).
Proof.
  induction order as [|a order IH]; intros s W Hin Hs; [destruct Hin|].
  simpl. destruct (decide (a = pid)) as [->|Hne].
  - apply closed_keeps; [apply cleanup_engine, W | apply cleanup_cleans; assumption].
  - destruct Hin as [Ha|Hin]; [contradiction|].
    apply IH; [apply cleanup_engine, W | exact Hin |].
    rewrite cleanup_sessions. destruct (decide (a = pid)); [contradiction | exact Hs].
Qed.

(** X18. When the window is closed, the handler cleans up every session
    of the map: afterwards the map is empty, and for each session that was
    in it the PTY was killed, its agent-session row (if there is one) is
    ended, its checkpoint, idle timer and activity flag are gone, and no
    continuation is registered for it. *)
Theorem window_closed_cleans_every_session order now s inputs :
  engine s = Continuation.run inputs ->
  (forall pid, In pid order <-> pid ∈ dom (ptySessions s)) ->
  let s' := window_closed order now s in
  ptySessions s' = ∅ /\
  forall pid ps, ptySessions s !! pid = Some ps -> cleaned pid ps s'.
Proof.
  intros He Horder s'.
  assert (W : Continuation.wf (engine s)) by (rewrite He; apply wf_run).
  split.
  - apply map_eq. intros pid. rewrite lookup_empty.
    destruct (ptySessions s !! pid) as [ps|] eqn:Hs.
    + assert (Hin : In pid order) by (apply Horder, elem_of_dom; eauto).
      exact (proj1 (closed_cleans pid ps order now s W Hin Hs)).
    + apply closed_absent, Hs.
  - intros pid ps Hs. apply closed_cleans; [exact W | | exact Hs].
    apply Horder, elem_of_dom. eauto.
Qed.


Lemma window_closed_cleans_every_session_witness :
  ptySessions (window_closed ["p"] 7 one_session) = ∅ /\
  Continuation.getContinuationState "p" (engine one_session) <> None /\
  Continuation.getContinuationState "p" (engine (window_closed ["p"] 7 one_session)) = None.
Proof.
  assert (Horder : forall pid, In pid ["p"] <-> pid ∈ dom (ptySessions one_session)).
  { intros pid. unfold one_session. cbn [ptySessions].
    rewrite dom_singleton_L, elem_of_singleton. simpl. intuition. }
  destruct (window_closed_cleans_every_session ["p"] 7 one_session
              (firstn 2 Continuation.scenario_C) eq_refl Horder) as [Hempty Hall].
  split; [exact Hempty|]. split; [vm_compute; discriminate|].
  destruct (Hall "p" _ ltac:(vm_compute; reflexivity)) as (_ & _ & _ & _ & Hc & _).
  exact Hc.
Defined.

End HandlerFacts.

(** ** What the patterns of the engine recognise *)

Section PatternFacts.

Import Continuation.

Lemma in_ends_seq r1 r2 s i k j :
  In k (ends r1 s i) -> In j (ends r2 s k) -> In j (ends (Seq r1 r2) s i).
Proof. intros H1 H2. simpl. apply in_flat_map. exists k. auto. Qed.

Lemma in_ends_chr p s i c :
  nth_error s i = Some c -> p c = true -> In (S i) (ends (Chr p) s i).
Proof. intros Hc Hp. simpl. rewrite Hc, Hp. left. reflexivity. Qed.


Lemma nth_error_middle {A} (a : list A) c b : nth_error (a ++ c :: b) (List.length a) = Some c.
Proof. rewrite nth_error_app2 by lia. rewrite Nat.sub_diag. reflexivity. Qed.

(** A literal under the [i] flag matches a text that is the same up to the
    case of ASCII letters. *)
Lemma in_ends_lit_i cs : forall w a b,
  List.map upcase w = List.map upcase cs ->
  In (List.length a + List.length w)
     (ends (seq_of (List.map chr_i cs)) (a ++ w ++ b) (List.length a)).
Proof.
  induction cs as [|c cs IH]; intros w a b Hw.
  - destruct w; [|discriminate]. simpl. left. lia.
  - destruct w as [|x w]; [discriminate|]. simpl in Hw. injection Hw as Hx Hw.
    assert (Hfirst : In (S (List.length a))
                        (ends (chr_i c) (a ++ (x :: w) ++ b) (List.length a))).
    { apply (in_ends_chr _ _ _ x); [apply nth_error_middle|].
      rewrite Hx. apply N.eqb_refl. }
    destruct cs as [|c' cs].
    + destruct w; [|discriminate]. simpl List.length. simpl seq_of.
      replace (List.length a + 1) with (S (List.length a)) by lia. exact Hfirst.
    + change (seq_of (List.map chr_i (c :: c' :: cs)))
        with (Seq (chr_i c) (seq_of (List.map chr_i (c' :: cs)))).
      apply (in_ends_seq _ _ _ _ (S (List.length a))); [exact Hfirst|].
      specialize (IH w (a ++ [x]) b Hw).
      rewrite <- app_assoc in IH. rewrite List.length_app in IH. simpl in IH.
      simpl List.length.
      replace (S (List.length a)) with (List.length a + 1) by lia.
      replace (List.length a + S (List.length w))
        with (List.length a + 1 + List.length w) by lia.
      exact IH.
Qed.

Lemma test_of_match r s i j :
  In j (ends r s i) -> i <= List.length s -> test r s = true.
Proof.
  intros Hin Hi. unfold test. apply existsb_exists. exists i. split.
  - apply in_seq. lia.
  - unfold matches_at. destruct (ends r s i); [destruct Hin | reflexivity].
Qed.


(** *** Lines *)










(** *** Prompts *)






Lemma some_test_of ps p s : In p ps -> test p s = true -> some_test ps s = true.
Proof. intros Hin Ht. unfold some_test. apply existsb_exists. exists p. auto. Qed.

Lemma in_ends_wordb s i : boundary_at s i = true -> In i (ends WordB s i).
Proof. intros H. simpl. rewrite H. left. reflexivity. Qed.

Lemma word_at_middle a c b : word_at (a ++ c :: b) (List.length a) = is_word c.
Proof. unfold word_at. rewrite nth_error_middle. reflexivity. Qed.

Lemma upcase_first w c cs :
  List.map upcase w = List.map upcase (c :: cs) ->
  exists x w', w = x :: w' /\ is_word x = is_word c.
Proof.
  destruct w as [|x w']; [discriminate|]. simpl. intros [= Hx _].
  exists x, w'. split; [reflexivity|].
  rewrite <- (is_word_upcase x), Hx. apply is_word_upcase.
Qed.

(** A phrase between word boundaries, under the [i] flag: found where it
    stands between characters that are not word characters (or at an end
    of the text). *)
Lemma phrase_detected phrase c cs cl cr a w b :
  js phrase = c :: cs -> rev (js phrase) = cl :: cr ->
  is_word c = true -> is_word cl = true ->
  List.map upcase w = List.map upcase (js phrase) ->
  (forall a' x, a = a' ++ [x] -> is_word x = false) ->
  (forall x b', b = x :: b' -> is_word x = false) ->
  test (b_b phrase) (a ++ w ++ b) = true.
Proof.
  intros Hc Hcl Hwc Hwl Hw Ha Hb.
  assert (Hfirst : exists x w', w = x :: w' /\ is_word x = true).
  { rewrite Hc in Hw. destruct (upcase_first w c cs Hw) as (x & w' & -> & Hx).
    exists x, w'. split; [reflexivity | congruence]. }
  assert (Hlast : exists z w', w = w' ++ [z] /\ is_word z = true).
  { assert (Hr : List.map upcase (rev w) = List.map upcase (cl :: cr))
      by (rewrite <- Hcl, !List.map_rev, Hw; reflexivity).
    destruct (upcase_first (rev w) cl cr Hr) as (z & w' & Hz & Hzw).
    exists z, (rev w'). split; [|congruence].
    rewrite <- (rev_involutive w), Hz. reflexivity. }
  apply (test_of_match _ _ (List.length a) (List.length a + List.length w));
    [|rewrite List.length_app; lia].
  unfold b_b.
  apply (in_ends_seq _ _ _ _ (List.length a)).
  { apply in_ends_wordb. unfold boundary_at.
    destruct Hfirst as (x & w' & -> & Hx). simpl app. rewrite word_at_middle, Hx.
    destruct a as [|a0 a1] using rev_ind; [reflexivity|].
    rewrite List.length_app, Nat.add_1_r. rewrite <- !app_assoc. simpl app.
    rewrite word_at_middle, (Ha a1 a0 eq_refl). reflexivity. }
  apply (in_ends_seq _ _ _ _ (List.length a + List.length w)).
  { apply in_ends_lit_i. exact Hw. }
  apply in_ends_wordb. unfold boundary_at.
  destruct Hlast as (z & w' & -> & Hz).
  rewrite List.length_app, Nat.add_1_r, Nat.add_succ_r.
  replace (word_at (a ++ (w' ++ [z]) ++ b) (List.length a + List.length w')) with true.
  - replace (word_at (a ++ (w' ++ [z]) ++ b) (S (List.length a + List.length w')))
      with false; [reflexivity|].
    rewrite !app_assoc.
    replace (S (List.length a + List.length w')) with (List.length ((a ++ w') ++ [z]))
      by (rewrite !List.length_app; simpl; lia).
    destruct b as [|x b'].
    + unfold word_at. rewrite app_nil_r.
      rewrite (proj2 (nth_error_None _ _)); [reflexivity | lia].
    + rewrite word_at_middle. symmetry. exact (Hb x b' eq_refl).
  - rewrite <- Hz. rewrite <- (word_at_middle (a ++ w') z b).
    rewrite List.length_app, <- !app_assoc. reflexivity.
Qed.

(** X19. The completion signals.  The token [<promise>DONE</promise>] is
    found wherever it stands in the output and whatever the case of its
    letters.  Each of the four phrases ([all tasks completed], [task
    complete], [finished successfully], [completed successfully]) is found,
    in any letter case, where it stands between characters that are not
    word characters or at an end of the output. *)
Theorem done_signals_are_recognised a w b :
  (List.map upcase w = List.map upcase (js "<promise>DONE</promise>") ->
   some_test DONE_PATTERNS (a ++ w ++ b) = true) /\
  (forall phrase,
     In phrase ["all tasks completed"; "task complete"; "finished successfully";
                "completed successfully"] ->
     List.map upcase w = List.map upcase (js phrase) ->
     (forall a' x, a = a' ++ [x] -> is_word x = false) ->
     (forall x b', b = x :: b' -> is_word x = false) ->
     some_test DONE_PATTERNS (a ++ w ++ b) = true).
Proof.
  split.
  - intros Hw. apply (some_test_of _ (lit_i "<promise>DONE</promise>"));
      [unfold DONE_PATTERNS; simpl; tauto|].
    apply (test_of_match _ _ (List.length a) (List.length a + List.length w));
      [|rewrite List.length_app; lia].
    apply in_ends_lit_i. exact Hw.
  - intros phrase Hin Hw Ha Hb.
    apply (some_test_of _ (b_b phrase)).
    + unfold DONE_PATTERNS. simpl in Hin |- *.
      destruct Hin as [<-|[<-|[<-|[<-|[]]]]]; tauto.
    + simpl in Hin. destruct Hin as [<-|[<-|[<-|[<-|[]]]]];
        eapply phrase_detected; try eassumption; reflexivity.
Qed.

Lemma done_signals_are_recognised_witness :
  some_test DONE_PATTERNS
    (js "all good" ++ [LF] ++ js "<Promise>done</PROMISE>" ++ js " bye") = true /\
  some_test DONE_PATTERNS (js "ok. " ++ js "Task Complete" ++ js "!") = true.
Proof.
  split.
  - apply (proj1 (done_signals_are_recognised (js "all good" ++ [LF])
                    (js "<Promise>done</PROMISE>") (js " bye"))).
    vm_compute. reflexivity.
  - apply (proj2 (done_signals_are_recognised (js "ok. ") (js "Task Complete") (js "!"))
             "task complete").
    + simpl. tauto.
    + vm_compute. reflexivity.
    + intros a' x H. apply (f_equal (@rev N)) in H. rewrite rev_app_distr in H.
      vm_compute in H. injection H as <- _. reflexivity.
    + intros x b' H. injection H as <- _. reflexivity.
Defined.

(** A phrase inside a longer word is not a signal. *)
Example done_signal_edges :
  some_test DONE_PATTERNS (js "the task completed") = false /\
  some_test DONE_PATTERNS (js "subtask complete") = false /\
  some_test DONE_PATTERNS (js "ALL TASKS COMPLETED.") = true.
Proof. repeat split; vm_compute; reflexivity. Qed.



(** Five line feeds after the prompt push it out of the last five lines;
    a [$] that ends a sentence counts as a prompt; a [>] does only at the
    start of its line. *)
Example idle_prompt_edges :
  isAtPrompt (js "$ " ++ repeat LF 4) = true /\
  isAtPrompt (js "$ " ++ repeat LF 5) = false /\
  isAtPrompt (js "cost: 5$") = true /\
  isAtPrompt (js "a >") = false /\
  isAtPrompt (js "echo " ++ js ONE_SHOT_DONE_MARKER) = false.
Proof. repeat split; vm_compute; reflexivity. Qed.

End PatternFacts.

(** ** Starting with [kickOff] *)

Section KickOffFacts.

Import Js Continuation Number ContinuationInv.

Lemma cap_is_positive v : ge (of_nat 0) (Boundary.continuationMax v) = false.
Proof.
  destruct (continuationMax_range v) as (q & -> & Hpos & _).
  unfold ge, le, of_nat, of_Z. change (Z.of_nat 0) with 0%Z.
  destruct (Qle_bool q (inject_Z 0)) eqn:E; [|reflexivity].
  apply Qle_bool_iff in E. exfalso. exact (Qlt_not_le _ _ Hpos E).
Qed.

Lemma emit_if_fields b o ev e :
  heap (emit_if b o ev e) = heap e /\ states (emit_if b o ev e) = states e /\
  timers (emit_if b o ev e) = timers e /\ next_timer (emit_if b o ev e) = next_timer e /\
  trace (emit_if b o ev e) = trace e ++ List.map (pair o) (opt_ev b ev).
Proof. destruct b; simpl; rewrite ?app_nil_r; auto. Qed.

(** X21. A continuation started with [kickOff] (the one-shot loop) and a
    cap computed by the [continuation:start] handler sends its first
    iteration at once when the window is alive: right after the start the
    run is registered, its iteration count is 1, its events are exactly
    those of iteration 1 (the hook if supplied, the
    [continuation:iteration] message, the call of [onContinue]), and one
    quiet check is pending for it.  Without [kickOff] nothing is sent at
    the start: the count is 0 and only the check is pending. *)
Theorem kickOff_sends_first_iteration_at_once inputs pid g v hks options :
  let e' := startContinuation pid g (Boundary.continuationMax v) hks options false
              (run inputs) in
  exists o st,
    states e' !! pid = Some o /\ heap e' !! o = Some st /\
    status st = running /\ goal st = g /\
    timers e' !! next_timer (run inputs) = Some (o, quietDelayMs st) /\
    timer st = Some (next_timer (run inputs)) /\
    if truthy (kickOff options)
    then currentIteration st = 1 /\ events_of o (trace e') = block st 1
    else currentIteration st = 0 /\ events_of o (trace e') = [].
Proof.
  intros e'. pose proof (wf_run inputs) as W.
  pose proof (wf_stopContinuation _ pid W) as W1.
  set (e1 := stopContinuation pid (run inputs)) in *.
  assert (Hfresh : events_of (next_obj e1) (trace e1) = []).
  { apply events_of_fresh. intros ev Hin.
    pose proof (wf_trace _ W1 _ _ Hin). lia. }
  assert (Hnt : next_timer e1 = next_timer (run inputs)).
  { subst e1. unfold stopContinuation.
    destruct (states (run inputs) !! pid) as [o|]; [|reflexivity].
    destruct (heap (run inputs) !! o) as [st|]; [|reflexivity].
    destruct (timer st); destruct (onCancelled (hooks st)); reflexivity. }
  subst e'. unfold startContinuation. fold e1. rewrite <- Hnt. clearbody e1. clear W W1.
  exists (next_obj e1).
  match goal with
  | |- context [runIteration _ _ ?x] => set (e2 := x)
  end.
  match goal with
  | e2 := {| heap := <[_ := ?x]> _; states := _; timers := _; trace := _;
             next_obj := _; next_timer := _ |} |- _ => set (st0 := x) in *
  end.
  assert (H2 : heap e2 !! next_obj e1 = Some st0) by apply lookup_insert_eq.
  destruct (truthy (kickOff options)).
  - unfold runIteration. rewrite H2. change (status st0) with running. cbv iota.
    change (currentIteration st0) with 0. change (maxIterations st0) with (Boundary.continuationMax v).
    rewrite cap_is_positive.
    set (st1 := set_outputBuffer [] (set_currentIteration 1 st0)).
    match goal with
    | |- context [scheduleCheck _ ?x] => set (e5 := x)
    end.
    destruct (emit_if_fields (onIteration (hooks st0)) (next_obj e1)
                (HookIteration (ptyId st0) 1 (Boundary.continuationMax v))
                (update (next_obj e1) (set_outputBuffer [])
                   (update (next_obj e1) (set_currentIteration 1) e2)))
      as (Hh & Hs & Ht & Hn & Htr).
    assert (H5 : heap e5 !! next_obj e1 = Some st1).
    { subst e5. cbn [heap emit]. rewrite Hh. cbn [heap update with_heap].
      rewrite !lookup_alter_eq, H2. reflexivity. }
    unfold scheduleCheck. rewrite H5. change (status st1) with running. cbv iota.
    exists (set_timer (Some (next_timer e5)) st1).
    assert (Hn5 : next_timer e5 = next_timer e1) by (subst e5; cbn [next_timer emit]; exact Hn).
    split.
    { cbn [states update with_heap setTimeout]. subst e5. cbn [states emit]. rewrite Hs.
      apply lookup_insert_eq. }
    split.
    { cbn [heap update with_heap setTimeout]. rewrite lookup_alter_eq, H5. reflexivity. }
    split; [reflexivity|]. split; [reflexivity|].
    split.
    { cbn [timers update with_heap setTimeout]. rewrite <- Hn5. apply lookup_insert_eq. }
    split; [cbn [timer set_timer]; rewrite Hn5; reflexivity|].
    split; [reflexivity|].
    cbn [trace update with_heap setTimeout]. subst e5. cbn [trace emit]. rewrite Htr.
    cbn [trace update with_heap]. change (trace e2) with (trace e1).
    rewrite <- !app_assoc, events_of_app, Hfresh.
    rewrite app_nil_l.
    transitivity (events_of (next_obj e1)
                    (List.map (pair (next_obj e1))
                       (opt_ev (onIteration (hooks st0))
                          (HookIteration (ptyId st0) 1 (Boundary.continuationMax v)) ++
                        [SendIteration (ptyId st0) 1 (Boundary.continuationMax v);
                         CallOnContinue (ptyId st0)])));
      [rewrite List.map_app; reflexivity | rewrite events_of_own; reflexivity].
  - unfold scheduleCheck. rewrite H2. change (status st0) with running. cbv iota.
    exists (set_timer (Some (next_timer e2)) st0).
    split; [apply lookup_insert_eq|].
    split; [cbn [heap update with_heap setTimeout]; rewrite lookup_alter_eq, H2; reflexivity|].
    split; [reflexivity|]. split; [reflexivity|].
    split; [apply lookup_insert_eq|].
    split; [reflexivity|]. split; [reflexivity | exact Hfresh].
Qed.

End KickOffFacts.
